(** * AnnotateMD: a shallow embedding of the incremental pattern matcher

    Source: [src/test/annotate.ts] (namespace [AnnotateMD]).

    Modelling conventions.
    - JS numbers are [Z]; the [depth] argument of [Pattern.matches] may be
      [undefined] (the subtree-exclusion pattern calls [pattern.matches(el)]
      with no depth), so it is an [option Z], [None] being [undefined];
      [_cur_depth] is likewise an [option Z] starting at [Some (-1)].
    - [PatternMatch] objects live in an arena [Store] (a list indexed by
      object identity); patterns hold the index of their live accumulator
      ([None] is [null]).  This keeps the aliasing of the source: the working
      set of the orchestrator and the wrapper accumulator of an [AnyPattern]
      hold references, not copies.
    - Every [Pattern] object carries its identity [pid]; a [PatternMatch]
      refers to its parent pattern by that identity.
    - A thrown [TypeError] (reading a property of [undefined] or [null]) is
      [None] in the [option] monad.
    - A tree node is identified by its path from the root. *)

From Stdlib Require Import List String Ascii ZArith Bool Lia.
Import ListNotations.
Open Scope Z_scope.
Set Warnings "-register-all".


(** ** Option monad *)

Definition obind {A B : Type} (a : option A) (f : A -> option B) : option B :=
  match a with Some x => f x | None => None end.

Notation "x <- a ;; b" := (obind a (fun x => b))
  (at level 61, a at next level, right associativity).
Notation "' pat <- a ;; b" := (obind a (fun x => match x with pat => b end))
  (at level 61, pat pattern, a at next level, right associativity).

(** ** Small list helpers *)

Fixpoint set_nth {A : Type} (n : nat) (x : A) (l : list A) : list A :=
  match l, n with
  | [], _ => []
  | _ :: l', O => x :: l'
  | y :: l', S n' => y :: set_nth n' x l'
  end.

Definition last_opt {A : Type} (l : list A) : option A :=
  nth_error l (List.length l - 1)%nat.

(** ** Responses *)

Inductive PatternMatchResponse : Set :=
| Matching
| NonMatching
| Incomplete
| Completed
| Break
| Unapplied.

Definition resp_eq_dec (a b : PatternMatchResponse) : {a = b} + {a <> b}.
Proof. decide equality. Defined.

Definition resp_eqb (a b : PatternMatchResponse) : bool :=
  if resp_eq_dec a b then true else false.

(** ** Tree nodes (the DOM elements the engine reads) *)

Inductive Element : Type :=
| Elem (tagName : string) (className : string) (children : list Element).

Definition tagName (e : Element) : string := let '(Elem t _ _) := e in t.
Definition children (e : Element) : list Element := let '(Elem _ _ c) := e in c.

Definition path := list nat.

(** [element[field_name]]: only the two fields the patterns use exist;
    any other name reads [undefined]. *)
Definition field_of (el : Element) (field_name : string) : option string :=
  let '(Elem t c _) := el in
  if String.eqb field_name "tagName" then Some t
  else if String.eqb field_name "className" then Some c
  else None.

(** ** Match accumulators *)

Inductive Item : Type :=
| INode (p : path) (e : Element)
| IMatch (m : option nat).

Record PatternMatch : Type := mkMatch {
  nodes : list Item;
  complete : bool;
  parent : nat
}.

Definition Store := list PatternMatch.

(** [new PatternMatch(parent, nodes)] *)
Definition new_match (parent : nat) (ns : list Item) : PatternMatch :=
  {| nodes := ns; complete := false; parent := parent |}.

(** [PatternMatch.finalize]: defined in the source, called nowhere. *)
Definition finalize (m : PatternMatch) : PatternMatch :=
  {| nodes := nodes m; complete := true; parent := parent m |}.

Definition alloc (s : Store) (m : PatternMatch) : nat * Store :=
  (List.length s, s ++ [m]).

(** [PatternMatch.push] on the accumulator with identity [id]. *)
Definition store_push (s : Store) (id : nat) (it : Item) : option Store :=
  m <- nth_error s id ;;
  Some (set_nth id {| nodes := nodes m ++ [it]; complete := complete m;
                      parent := parent m |} s).

(** ** Patterns *)

Record PatternConfig : Type := mkConfig {
  pid : nat;
  priority : Z;
  compounds : bool;
  terminal : bool;
  open_ended : bool;
  depth : Z;
  absolute_depth : Z;
  transform : option string;
  applications : Z
}.

Record PatternState : Type := mkState {
  cfg : PatternConfig;
  match_ : option nat;
  _cur_depth : option Z;
  _applied : Z
}.

(** The subclass-specific fields of each pattern class. *)
Inductive Kind (P : Type) : Type :=
| SimpleK (field_options : list string) (field_name : string) (exact all : bool)
| SequenceK (cur : nat) (cur_counts : Z) (patterns : list P)
            (repeats : list (list Z))
| IgnoredK (pattern : P)
| AllK (patterns : list P)
| AnyK (patterns : list P)
| ExceptK (musnt_match : P) (must_match : option P)
| TestK (must_match : option P) (test : Element -> bool).

Arguments SimpleK {P}.
Arguments SequenceK {P}.
Arguments IgnoredK {P}.
Arguments AllK {P}.
Arguments AnyK {P}.
Arguments ExceptK {P}.
Arguments TestK {P}.

Inductive Pattern : Type :=
| Pat (st : PatternState) (kind : Kind Pattern).

Definition pstate (p : Pattern) : PatternState := let '(Pat st _) := p in st.
Definition pkind (p : Pattern) : Kind Pattern := let '(Pat _ k) := p in k.
Definition pcfg (p : Pattern) : PatternConfig := cfg (pstate p).
Definition pmatch (p : Pattern) : option nat := match_ (pstate p).

Definition set_match (st : PatternState) (m : option nat) : PatternState :=
  {| cfg := cfg st; match_ := m; _cur_depth := _cur_depth st;
     _applied := _applied st |}.

(** [Pattern.disable_handling] *)
Definition disable_handling (p : Pattern) : Pattern :=
  let '(Pat st k) := p in Pat (set_match st None) k.

(** ** SimplePattern.match_field *)

Fixpoint indexOf_from (s c : string) (i : Z) : Z :=
  if String.prefix c s then i
  else match s with
       | EmptyString => -1
       | String _ s' => indexOf_from s' c (i + 1)
       end.

(** [String.prototype.indexOf] *)
Definition indexOf (s c : string) : Z := indexOf_from s c 0.

(** [cname === c], [cname] possibly [undefined]. *)
Definition js_str_eq (cname : option string) (c : string) : bool :=
  match cname with Some s => String.eqb s c | None => false end.

(** the [!all] loop *)
Fixpoint match_any_options (cname : option string) (options : list string)
    (exact : bool) : option PatternMatchResponse :=
  match options with
  | [] => Some NonMatching
  | c :: rest =>
      if negb exact then
        s <- cname ;;
        if indexOf s c =? -1 then match_any_options cname rest exact
        else Some Matching
      else if js_str_eq cname c then Some Matching
      else match_any_options cname rest exact
  end.

(** the [all] loop *)
Fixpoint match_all_options (cname : option string) (options : list string)
    (exact : bool) : option PatternMatchResponse :=
  match options with
  | [] => Some Matching
  | c :: rest =>
      if negb exact then
        s <- cname ;;
        if indexOf s c =? -1 then Some NonMatching
        else match_all_options cname rest exact
      else if negb (js_str_eq cname c) then Some NonMatching
      else match_all_options cname rest exact
  end.

Definition match_field (element : Element) (field_name : string)
    (field_options : list string) (exact all : bool)
    : option PatternMatchResponse :=
  let cname := field_of element field_name in
  if negb all then match_any_options cname field_options exact
  else match_all_options cname field_options exact.

(** ASCII [toUpperCase] *)
Definition ascii_upper (a : ascii) : ascii :=
  let n := nat_of_ascii a in
  if ((97 <=? n) && (n <=? 122))%nat then ascii_of_nat (n - 32) else a.

Fixpoint toUpperCase (s : string) : string :=
  match s with
  | EmptyString => EmptyString
  | String a s' => String (ascii_upper a) (toUpperCase s')
  end.

(** ** Pattern.matches *)

(** [min_count] and [max_count] of [SequencePattern.match_seq]:
    [this.repeats[this.cur]] must exist (else [TypeError]); its first and
    last entries may be [undefined] when it is empty. *)
Definition seq_bounds (repeats : list (list Z)) (cur : nat)
    : option (option Z * option Z) :=
  r <- nth_error repeats cur ;;
  Some (nth_error r 0, last_opt r).

(** [x >= y] and [x > 0] with [y] / [x] possibly [undefined] *)
Definition js_ge (x : Z) (y : option Z) : bool :=
  match y with Some y' => y' <=? x | None => false end.
Definition js_pos (x : option Z) : bool :=
  match x with Some x' => 0 <? x' | None => false end.

Definition is_match_or_completed (r : PatternMatchResponse) : bool :=
  resp_eqb r Matching || resp_eqb r Completed.

(** [SequencePattern.match_seq] at cursor [cur]: the walk over [ps] (the
    child list, [i] the index of its head) reaches [this.patterns[this.cur]];
    the recursive [this.match_seq(element, ...)] after [inc_pattern()] is the
    recursive call on the tail, whose head is [this.patterns[this.cur + 1]].
    [m] is [pattern.matches(element, depth)]; [total] is
    [this.patterns.length].  Returns the response, the updated children,
    the new [cur] and [cur_counts], and the store. *)
Fixpoint seq_go (m : Pattern -> Store -> option (PatternMatchResponse * Pattern * Store))
    (total : nat) (repeats : list (list Z)) (i : nat) (ps : list Pattern)
    (cur : nat) (cur_counts : Z) (s : Store)
    : option (PatternMatchResponse * list Pattern * nat * Z * Store) :=
  match ps with
  | [] => None (* this.patterns[this.cur] is undefined *)
  | p0 :: ps' =>
      if (i <? cur)%nat then
        '(r, ps2, cur2, cnt2, s2) <- seq_go m total repeats (S i) ps' cur cur_counts s ;;
        Some (r, p0 :: ps2, cur2, cnt2, s2)
      else
        '(resp, p0', s1) <- m p0 s ;;
        '(min_count, max_count) <- seq_bounds repeats cur ;;
        if resp_eqb resp NonMatching && js_ge cur_counts min_count then
          (* inc_pattern() *)
          let cur1 := S cur in
          if (total <=? cur1)%nat then Some (Completed, p0' :: ps', cur1, 0, s1)
          else
            '(r2, ps2, cur2, cnt2, s2) <- seq_go m total repeats (S i) ps' cur1 0 s1 ;;
            Some (r2, p0' :: ps2, cur2, cnt2, s2)
        else if is_match_or_completed resp then
          let cnt1 := cur_counts + 1 in
          let '(cur2, cnt2) :=
            if js_pos max_count && js_ge cnt1 max_count then (S cur, 0)
            else (cur, cnt1) in
          if (total <=? cur2)%nat then Some (Matching, p0' :: ps', cur2, cnt2, s1)
          else Some (Incomplete, p0' :: ps', cur2, cnt2, s1)
        else Some (resp, p0' :: ps', cur, cur_counts, s1)
  end.

(** [AllPattern.match_all]: the loop stops at the first response that is
    not [Matching]. *)
Fixpoint all_go (m : Pattern -> Store -> option (PatternMatchResponse * Pattern * Store))
    (ps : list Pattern) (resp : PatternMatchResponse) (s : Store)
    : option (PatternMatchResponse * list Pattern * Store) :=
  match ps with
  | [] => Some (resp, [], s)
  | p0 :: ps' =>
      '(r, p0', s1) <- m p0 s ;;
      if negb (resp_eqb r Matching) then Some (r, p0' :: ps', s1)
      else
        '(r2, ps2, s2) <- all_go m ps' r s1 ;;
        Some (r2, p0' :: ps2, s2)
  end.

(** [AnyPattern.match_any]: the loop stops at the first response that is
    neither [NonMatching] nor [Unapplied]. *)
Fixpoint any_go (m : Pattern -> Store -> option (PatternMatchResponse * Pattern * Store))
    (ps : list Pattern) (resp : PatternMatchResponse) (s : Store)
    : option (PatternMatchResponse * list Pattern * Store) :=
  match ps with
  | [] => Some (resp, [], s)
  | p0 :: ps' =>
      '(r, p0', s1) <- m p0 s ;;
      if negb (resp_eqb r NonMatching) && negb (resp_eqb r Unapplied)
      then Some (r, p0' :: ps', s1)
      else
        '(r2, ps2, s2) <- any_go m ps' r s1 ;;
        Some (r2, p0' :: ps2, s2)
  end.

(** [IgnoredPattern.match_ignore] *)
Definition match_ignore (resp : PatternMatchResponse) : PatternMatchResponse :=
  match resp with
  | Incomplete | Break | Matching => Break
  | r => r
  end.

(** [ExceptPattern.match_execpt] *)
Definition match_execpt (resp : PatternMatchResponse) : PatternMatchResponse :=
  match resp with
  | Matching | Completed => NonMatching
  | NonMatching => Matching
  | r => r
  end.

(** [PatternTest.match_test], after [must.matches(element, depth)] *)
Definition match_test (resp : PatternMatchResponse) (ok : bool) : PatternMatchResponse :=
  if is_match_or_completed resp && negb ok then NonMatching else resp.

(** The three short-circuit checks of [Pattern.matches], in order. *)
Definition abs_depth_exceeded (st : PatternState) (d : option Z) : bool :=
  (0 <=? absolute_depth (cfg st)) &&
  match d with Some d' => absolute_depth (cfg st) <? d' | None => false end.

Definition applications_exhausted (st : PatternState) : bool :=
  (0 <=? applications (cfg st)) && (applications (cfg st) <=? _applied st).

(** [this._cur_depth >= 0 && this.depth >= 0 && depth - this._cur_depth > this.depth];
    with [undefined] on either side the comparison is false. *)
Definition depth_window_exceeded (st : PatternState) (d : option Z) : bool :=
  match _cur_depth st, d with
  | Some cd, Some d' => (0 <=? cd) && (0 <=? depth (cfg st)) && (depth (cfg st) <? d' - cd)
  | _, _ => false
  end.

(** The bookkeeping of [Pattern.matches] after the matcher has answered. *)
Definition record_match (st : PatternState) (matched : PatternMatchResponse)
    (el : Element) (pth : path) (d : option Z) (s : Store)
    : option (PatternState * Store) :=
  if resp_eqb matched Matching || resp_eqb matched Incomplete then
    let cd := match _cur_depth st with
              | Some c => if c =? -1 then d else Some c
              | None => None
              end in
    let ap := if resp_eqb matched Matching then _applied st + 1 else _applied st in
    s' <- match match_ st with
          | Some id => store_push s id (INode pth el)
          | None => Some s
          end ;;
    Some ({| cfg := cfg st; match_ := match_ st; _cur_depth := cd; _applied := ap |}, s')
  else Some (st, s).

Fixpoint matches (p : Pattern) (el : Element) (pth : path) (d : option Z) (s : Store)
    {struct p} : option (PatternMatchResponse * Pattern * Store) :=
  let '(Pat st k) := p in
  if abs_depth_exceeded st d then Some (Unapplied, p, s)
  else if applications_exhausted st then Some (Unapplied, p, s)
  else if depth_window_exceeded st d then Some (Unapplied, p, s)
  else
    '(matched, k', s1) <-
      match k with
      | SimpleK opts name exact all =>
          r <- match_field el name opts exact all ;;
          Some (r, k, s)
      | SequenceK cur cnt ps reps =>
          '(r, ps', cur', cnt', s1) <-
            seq_go (fun q => matches q el pth d) (List.length ps) reps 0 ps cur cnt s ;;
          Some (r, SequenceK cur' cnt' ps' reps, s1)
      | IgnoredK q =>
          (* pattern.matches(el): depth is undefined *)
          '(r, q', s1) <- matches q el pth None s ;;
          Some (match_ignore r, IgnoredK q', s1)
      | AllK ps =>
          '(r, ps', s1) <- all_go (fun q => matches q el pth d) ps Matching s ;;
          Some (r, AllK ps', s1)
      | AnyK ps =>
          '(r, ps', s1) <- any_go (fun q => matches q el pth d) ps Matching s ;;
          Some (r, AnyK ps', s1)
      | ExceptK q mq =>
          '(r, q', s1) <- matches q el pth d s ;;
          Some (match_execpt r, ExceptK q' mq, s1)
      | TestK None t => None (* must.matches with must === null *)
      | TestK (Some q) t =>
          '(r, q', s1) <- matches q el pth d s ;;
          Some (match_test r (t el), TestK (Some q') t, s1)
      end ;;
    '(st', s2) <- record_match st matched el pth d s1 ;;
    Some (matched, Pat st' k', s2).

(** ** Pattern.reset *)

(** [Pattern.reset]: the old accumulator is returned; a fresh one replaces
    it unless the pattern has none ([null]). *)
Definition base_reset (st : PatternState) (s : Store)
    : PatternState * Store * option nat :=
  let old := match_ st in
  let '(m', s') :=
    match old with
    | Some _ => let '(id, s1) := alloc s (new_match (pid (cfg st)) []) in (Some id, s1)
    | None => (None, s)
    end in
  ({| cfg := cfg st; match_ := m'; _cur_depth := Some (-1); _applied := _applied st |},
   s', old).

(** [for (const pat of this.patterns) { pat.reset(); }] *)
Fixpoint reset_each (r : Pattern -> Store -> Pattern * Store * option nat)
    (ps : list Pattern) (s : Store) : list Pattern * Store :=
  match ps with
  | [] => ([], s)
  | p0 :: ps' =>
      let '(p0', s1, _) := r p0 s in
      let '(ps2, s2) := reset_each r ps' s1 in
      (p0' :: ps2, s2)
  end.

(** [reset()] with the overrides of [SequencePattern] (cursor and counter
    back to 0, then [super.reset()]) and [AnyPattern] (children reset, a new
    wrapper over the children's accumulators; [super.reset()] is not
    called). *)
Fixpoint reset (p : Pattern) (s : Store) {struct p} : Pattern * Store * option nat :=
  let '(Pat st k) := p in
  match k with
  | SequenceK _ _ ps reps =>
      let '(st', s', old) := base_reset st s in
      (Pat st' (SequenceK 0 0 ps reps), s', old)
  | AnyK ps =>
      let m := match_ st in
      let '(ps', s1) := reset_each reset ps s in
      let '(w, s2) := alloc s1 (new_match (pid (cfg st)) (map (fun q => IMatch (pmatch q)) ps')) in
      (Pat (set_match st (Some w)) (AnyK ps'), s2, m)
  | _ =>
      let '(st', s', old) := base_reset st s in
      (Pat st' k, s', old)
  end.

(** ** Constructors *)

(** The object heap while patterns are being built: the next object
    identity and the accumulator arena. *)
Record Heap : Type := mkHeap { next_pid : nat; heap_store : Store }.

Record Options : Type := mkOptions {
  o_priority : Z;
  o_compounds : bool;
  o_terminal : bool;
  o_open_ended : bool;
  o_depth : Z;
  o_absolute_depth : Z;
  o_manage_match : bool;
  o_transform : option string;
  o_applications : Z;
  o_exact : bool;
  o_all : bool
}.

(** [$DefaultDepth], [$DefaultPriority], [$DefaultAbsDepth], [$DefaultApplications] *)
Definition DefaultDepth : Z := 0.
Definition DefaultPriority : Z := 0.
Definition DefaultAbsDepth : Z := -1.
Definition DefaultApplications : Z := -1.

Definition mk_options (priority : Z) (terminal open_ended exact all : bool) : Options :=
  {| o_priority := priority; o_compounds := true; o_terminal := terminal;
     o_open_ended := open_ended; o_depth := DefaultDepth;
     o_absolute_depth := DefaultAbsDepth; o_manage_match := true;
     o_transform := None; o_applications := DefaultApplications;
     o_exact := exact; o_all := all |}.

(** the default option objects of each constructor *)
Definition tag_defaults : Options := mk_options DefaultPriority false false true false.
Definition class_defaults : Options := mk_options DefaultPriority false false false true.
Definition sequence_defaults : Options := mk_options 1 false false false false.
Definition ignored_defaults : Options := mk_options 1 true false false false.
Definition composite_defaults : Options := mk_options 1 false false false false.

Definition with_transform (t : string) (o : Options) : Options :=
  {| o_priority := o_priority o; o_compounds := o_compounds o; o_terminal := o_terminal o;
     o_open_ended := o_open_ended o; o_depth := o_depth o;
     o_absolute_depth := o_absolute_depth o; o_manage_match := o_manage_match o;
     o_transform := Some t; o_applications := o_applications o;
     o_exact := o_exact o; o_all := o_all o |}.

Definition with_applications (n : Z) (o : Options) : Options :=
  {| o_priority := o_priority o; o_compounds := o_compounds o; o_terminal := o_terminal o;
     o_open_ended := o_open_ended o; o_depth := o_depth o;
     o_absolute_depth := o_absolute_depth o; o_manage_match := o_manage_match o;
     o_transform := o_transform o; o_applications := n;
     o_exact := o_exact o; o_all := o_all o |}.

Definition with_compounds (b : bool) (o : Options) : Options :=
  {| o_priority := o_priority o; o_compounds := b; o_terminal := o_terminal o;
     o_open_ended := o_open_ended o; o_depth := o_depth o;
     o_absolute_depth := o_absolute_depth o; o_manage_match := o_manage_match o;
     o_transform := o_transform o; o_applications := o_applications o;
     o_exact := o_exact o; o_all := o_all o |}.

(** the [Pattern] constructor: a fresh object identity, and a fresh
    accumulator when [manage_match] *)
Definition new_pattern (o : Options) (d abs : Z) (manage_match : bool)
    (k : Kind Pattern) (h : Heap) : Pattern * Heap :=
  let me := next_pid h in
  let c := {| pid := me; priority := o_priority o; compounds := o_compounds o;
              terminal := o_terminal o; open_ended := o_open_ended o;
              depth := d; absolute_depth := abs; transform := o_transform o;
              applications := o_applications o |} in
  let '(m, s) :=
    if manage_match then let '(id, s1) := alloc (heap_store h) (new_match me []) in (Some id, s1)
    else (None, heap_store h) in
  (Pat {| cfg := c; match_ := m; _cur_depth := Some (-1); _applied := 0 |} k,
   {| next_pid := S me; heap_store := s |}).

Definition SimplePattern (field_options : list string) (field_name : string)
    (o : Options) (h : Heap) : Pattern * Heap :=
  new_pattern o (o_depth o) (o_absolute_depth o) (o_manage_match o)
    (SimpleK field_options field_name (o_exact o) (o_all o)) h.

Definition TagPattern (tags : list string) (o : Options) (h : Heap) : Pattern * Heap :=
  SimplePattern (map toUpperCase tags) "tagName" o h.

Definition ClassPattern (classes : list string) (o : Options) (h : Heap) : Pattern * Heap :=
  SimplePattern classes "className" o h.

(** [repeats = null] defaults to [[1]] per child *)
Definition SequencePattern (patterns : list Pattern) (repeats : option (list (list Z)))
    (o : Options) (h : Heap) : Pattern * Heap :=
  let reps := match repeats with Some r => r | None => map (fun _ => [1]) patterns end in
  new_pattern o (o_depth o) (o_absolute_depth o) (o_manage_match o)
    (SequenceK 0 0 (map disable_handling patterns) reps) h.

Definition IgnoredPattern (pattern : Pattern) (o : Options) (h : Heap) : Pattern * Heap :=
  new_pattern o (o_depth o) (o_absolute_depth o) (o_manage_match o)
    (IgnoredK (disable_handling pattern)) h.

Definition AllPattern (patterns : list Pattern) (o : Options) (h : Heap) : Pattern * Heap :=
  new_pattern o (o_depth o) (o_absolute_depth o) (o_manage_match o)
    (AllK (map disable_handling patterns)) h.

(** [AnyPattern], [ExceptPattern] and [PatternTest] take no [depth],
    [absolute_depth] or [manage_match] option: the base defaults apply and
    [manage_match] is [false]. *)
Definition AnyPattern (patterns : list Pattern) (o : Options) (h : Heap) : Pattern * Heap :=
  let '(p, h1) := new_pattern o DefaultDepth DefaultAbsDepth false (AnyK patterns) h in
  let '(w, s) := alloc (heap_store h1) (new_match (pid (pcfg p)) (map (fun q => IMatch (pmatch q)) patterns)) in
  (Pat (set_match (pstate p) (Some w)) (pkind p), {| next_pid := next_pid h1; heap_store := s |}).

(** [new ExceptPattern(pattern)] ([must_match = None]) or
    [new ExceptPattern([pattern, must_match])]. *)
Definition ExceptPattern (pattern : Pattern) (must_match : option Pattern)
    (o : Options) (h : Heap) : Pattern * Heap :=
  new_pattern o DefaultDepth DefaultAbsDepth false
    (ExceptK (disable_handling pattern) must_match) h.

(** ** Annotator *)

(** [Set<PatternMatch>]: insertion order, deduplicated by identity; the
    entries are [pat.match], which is [null] for a pattern without an
    accumulator. *)
Definition opt_eqb (x y : option nat) : bool :=
  match x, y with
  | Some a, Some b => Nat.eqb a b
  | None, None => true
  | _, _ => false
  end.

Definition set_add (x : option nat) (l : list (option nat)) : list (option nat) :=
  if existsb (opt_eqb x) l then l else l ++ [x].

Definition set_delete (x : option nat) (l : list (option nat)) : list (option nat) :=
  filter (fun y => negb (opt_eqb x y)) l.

(** [Array.prototype.indexOf] on the working set, [None] for [-1] *)
Fixpoint list_index (x : option nat) (l : list (option nat)) : option nat :=
  match l with
  | [] => None
  | y :: l' => if opt_eqb x y then Some O else (i <- list_index x l' ;; Some (S i))
  end.

(** The orchestrator's state during one [apply] call: the configured
    patterns (their mutable state), the accumulator arena, the working set,
    and an instrumentation log of every [pat.matches(node, depth)] call:
    the node's path, the pattern's index in [this.patterns], the response. *)
Record AState : Type := mkAState {
  patterns : list Pattern;
  store : Store;
  match_set : list (option nat);
  log : list (path * nat * PatternMatchResponse)
}.

Definition set_patterns (a : AState) (ps : list Pattern) (s : Store) : AState :=
  {| patterns := ps; store := s; match_set := match_set a; log := log a |}.
Definition set_match_set (a : AState) (ws : list (option nat)) : AState :=
  {| patterns := patterns a; store := store a; match_set := ws; log := log a |}.

(** [reset()] of the top-level pattern with object identity [q] (the
    parent of an accumulator in the working set: those are always
    accumulators of the configured top-level patterns). *)
Fixpoint reset_owner (q : nat) (ps : list Pattern) (s : Store)
    : option (list Pattern * Store) :=
  match ps with
  | [] => None
  | p0 :: ps' =>
      if Nat.eqb (pid (pcfg p0)) q then
        let '(p0', s1, _) := reset p0 s in Some (p0' :: ps', s1)
      else
        '(ps2, s2) <- reset_owner q ps' s ;;
        Some (p0 :: ps2, s2)
  end.

(** the [kill] loop of [_handle_match]:
    [kill_match.parent.reset(); matches.delete(kill_match)] *)
Fixpoint kill_following (kills : list (option nat)) (a : AState) : option AState :=
  match kills with
  | [] => Some a
  | km :: rest =>
      id <- km ;; (* kill_match.parent with kill_match === null throws *)
      m <- nth_error (store a) id ;;
      '(ps', s') <- reset_owner (parent m) (patterns a) (store a) ;;
      kill_following rest (set_match_set (set_patterns a ps' s') (set_delete km (match_set a)))
  end.

(** [Annotator._handle_match(core_response, pat, matches, match)], [pat]
    being [this.patterns[j]]; returns [resp], [break_flag] and the state. *)
Definition _handle_match (core_response : PatternMatchResponse) (j : nat)
    (m : option nat) (a : AState) : option (PatternMatchResponse * bool * AState) :=
  match core_response with
  | NonMatching =>
      pat <- nth_error (patterns a) j ;;
      let '(pat', s', _) := reset pat (store a) in
      Some (NonMatching, false,
            set_match_set (set_patterns a (set_nth j pat' (patterns a)) s')
                          (set_delete m (match_set a)))
  | Incomplete =>
      Some (Incomplete, false, set_match_set a (set_add m (match_set a)))
  | Completed | Matching =>
      pat <- nth_error (patterns a) j ;;
      let a1 := set_match_set a (set_add m (match_set a)) in
      '(a2, bf) <-
        if negb (compounds (pcfg pat)) then
          ind <- list_index m (match_set a1) ;;
          a2 <- kill_following (skipn (S ind) (match_set a1)) a1 ;;
          Some (a2, true)
        else Some (a1, false) ;;
      let '(resp, bf') := if terminal (pcfg pat) then (Break, true) else (core_response, bf) in
      pat2 <- nth_error (patterns a2) j ;;
      let '(pat', s', _) := reset pat2 (store a2) in
      Some (resp, bf', set_patterns a2 (set_nth j pat' (patterns a2)) s')
  | Break => Some (Break, true, a)
  | Unapplied => Some (Unapplied, false, a)
  end.

(** [resp = pat.matches(node, depth)] on [this.patterns[j]], logged *)
Definition offer (j : nat) (node : Element) (pth : path) (d : Z) (a : AState)
    : option (PatternMatchResponse * AState) :=
  pat <- nth_error (patterns a) j ;;
  '(r, pat', s') <- matches pat node pth (Some d) (store a) ;;
  Some (r, {| patterns := set_nth j pat' (patterns a); store := s';
              match_set := match_set a; log := log a ++ [(pth, j, r)] |}).

(** one iteration of the loop of [_match_node] *)
Definition match_step (j : nat) (node : Element) (pth : path) (d : Z) (a : AState)
    : option (PatternMatchResponse * bool * AState) :=
  '(resp, a1) <- offer j node pth d a ;;
  m <- nth_error (patterns a1) j ;;
  '(hresp, break_flag, a2) <- _handle_match resp j (pmatch m) a1 ;;
  if resp_eqb hresp Completed then
    (* look-ahead retry on the same node *)
    '(resp2, a3) <- offer j node pth d a2 ;;
    m2 <- nth_error (patterns a3) j ;;
    '(_, break_flag2, a4) <- _handle_match resp2 j (pmatch m2) a3 ;;
    Some (resp2, break_flag || break_flag2, a4)
  else Some (resp, break_flag, a2).

(** the loop [for (let j = 0; j < this.patterns.length; j++)] from [j] *)
Fixpoint match_loop (js : list nat) (node : Element) (pth : path) (d : Z)
    (resp : PatternMatchResponse) (a : AState) : option (PatternMatchResponse * AState) :=
  match js with
  | [] => Some (resp, a)
  | j :: js' =>
      '(resp', break_flag, a') <- match_step j node pth d a ;;
      if break_flag then Some (resp', a') else match_loop js' node pth d resp' a'
  end.

(** [Annotator._match_node(node, matches, depth)] *)
Definition _match_node (node : Element) (pth : path) (d : Z) (a : AState)
    : option (PatternMatchResponse * AState) :=
  match_loop (seq 0 (List.length (patterns a))) node pth d Matching a.

(** the loop [for (let i = 0; i < node_count; i++)] of [_apply_rec] over
    the children [ns] of the node at [pth], [i] the index of the head of
    [ns]; [rec] is the recursive [this._apply_rec(node, matches, max_depth,
    cur_depth + 1)] on the node at the given path. *)
Fixpoint apply_children (rec : Element -> path -> AState -> option AState)
    (pth : path) (cur_depth : Z) (i : nat) (ns : list Element) (a : AState)
    : option AState :=
  match ns with
  | [] => Some a
  | node :: ns' =>
      '(resp, a1) <- _match_node node (pth ++ [i]) cur_depth a ;;
      a2 <- (if resp_eqb resp Break then Some a1 else rec node (pth ++ [i]) a1) ;;
      apply_children rec pth cur_depth (S i) ns' a2
  end.

(** [Annotator._apply_rec(root, matches, max_depth, cur_depth)]; [pth] is
    the path of [root]. *)
Fixpoint _apply_rec (root : Element) (pth : path) (max_depth cur_depth : Z) (a : AState)
    {struct root} : option AState :=
  let '(Elem _ _ nodes) := root in
  if (max_depth <=? 0) || (cur_depth <=? max_depth) then
    apply_children (fun node p a1 => _apply_rec node p max_depth (cur_depth + 1) a1)
      pth cur_depth 0 nodes a
  else Some a.

(** the top-level pattern with identity [q] *)
Fixpoint find_pattern (q : nat) (ps : list Pattern) : option Pattern :=
  match ps with
  | [] => None
  | p0 :: ps' => if Nat.eqb (pid (pcfg p0)) q then Some p0 else find_pattern q ps'
  end.

(** A transform call: the transform of the parent pattern, the identity of
    the accumulator handed to it, and the accumulator itself. *)
Record Invocation : Type := mkInvocation {
  inv_transform : string;
  inv_match : nat;
  inv_value : PatternMatch
}.

(** [match.value.apply()] for each entry of the working set, i.e.
    [this.parent.apply(this)], which calls [this.parent.transform(this)]
    when the transform is not [null]. *)
Fixpoint apply_matches (ws : list (option nat)) (a : AState) : option (list Invocation) :=
  match ws with
  | [] => Some []
  | e :: ws' =>
      id <- e ;; (* null.apply() throws *)
      m <- nth_error (store a) id ;;
      par <- find_pattern (parent m) (patterns a) ;;
      rest <- apply_matches ws' a ;;
      match transform (pcfg par) with
      | Some t => Some ({| inv_transform := t; inv_match := id; inv_value := m |} :: rest)
      | None => Some rest
      end
  end.

Definition initial_state (ps : list Pattern) (s : Store) : AState :=
  {| patterns := ps; store := s; match_set := []; log := [] |}.

(** the traversal of [Annotator.apply(root, max_depth)] *)
Definition traverse (ps : list Pattern) (s : Store) (root : Element) (max_depth : Z)
    : option AState :=
  _apply_rec root [] max_depth 0 (initial_state ps s).

(** [Annotator.apply(root, max_depth)]: the transform calls, in order. *)
Definition apply (ps : list Pattern) (s : Store) (root : Element) (max_depth : Z)
    : option (list Invocation) :=
  a <- traverse ps s root max_depth ;;
  apply_matches (match_set a) a.

(** ** Configurations and trees used below *)

Definition empty_heap : Heap := {| next_pid := 0; heap_store := [] |}.

Definition headings : list string := ["h1"; "h2"; "h3"; "h4"; "h5"]%string.

Definition leaf (t : string) : Element := Elem t "" [].

(** [new SequencePattern([new TagPattern(headings),
      new ExceptPattern(new TagPattern(headings))], [[1, 1], [1, -1]], opts)] *)
Definition section_sequence (o : Options) (h : Heap) : Pattern * Heap :=
  let '(t1, h1) := TagPattern headings tag_defaults h in
  let '(t2, h2) := TagPattern headings tag_defaults h1 in
  let '(e, h3) := ExceptPattern t2 None composite_defaults h2 in
  SequencePattern [t1; e] (Some [[1; 1]; [1; -1]]) o h3.

Definition section_config : list Pattern * Store :=
  let '(sq, h) := section_sequence (with_transform "SectionMaker" sequence_defaults) empty_heap in
  ([sq], heap_store h).

(** the same sequence with [applications: 1] *)
Definition capped_section_config : list Pattern * Store :=
  let '(sq, h) := section_sequence
                    (with_applications 1 (with_transform "SectionMaker" sequence_defaults))
                    empty_heap in
  ([sq], heap_store h).

(** a root whose children are the flat sibling list [h2, p, p, h3, p] *)
Definition flat_root : Element :=
  Elem "DIV" "" [leaf "H2"; leaf "P"; leaf "P"; leaf "H3"; leaf "P"].

Definition item_path (it : Item) : option path :=
  match it with INode p _ => Some p | IMatch _ => None end.

Definition node_paths (m : PatternMatch) : list (option path) := map item_path (nodes m).

Definition invocation_paths (invs : list Invocation) : list (list (option path)) :=
  map (fun i => node_paths (inv_value i)) invs.


(** [new ExceptPattern(new TagPattern(headings))] on its own *)
Definition except_heading : Pattern * Store :=
  let '(t, h1) := TagPattern headings tag_defaults empty_heap in
  let '(e, h2) := ExceptPattern t None composite_defaults h1 in
  (e, heap_store h2).

Definition musnt_of (p : Pattern) : option Pattern :=
  match pkind p with ExceptK q _ => Some q | _ => None end.

Definition response_of (o : option (PatternMatchResponse * Pattern * Store))
    : option PatternMatchResponse :=
  option_map (fun x => fst (fst x)) o.

(** the heading sequence after it took [h2] at depth 1: anchor 1 *)
Definition anchored_section : Pattern * Store :=
  let '(sq, h) := section_sequence sequence_defaults empty_heap in
  match matches sq (leaf "H2") [0; 0]%nat (Some 1) (heap_store h) with
  | Some (_, sq1, s1) => (sq1, s1)
  | None => (sq, heap_store h)
  end.

(** the fresh heading sequence of [section_config] and its store *)
Definition section_config_head : Pattern * Store :=
  (hd (Pat {| cfg := mkConfig 0 0 true false false 0 0 None 0; match_ := None;
              _cur_depth := None; _applied := 0 |} (AllK [])) (fst section_config),
   snd section_config).

(** [except_heading] after it answered [Matching] for a [p] at depth 0 *)
Definition anchored_except : Pattern * Store :=
  match matches (fst except_heading) (leaf "P") [0]%nat (Some 0) (snd except_heading) with
  | Some (_, e1, s1) => (e1, s1)
  | None => except_heading
  end.

(** [s] contains [c] as a substring *)
Definition contains (s c : string) : Prop :=
  exists pre post, s = (pre ++ c ++ post)%string.

(** the comparison of [match_field] for one option *)
Definition satisfies (exact : bool) (cname c : string) : Prop :=
  if exact then cname = c else contains cname c.

(** [new TagPattern(["p"])] *)
Definition tag_p : Pattern * Store :=
  let '(t, h) := TagPattern ["p"%string] tag_defaults empty_heap in (t, heap_store h).

(** the two parts of [except_heading]: its own state and the wrapped pattern *)
Definition except_heading_state : PatternState :=
  Eval vm_compute in pstate (fst except_heading).
Definition except_heading_child : Pattern :=
  Eval vm_compute in match musnt_of (fst except_heading) with
                     | Some q => q
                     | None => fst except_heading
                     end.

(** [new AnyPattern([new TagPattern(["p"])], {transform: T})] *)
Definition any_p_config : list Pattern * Store :=
  let '(t, h1) := TagPattern ["p"%string] tag_defaults empty_heap in
  let '(an, h2) := AnyPattern [t] (with_transform "T" composite_defaults) h1 in
  ([an], heap_store h2).

(** [new TagPattern(["p"], {transform: T})] *)
Definition tag_p_config : list Pattern * Store :=
  let '(t, h1) := TagPattern ["p"%string] (with_transform "T" tag_defaults) empty_heap in
  ([t], heap_store h1).

(** a root with a [p] and a [div] holding a [p] *)
Definition nested_p_root : Element := Elem "DIV" "" [leaf "P"; Elem "DIV" "" [leaf "P"]].

Definition seq_cursor (p : Pattern) : option nat :=
  match pkind p with SequenceK c _ _ _ => Some c | _ => None end.

(** two tag patterns, the first one non-compounding, whose accumulators are
    both in the working set *)
Definition kill_demo : AState :=
  let '(t0, h1) := TagPattern ["h2"%string] (with_compounds false tag_defaults) empty_heap in
  let '(t1, h2) := TagPattern ["p"%string] tag_defaults h1 in
  {| patterns := [t0; t1]; store := heap_store h2; match_set := [pmatch t0; pmatch t1];
     log := [] |}.

(** [new IgnoredPattern(new TagPattern(["pre"]))] followed by
    [new TagPattern(["p"])] *)
Definition pre_config : list Pattern * Store :=
  let '(t, h1) := TagPattern ["pre"%string] tag_defaults empty_heap in
  let '(ig, h2) := IgnoredPattern t ignored_defaults h1 in
  let '(tp, h3) := TagPattern ["p"%string] tag_defaults h2 in
  ([ig; tp], heap_store h3).

(** a [pre] block holding a [p], followed by a [p] *)
Definition pre_root : Element :=
  Elem "DIV" "" [Elem "PRE" "" [leaf "P"]; leaf "P"].

(** ** Proof infrastructure *)

(** The matcher part of [matches] (the [switch] of the subclass), as a
    function of the kind; [matches_eq] shows [matches] runs it. *)
Definition run_matcher (k : Kind Pattern) (el : Element) (pth : path) (d : option Z)
    (s : Store) : option (PatternMatchResponse * Kind Pattern * Store) :=
  match k with
  | SimpleK opts name exact all =>
      r <- match_field el name opts exact all ;;
      Some (r, k, s)
  | SequenceK cur cnt ps reps =>
      '(r, ps', cur', cnt', s1) <-
        seq_go (fun q => matches q el pth d) (List.length ps) reps 0 ps cur cnt s ;;
      Some (r, SequenceK cur' cnt' ps' reps, s1)
  | IgnoredK q =>
      '(r, q', s1) <- matches q el pth None s ;;
      Some (match_ignore r, IgnoredK q', s1)
  | AllK ps =>
      '(r, ps', s1) <- all_go (fun q => matches q el pth d) ps Matching s ;;
      Some (r, AllK ps', s1)
  | AnyK ps =>
      '(r, ps', s1) <- any_go (fun q => matches q el pth d) ps Matching s ;;
      Some (r, AnyK ps', s1)
  | ExceptK q mq =>
      '(r, q', s1) <- matches q el pth d s ;;
      Some (match_execpt r, ExceptK q' mq, s1)
  | TestK None t => None
  | TestK (Some q) t =>
      '(r, q', s1) <- matches q el pth d s ;;
      Some (match_test r (t el), TestK (Some q') t, s1)
  end.

Definition short_circuits (st : PatternState) (d : option Z) : bool :=
  abs_depth_exceeded st d || applications_exhausted st || depth_window_exceeded st d.

(** A property holding of every direct sub-pattern. *)
Definition KindAll (P : Pattern -> Prop) (k : Kind Pattern) : Prop :=
  match k with
  | SimpleK _ _ _ _ => True
  | SequenceK _ _ ps _ => Forall P ps
  | IgnoredK q => P q
  | AllK ps => Forall P ps
  | AnyK ps => Forall P ps
  | ExceptK q mq => P q /\ match mq with Some q' => P q' | None => True end
  | TestK mq _ => match mq with Some q' => P q' | None => True end
  end.

Section PatternInd.
  Variable P : Pattern -> Prop.
  Hypothesis HP : forall st k, KindAll P k -> P (Pat st k).

Fixpoint Pattern_ind' (p : Pattern) : P p :=
    match p as p0 return P p0 with
    | Pat st k =>
        HP st k
          (match k as k0 return KindAll P k0 with
           | SimpleK _ _ _ _ => I
           | SequenceK _ _ ps _ =>
               (fix go (l : list Pattern) : Forall P l :=
                  match l with
                  | [] => Forall_nil P
                  | x :: xs => Forall_cons x (Pattern_ind' x) (go xs)
                  end) ps
           | IgnoredK q => Pattern_ind' q
           | AllK ps =>
               (fix go (l : list Pattern) : Forall P l :=
                  match l with
                  | [] => Forall_nil P
                  | x :: xs => Forall_cons x (Pattern_ind' x) (go xs)
                  end) ps
           | AnyK ps =>
               (fix go (l : list Pattern) : Forall P l :=
                  match l with
                  | [] => Forall_nil P
                  | x :: xs => Forall_cons x (Pattern_ind' x) (go xs)
                  end) ps
           | ExceptK q mq =>
               conj (Pattern_ind' q)
                 (match mq as m0 return match m0 with Some q' => P q' | None => True end with
                  | Some q' => Pattern_ind' q'
                  | None => I
                  end)
           | TestK mq _ =>
               match mq as m0 return match m0 with Some q' => P q' | None => True end with
               | Some q' => Pattern_ind' q'
               | None => I
               end
           end)
    end.
End PatternInd.

(** the accumulators held by a pattern and all its sub-patterns *)
Definition own_ids (st : PatternState) : list nat :=
  match match_ st with Some i => [i] | None => [] end.

Definition kind_ids (f : Pattern -> list nat) (k : Kind Pattern) : list nat :=
  match k with
  | SimpleK _ _ _ _ => []
  | SequenceK _ _ ps _ => flat_map f ps
  | IgnoredK q => f q
  | AllK ps => flat_map f ps
  | AnyK ps => flat_map f ps
  | ExceptK q mq => f q ++ match mq with Some q' => f q' | None => [] end
  | TestK mq _ => match mq with Some q' => f q' | None => [] end
  end.

Fixpoint held_ids (p : Pattern) : list nat :=
  let '(Pat st k) := p in own_ids st ++ kind_ids held_ids k.

(** the store only grows by appending nodes to existing accumulators *)
Definition grows (s s' : Store) : Prop :=
  List.length s' = List.length s /\
  forall id m, nth_error s id = Some m ->
    exists ns, nth_error s' id = Some {| nodes := nodes m ++ ns; complete := complete m;
                                         parent := parent m |}.

(** the frame of a step: the store grows and is unchanged outside [ids] *)
Definition framed (ids : list nat) (s s' : Store) : Prop :=
  grows s s' /\ forall id, ~ In id ids -> nth_error s' id = nth_error s id.

Definition all_incomplete (s : Store) : Prop :=
  forall id m, nth_error s id = Some m -> complete m = false.

(** [p] is a field pattern of kind [k] and configuration [c] that holds a
    live accumulator *)
Definition live_simple (c : PatternConfig) (k : Kind Pattern) (p : Pattern) : Prop :=
  exists st, p = Pat st k /\ cfg st = c /\ match_ st <> None.

(** configuration and application counter agree *)
Definition same_counters (p p' : Pattern) : Prop :=
  pcfg p' = pcfg p /\ _applied (pstate p') = _applied (pstate p).

(** what every [reset()] guarantees: the old accumulator is returned, the
    configuration and the counter are kept, the store is only extended *)
Definition reset_ok (p : Pattern) : Prop :=
  forall s, snd (reset p s) = pmatch p /\ same_counters p (fst (fst (reset p s))) /\
            exists ext, snd (fst (reset p s)) = s ++ ext.

Section ElementInd.
  Variable P : Element -> Prop.
  Hypothesis HE : forall t c ns, Forall P ns -> P (Elem t c ns).

Fixpoint Element_ind' (e : Element) : P e :=
    match e as e0 return P e0 with
    | Elem t c ns =>
        HE t c ns
          ((fix go (l : list Element) : Forall P l :=
              match l with
              | [] => Forall_nil P
              | x :: xs => Forall_cons x (Element_ind' x) (go xs)
              end) ns)
    end.
End ElementInd.

(** the orchestrator state keeps the configurations and never completes an
    accumulator *)
Definition oframe (a a' : AState) : Prop :=
  map pcfg (patterns a') = map pcfg (patterns a) /\
  (all_incomplete (store a) -> all_incomplete (store a')).

(** the output of some [reset()] call *)
Definition reset_out (p : Pattern) : Prop :=
  exists p0 s0, p = fst (fst (reset p0 s0)).

(** the top-level pattern with identity [q] was reset *)
Definition owner_reset (q : nat) (ps : list Pattern) : Prop :=
  exists p, find_pattern q ps = Some p /\ reset_out p.

(** the node at [e] is a strict descendant of the node at [q] *)
Definition extends (q e : path) : Prop := exists x rest, e = q ++ x :: rest.

(** no logged offer is made to a strict descendant of a node for which a
    [Break] was logged *)
Definition no_desc (N : list (path * nat * PatternMatchResponse)) : Prop :=
  forall e1 e2, In e1 N -> In e2 N -> snd e1 = Break -> ~ extends (fst (fst e1)) (fst (fst e2)).

(** [matches q] only touches the accumulators [q] holds *)
Definition matches_framed_prop (q : Pattern) : Prop :=
  forall el pth d s r q' s', matches q el pth d s = Some (r, q', s') -> framed (held_ids q) s s'.

(** [e] was logged at a path below the [i]-th or a later child of [pth] *)
Definition below (pth : path) (i : nat) (e : path * nat * PatternMatchResponse) : Prop :=
  exists x rest, fst (fst e) = pth ++ x :: rest /\ (i <= x)%nat.


(** ** Further parts of the source *)

Definition className (e : Element) : string := let '(Elem _ c _) := e in c.

(** [Array.prototype.slice] on the [nodes] array: a negative index counts
    from the end, indices are clamped to [0, length], an [undefined] end is
    the length. *)
Definition js_rel_index (len x : Z) : Z :=
  if x <? 0 then Z.max (len + x) 0 else Z.min x len.

Definition js_slice {A : Type} (l : list A) (start : Z) (end_ : option Z) : list A :=
  let len := Z.of_nat (List.length l) in
  let k := js_rel_index len start in
  let fin := match end_ with Some e => js_rel_index len e | None => len end in
  firstn (Z.to_nat (fin - k)) (skipn (Z.to_nat k) l).

(** [PatternMatch.slice(start, end)]: [Object.assign] onto a new object of
    the same prototype (same [parent], same [complete]), whose [nodes] is
    the slice; the copy is a new object. *)
Definition slice (s : Store) (id : nat) (start : Z) (end_ : option Z) : option (nat * Store) :=
  m <- nth_error s id ;;
  Some (alloc s {| nodes := js_slice (nodes m) start end_; complete := complete m;
                   parent := parent m |}).

(** an entry of the array [getNodeList] fills: a tree node, or [null] (a
    [null] entry of [nodes] is not [instanceof PatternMatch] and is pushed) *)
Inductive NodeEntry : Type :=
| NNode (p : path) (e : Element)
| NNull.

(** the loop of [PatternMatch._fillNodeList] over [match.nodes]; [rec] is
    the recursive call on a nested accumulator *)
Fixpoint fill_items (rec : nat -> option (list NodeEntry)) (recurse : bool) (its : list Item)
    : option (list NodeEntry) :=
  match its with
  | [] => Some []
  | INode p e :: rest =>
      tl <- fill_items rec recurse rest ;; Some (NNode p e :: tl)
  | IMatch None :: rest =>
      tl <- fill_items rec recurse rest ;; Some (NNull :: tl)
  | IMatch (Some j) :: rest =>
      if recurse then
        hd <- rec j ;; tl <- fill_items rec recurse rest ;; Some (hd ++ tl)
      else fill_items rec recurse rest
  end.

(** [PatternMatch._fillNodeList(match, fill_to, recurse)] on the accumulator
    [id]: the nodes it appends to [fill_to].  [fuel] bounds the depth of the
    recursion; running out is the overflow of the call stack (a nested
    accumulator that contains itself). *)
Fixpoint _fillNodeList (fuel : nat) (s : Store) (id : nat) (recurse : bool)
    : option (list NodeEntry) :=
  match fuel with
  | O => None
  | S fuel' =>
      m <- nth_error s id ;;
      fill_items (fun j => _fillNodeList fuel' s j recurse) recurse (nodes m)
  end.

(** [PatternMatch.getNodeList({recurse})]: a chain of nested accumulators
    without repetition is at most as long as the store *)
Definition getNodeList (s : Store) (id : nat) (recurse : bool) : option (list NodeEntry) :=
  _fillNodeList (List.length s) s id recurse.

(** the [pattern] argument of [PatternTest]: a [Pattern] or an array *)
Inductive PatternArg : Type :=
| PSingle (p : Pattern)
| PArray (ps : list Pattern).

(** [new PatternTest(pattern, test, opts)]: [must_match] is [null] for a
    [Pattern] argument and [pattern[1]] (possibly [undefined]) for an
    array; a [Pattern] there is disabled. *)
Definition PatternTest (pattern : PatternArg) (test : Element -> bool) (o : Options) (h : Heap)
    : Pattern * Heap :=
  let must := match pattern with PSingle _ => None | PArray ps => nth_error ps 1 end in
  new_pattern o DefaultDepth DefaultAbsDepth false (TestK (option_map disable_handling must) test) h.

(** the annotator configured at the top of [src/test/annotate.ts] *)
Definition script_annotator : list Pattern * Store :=
  let '(sec, h1) := section_sequence (with_transform "SectionMaker" sequence_defaults) empty_heap in
  let '(ulpre, h2) := TagPattern ["ul"; "pre"]%string
                        {| o_priority := DefaultPriority; o_compounds := true; o_terminal := true;
                           o_open_ended := false; o_depth := DefaultDepth;
                           o_absolute_depth := DefaultAbsDepth; o_manage_match := true;
                           o_transform := None; o_applications := DefaultApplications;
                           o_exact := true; o_all := false |} h1 in
  let '(p1, h3) := TagPattern ["p"%string] (with_transform "ClassAdder" tag_defaults) h2 in
  let '(p2, h4) := TagPattern ["p"%string] (with_transform "ClassAdder" tag_defaults) h3 in
  let '(inner, h5) := TagPattern ["p"; "a"; "span"]%string tag_defaults h4 in
  let '(sq, h6) := SequencePattern [inner] (Some [[2; -1]])
                     (with_transform "ClassAdder" sequence_defaults) h5 in
  ([sec; ulpre; p1; p2; sq], heap_store h6).

(** a [pre] block holding a [p], then a [p] *)
Definition script_root : Element :=
  Elem "DIV" "" [Elem "PRE" "" [leaf "P"]; leaf "P"].

(** [new AllPattern([new SequencePattern([new TagPattern(["p"])])])] *)
Definition nested_sequence_config : list Pattern * Store :=
  let '(t, h1) := TagPattern ["p"%string] tag_defaults empty_heap in
  let '(sq, h2) := SequencePattern [t] None sequence_defaults h1 in
  let '(al, h3) := AllPattern [sq] (with_transform "T" composite_defaults) h2 in
  ([al], heap_store h3).

Definition two_p_root : Element := Elem "DIV" "" [leaf "P"; leaf "P"].

(** a top-level [new ExceptPattern(new TagPattern(headings))] *)
Definition except_top_config : list Pattern * Store :=
  let '(e, s) := except_heading in ([e], s).

Definition one_p_root : Element := Elem "DIV" "" [leaf "P"].

(** [new AnyPattern([new TagPattern(["p"])])] *)
Definition any_tag_p : Pattern * Store :=
  let '(t, h) := TagPattern ["p"%string] tag_defaults empty_heap in
  let '(p, h2) := AnyPattern [t] composite_defaults h in (p, heap_store h2).

(** a non-compounding [new SequencePattern([new TagPattern(["h2"]),
    new TagPattern(["p"])])] followed by
    [new ExceptPattern(new TagPattern(["h1"]))] *)
Definition kill_null_config : list Pattern * Store :=
  let '(t1, h1) := TagPattern ["h2"%string] tag_defaults empty_heap in
  let '(t2, h2) := TagPattern ["p"%string] tag_defaults h1 in
  let '(sq, h3) := SequencePattern [t1; t2] None (with_compounds false sequence_defaults) h2 in
  let '(t3, h4) := TagPattern ["h1"%string] tag_defaults h3 in
  let '(e, h5) := ExceptPattern t3 None composite_defaults h4 in
  ([sq; e], heap_store h5).

Definition h2_p_root : Element := Elem "DIV" "" [leaf "H2"; leaf "P"].

(** the patterns [ps] were offered in turn, starting from store [s], each
    answering a response satisfying [R]; [ps'] is their new state and [s']
    the store after the last one *)
Inductive offered_all (m : Pattern -> Store -> option (PatternMatchResponse * Pattern * Store))
    (R : PatternMatchResponse -> Prop) : list Pattern -> list Pattern -> Store -> Store -> Prop :=
| offered_nil (s : Store) : offered_all m R [] [] s s
| offered_cons (q q' : Pattern) (r : PatternMatchResponse) (ps ps' : list Pattern) (s s1 s2 : Store) :
    m q s = Some (r, q', s1) -> R r -> offered_all m R ps ps' s1 s2 ->
    offered_all m R (q :: ps) (q' :: ps') s s2.

(** every accumulator of the old store is still there, with the same owner *)
Definition keeps (s s' : Store) : Prop :=
  forall id m, nth_error s id = Some m ->
    exists m', nth_error s' id = Some m' /\ parent m' = parent m.

(** the live accumulator of [p], if any, is in the store and owned by [p]
    ([new PatternMatch(this)]) *)
Definition pat_ok (s : Store) (p : Pattern) : Prop :=
  forall id, pmatch p = Some id ->
    exists m, nth_error s id = Some m /\ parent m = pid (pcfg p).

Definition top_ok (ps : list Pattern) (s : Store) : Prop := Forall (pat_ok s) ps.

Definition top_okb (ps : list Pattern) (s : Store) : bool :=
  forallb (fun p => match pmatch p with
                    | None => true
                    | Some id => match nth_error s id with
                                 | Some m => Nat.eqb (parent m) (pid (pcfg p))
                                 | None => false
                                 end
                    end) ps.

(** every entry of the working set names an accumulator of the store whose
    owner is one of the configured patterns *)
Definition ws_ok (cs : list PatternConfig) (s : Store) (ws : list (option nat)) : Prop :=
  forall id, In (Some id) ws ->
    exists m c, nth_error s id = Some m /\ In c cs /\ pid c = parent m.

Definition inv_ok (a : AState) : Prop :=
  NoDup (match_set a) /\ top_ok (patterns a) (store a) /\
  ws_ok (map pcfg (patterns a)) (store a) (match_set a).

(** the node at path [q] below [e] ([q] lists child indices) *)
Fixpoint subtree_at (e : Element) (q : path) : option Element :=
  match q with
  | [] => Some e
  | i :: q' => let '(Elem _ _ ns) := e in c <- nth_error ns i ;; subtree_at c q'
  end.

(** the node at [pth ++ q] was offered to the first pattern, or a node
    strictly between [pth] and it was answered [Break] *)
Definition covered (L : list (path * nat * PatternMatchResponse)) (pth q : path) : Prop :=
  (exists r, In (pth ++ q, 0%nat, r) L) \/
  (exists q0 x rest j, q = q0 ++ x :: rest /\ q0 <> [] /\ In (pth ++ q0, j, Break) L).
(** ** Theorems *)

(** C1. The heading sequence [[Tag(h1..h5) [1,1], Except(Tag(h1..h5)) [1,-1]]]
    run by the Annotator over the siblings [h2, p, p, h3, p] yields exactly two
    transformed matches, [{h2, p, p}] and [{h3, p}]; on [h3] the sequence first
    answers [Completed] (without taking [h3]) and, re-offered [h3] after its
    reset, answers [Incomplete], taking [h3] into the second match. *)
Theorem section_sequence_rollover :
  option_map invocation_paths (apply (fst section_config) (snd section_config) flat_root (-1))
    = Some [[Some [0%nat]; Some [1%nat]; Some [2%nat]]; [Some [3%nat]; Some [4%nat]]]
  /\ option_map log (traverse (fst section_config) (snd section_config) flat_root (-1))
    = Some [([0%nat], 0%nat, Incomplete); ([1%nat], 0%nat, Incomplete);
            ([2%nat], 0%nat, Incomplete); ([3%nat], 0%nat, Completed);
            ([3%nat], 0%nat, Incomplete); ([4%nat], 0%nat, Incomplete)].
Proof. split; vm_compute; reflexivity. Qed.

Lemma matches_eq (st : PatternState) (k : Kind Pattern) (el : Element) (pth : path)
    (d : option Z) (s : Store) :
  matches (Pat st k) el pth d s =
  if short_circuits st d then Some (Unapplied, Pat st k, s)
  else '(matched, k', s1) <- run_matcher k el pth d s ;;
       '(st', s2) <- record_match st matched el pth d s1 ;;
       Some (matched, Pat st' k', s2).
Proof.
  unfold short_circuits.
  destruct k as [| | | | | |[q|] t]; cbn [matches run_matcher];
    destruct (abs_depth_exceeded st d); destruct (applications_exhausted st);
    destruct (depth_window_exceeded st d); reflexivity.
Qed.

(** C4 (amended). With a relative depth window [w >= 0] and a recorded anchor
    depth [a >= 0], [matches(node, depth)] answers [Unapplied] for every depth
    beyond [a + w], returning the pattern and the store untouched (the
    matcher does not run). *)
Theorem depth_window_upper_bound (p : Pattern) (el : Element) (pth : path)
    (a w dd : Z) (s : Store) :
  depth (pcfg p) = w -> 0 <= w ->
  _cur_depth (pstate p) = Some a -> 0 <= a ->
  a + w < dd ->
  matches p el pth (Some dd) s = Some (Unapplied, p, s).
Proof.
  intros Hw Hw0 Ha Ha0 Hlt. destruct p as [st k]. unfold pcfg, pstate in Hw, Ha; simpl in Hw, Ha.
  rewrite matches_eq.
  assert (Hx : depth_window_exceeded st (Some dd) = true).
  { unfold depth_window_exceeded. rewrite Ha, Hw.
    apply andb_true_iff; split; [apply andb_true_iff; split|]; apply Z.leb_le || apply Z.ltb_lt; lia. }
  unfold short_circuits. rewrite Hx, orb_true_r. reflexivity.
Qed.

Lemma depth_window_upper_bound_witness :
  (depth (pcfg (fst anchored_section)) = 0 /\ 0 <= 0 /\
   _cur_depth (pstate (fst anchored_section)) = Some 1 /\ 0 <= 1 /\ 1 + 0 < 2) /\
  matches (fst anchored_section) (leaf "P") [0; 0; 0]%nat (Some 2) (snd anchored_section)
    = Some (Unapplied, fst anchored_section, snd anchored_section).
Proof.
  split.
  - vm_compute. repeat split; discriminate.
  - apply (depth_window_upper_bound _ _ _ 1 0 2 _); [vm_compute; reflexivity | lia
      | vm_compute; reflexivity | lia | lia].
Defined.

(** C4 (counterexample). The window is only checked from above: the heading
    sequence anchored at depth 1 (window 0) is offered a [p] node at depth 0,
    below the anchor, and its matcher runs and takes the node. *)
Lemma depth_below_anchor_not_unapplied :
  _cur_depth (pstate (fst anchored_section)) = Some 1 /\
  depth (pcfg (fst anchored_section)) = 0 /\
  response_of (matches (fst anchored_section) (leaf "P") [1]%nat (Some 0) (snd anchored_section))
    = Some Incomplete.
Proof. vm_compute. repeat split. Qed.

(** *** List and store lemmas *)

Lemma set_nth_length {A : Type} (n : nat) (x : A) (l : list A) :
  List.length (set_nth n x l) = List.length l.
Proof.
  revert n; induction l as [|y l IH]; intros [|n]; simpl; auto.
Qed.

Lemma nth_error_set_nth_eq {A : Type} (n : nat) (x : A) (l : list A) :
  (n < List.length l)%nat -> nth_error (set_nth n x l) n = Some x.
Proof.
  revert n; induction l as [|y l IH]; intros [|n] H; simpl in *; try lia; auto.
  apply IH; lia.
Qed.

Lemma nth_error_set_nth_neq {A : Type} (n k : nat) (x : A) (l : list A) :
  n <> k -> nth_error (set_nth n x l) k = nth_error l k.
Proof.
  revert n k; induction l as [|y l IH]; intros [|n] [|k] H; simpl; auto; try congruence.
Qed.

Lemma grows_refl (s : Store) : grows s s.
Proof.
  split; auto. intros id m E. exists []. rewrite E, app_nil_r. destruct m; reflexivity.
Qed.

Lemma grows_trans (s1 s2 s3 : Store) : grows s1 s2 -> grows s2 s3 -> grows s1 s3.
Proof.
  intros [L1 G1] [L2 G2]; split; [congruence|].
  intros id m E. destruct (G1 _ _ E) as [ns1 E1]. destruct (G2 _ _ E1) as [ns2 E2].
  exists (ns1 ++ ns2). rewrite E2. simpl. rewrite app_assoc. reflexivity.
Qed.

Lemma framed_refl (A : list nat) (s : Store) : framed A s s.
Proof. split; [apply grows_refl | auto]. Qed.

Lemma framed_trans (A B : list nat) (s1 s2 s3 : Store) :
  framed A s1 s2 -> framed B s2 s3 -> framed (A ++ B) s1 s3.
Proof.
  intros [G1 F1] [G2 F2]; split; [eapply grows_trans; eauto|].
  intros id Hn. rewrite F2, F1; auto; intro; apply Hn; apply in_or_app; auto.
Qed.

Lemma framed_weaken (A B : list nat) (s s' : Store) :
  incl A B -> framed A s s' -> framed B s s'.
Proof. intros I [G F]; split; auto. Qed.

Create HintDb frame.
#[local] Hint Resolve framed_refl incl_appl incl_appr incl_refl : frame.

Lemma store_push_framed (s : Store) (id : nat) (it : Item) (s' : Store) :
  store_push s id it = Some s' -> framed [id] s s'.
Proof.
  unfold store_push, obind. destruct (nth_error s id) as [m|] eqn:E; intros H; [|discriminate].
  inversion H; subst; clear H.
  assert (Hlt : (id < List.length s)%nat) by (apply nth_error_Some; congruence).
  split; [split|].
  - apply set_nth_length.
  - intros id' m' E'. destruct (Nat.eq_dec id id') as [<-|Hne].
    + rewrite E in E'; inversion E'; subst. exists [it]. apply nth_error_set_nth_eq; auto.
    + exists []. rewrite nth_error_set_nth_neq by auto. rewrite E', app_nil_r.
      destruct m'; reflexivity.
  - intros id' Hn. apply nth_error_set_nth_neq. intros <-. apply Hn; left; auto.
Qed.

Lemma record_match_framed (st : PatternState) (r : PatternMatchResponse) (el : Element)
    (pth : path) (d : option Z) (s : Store) (st' : PatternState) (s' : Store) :
  record_match st r el pth d s = Some (st', s') ->
  framed (own_ids st) s s' /\ cfg st' = cfg st /\ match_ st' = match_ st.
Proof.
  unfold record_match, own_ids.
  destruct (resp_eqb r Matching || resp_eqb r Incomplete).
  - destruct (match_ st) as [id|]; simpl; intros H.
    + destruct (store_push s id (INode pth el)) as [s1|] eqn:E; simpl in H; [|discriminate].
      inversion H; subst. split; [eapply store_push_framed; eauto | split; reflexivity].
    + inversion H; subst. split; [apply framed_refl | split; reflexivity].
  - intros H; inversion H; subst. split; [apply framed_refl | split; reflexivity].
Qed.

Lemma seq_go_framed (m : Pattern -> Store -> option (PatternMatchResponse * Pattern * Store))
    (total : nat) (reps : list (list Z)) (ps : list Pattern) :
  Forall (fun q => forall s r q' s', m q s = Some (r, q', s') -> framed (held_ids q) s s') ps ->
  forall i cur cnt s r ps' cur' cnt' s',
    seq_go m total reps i ps cur cnt s = Some (r, ps', cur', cnt', s') ->
    framed (flat_map held_ids ps) s s'.
Proof.
  induction 1 as [|q ps Hq Hps IH]; intros i cur cnt s r ps' cur' cnt' s' E;
    simpl in E; [discriminate|]. simpl flat_map.
  destruct (i <? cur)%nat.
  - destruct (seq_go m total reps (S i) ps cur cnt s) as [[[[[r2 ps2] cur2] cnt2] s2]|] eqn:E2;
      simpl in E; inversion E; subst.
    eapply framed_weaken; [apply incl_appr, incl_refl | eapply IH; eauto].
  - destruct (m q s) as [[[r0 q0] s1]|] eqn:E1; simpl in E; [|discriminate].
    destruct (seq_bounds reps cur) as [[mn mx]|]; simpl in E; [|discriminate].
    pose proof (Hq _ _ _ _ E1) as F1.
    assert (F1' : framed (held_ids q ++ flat_map held_ids ps) s s1)
      by (eapply framed_weaken; [apply incl_appl, incl_refl | exact F1]).
    destruct (resp_eqb r0 NonMatching && js_ge cnt mn).
    + destruct (total <=? S cur)%nat.
      * inversion E; subst; auto.
      * destruct (seq_go m total reps (S i) ps (S cur) 0 s1) as [[[[[r2 ps2] cur2] cnt2] s2]|] eqn:E2;
          simpl in E; inversion E; subst.
        eapply framed_trans; [exact F1 | eapply IH; eauto].
    + destruct (is_match_or_completed r0).
      * destruct (js_pos mx && js_ge (cnt + 1) mx); destruct (total <=? _)%nat;
          inversion E; subst; auto.
      * inversion E; subst; auto.
Qed.

Lemma all_go_framed (m : Pattern -> Store -> option (PatternMatchResponse * Pattern * Store))
    (ps : list Pattern) :
  Forall (fun q => forall s r q' s', m q s = Some (r, q', s') -> framed (held_ids q) s s') ps ->
  forall resp s r ps' s', all_go m ps resp s = Some (r, ps', s') ->
    framed (flat_map held_ids ps) s s'.
Proof.
  induction 1 as [|q ps Hq Hps IH]; intros resp s r ps' s' E; simpl in E.
  - inversion E; subst; auto with frame.
  - simpl flat_map.
    destruct (m q s) as [[[r0 q0] s1]|] eqn:E1; simpl in E; [|discriminate].
    pose proof (Hq _ _ _ _ E1) as F1.
    destruct (negb (resp_eqb r0 Matching)).
    + inversion E; subst. eapply framed_weaken; [apply incl_appl, incl_refl | exact F1].
    + destruct (all_go m ps r0 s1) as [[[r2 ps2] s2]|] eqn:E2; simpl in E; inversion E; subst.
      eapply framed_trans; [exact F1 | eapply IH; eauto].
Qed.

Lemma any_go_framed (m : Pattern -> Store -> option (PatternMatchResponse * Pattern * Store))
    (ps : list Pattern) :
  Forall (fun q => forall s r q' s', m q s = Some (r, q', s') -> framed (held_ids q) s s') ps ->
  forall resp s r ps' s', any_go m ps resp s = Some (r, ps', s') ->
    framed (flat_map held_ids ps) s s'.
Proof.
  induction 1 as [|q ps Hq Hps IH]; intros resp s r ps' s' E; simpl in E.
  - inversion E; subst; auto with frame.
  - simpl flat_map.
    destruct (m q s) as [[[r0 q0] s1]|] eqn:E1; simpl in E; [|discriminate].
    pose proof (Hq _ _ _ _ E1) as F1.
    destruct (negb (resp_eqb r0 NonMatching) && negb (resp_eqb r0 Unapplied)).
    + inversion E; subst. eapply framed_weaken; [apply incl_appl, incl_refl | exact F1].
    + destruct (any_go m ps r0 s1) as [[[r2 ps2] s2]|] eqn:E2; simpl in E; inversion E; subst.
      eapply framed_trans; [exact F1 | eapply IH; eauto].
Qed.

Lemma run_matcher_framed (k : Kind Pattern) (el : Element) (pth : path) (d : option Z)
    (s : Store) (r : PatternMatchResponse) (k' : Kind Pattern) (s1 : Store) :
  KindAll matches_framed_prop k ->
  run_matcher k el pth d s = Some (r, k', s1) -> framed (kind_ids held_ids k) s s1.
Proof.
  unfold matches_framed_prop.
  destruct k as [opts name exact all|cur cnt ps reps|q|ps|ps|q mq|[q|] t]; simpl; intros IH E.
  - destruct (match_field el name opts exact all); simpl in E; inversion E; subst; auto with frame.
  - destruct (seq_go _ _ _ _ _ _ _ _) as [[[[[r2 ps2] cur2] cnt2] s2]|] eqn:E2;
      simpl in E; inversion E; subst.
    eapply seq_go_framed; [|exact E2]. eapply Forall_impl; [|exact IH]. intros q Hq s0 r0 q0 s0' E0.
    eapply Hq; eauto.
  - destruct (matches q el pth None s) as [[[r0 q0] s2]|] eqn:E2; simpl in E; inversion E; subst.
    eapply IH; eauto.
  - destruct (all_go _ ps Matching s) as [[[r2 ps2] s2]|] eqn:E2; simpl in E; inversion E; subst.
    eapply all_go_framed; [|exact E2]. eapply Forall_impl; [|exact IH]. intros q Hq s0 r0 q0 s0' E0.
    eapply Hq; eauto.
  - destruct (any_go _ ps Matching s) as [[[r2 ps2] s2]|] eqn:E2; simpl in E; inversion E; subst.
    eapply any_go_framed; [|exact E2]. eapply Forall_impl; [|exact IH]. intros q Hq s0 r0 q0 s0' E0.
    eapply Hq; eauto.
  - destruct IH as [IHq _].
    destruct (matches q el pth d s) as [[[r0 q0] s2]|] eqn:E2; simpl in E; inversion E; subst.
    eapply framed_weaken; [apply incl_appl, incl_refl | eapply IHq; eauto].
  - destruct (matches q el pth d s) as [[[r0 q0] s2]|] eqn:E2; simpl in E; inversion E; subst.
    eapply IH; eauto.
  - discriminate.
Qed.

Lemma matches_framed (p : Pattern) : matches_framed_prop p.
Proof.
  induction p as [st k IH] using Pattern_ind'. intros el pth d s r p' s' E.
  rewrite matches_eq in E.
  change (held_ids (Pat st k)) with (own_ids st ++ kind_ids held_ids k).
  destruct (short_circuits st d).
  - inversion E; subst; auto with frame.
  - destruct (run_matcher k el pth d s) as [[[r0 k0] s1]|] eqn:E1; simpl in E; [|discriminate].
    destruct (record_match st r0 el pth d s1) as [[st' s2]|] eqn:E2; simpl in E; [|discriminate].
    inversion E; subst.
    apply record_match_framed in E2 as [F2 _].
    pose proof (run_matcher_framed _ _ _ _ _ _ _ _ IH E1) as F1.
    eapply framed_weaken; [|eapply framed_trans; [exact F1 | exact F2]].
    intros x Hx; apply in_app_or in Hx; apply in_or_app; tauto.
Qed.

Lemma KindAll_of (P : Pattern -> Prop) (k : Kind Pattern) : (forall q, P q) -> KindAll P k.
Proof.
  intros H. destruct k as [| | | | |q mq|mq t]; simpl; auto using Forall_forall.
  - apply Forall_forall; auto.
  - apply Forall_forall; auto.
  - apply Forall_forall; auto.
  - destruct mq; auto.
  - destruct mq; auto.
Qed.

Lemma matches_cfg (p : Pattern) (el : Element) (pth : path) (d : option Z) (s : Store)
    (r : PatternMatchResponse) (p' : Pattern) (s' : Store) :
  matches p el pth d s = Some (r, p', s') -> pcfg p' = pcfg p /\ pmatch p' = pmatch p.
Proof.
  destruct p as [st k]. rewrite matches_eq. destruct (short_circuits st d).
  - intros E; inversion E; subst; auto.
  - destruct (run_matcher k el pth d s) as [[[r0 k0] s1]|]; simpl; [|discriminate].
    destruct (record_match st r0 el pth d s1) as [[st' s2]|] eqn:E2; simpl; [|discriminate].
    intros E; inversion E; subst. apply record_match_framed in E2 as [_ [C M]].
    unfold pcfg, pmatch; simpl; auto.
Qed.

(** C5 (amended). A call of [matches(node, depth)] past the short-circuit
    checks, on a pattern whose accumulator is not also held by one of its
    sub-patterns: a [Matching] or [Incomplete] response appends the node to
    the live accumulator (if the pattern has one) and, when no anchor is
    recorded yet ([_cur_depth = -1]), records [depth] as the anchor; only
    [Matching] increments the applications counter; any other response
    leaves the accumulator, the counter and the anchor unchanged. *)
Theorem matches_bookkeeping (p : Pattern) (el : Element) (pth : path) (d : option Z)
    (s : Store) (r : PatternMatchResponse) (p' : Pattern) (s' : Store) :
  short_circuits (pstate p) d = false ->
  (forall id, pmatch p = Some id -> ~ In id (kind_ids held_ids (pkind p))) ->
  matches p el pth d s = Some (r, p', s') ->
  pcfg p' = pcfg p /\ pmatch p' = pmatch p /\
  if resp_eqb r Matching || resp_eqb r Incomplete then
    (_cur_depth (pstate p) = Some (-1) -> _cur_depth (pstate p') = d) /\
    (_cur_depth (pstate p) <> Some (-1) -> _cur_depth (pstate p') = _cur_depth (pstate p)) /\
    _applied (pstate p') = (if resp_eqb r Matching then _applied (pstate p) + 1
                            else _applied (pstate p)) /\
    (forall id, pmatch p = Some id -> exists m, nth_error s id = Some m /\
       nth_error s' id = Some {| nodes := nodes m ++ [INode pth el]; complete := complete m;
                                 parent := parent m |})
  else
    _cur_depth (pstate p') = _cur_depth (pstate p) /\
    _applied (pstate p') = _applied (pstate p) /\
    (forall id, pmatch p = Some id -> nth_error s' id = nth_error s id).
Proof.
  intros Hsc Hown E.
  destruct (matches_cfg _ _ _ _ _ _ _ _ E) as [Hc Hm]. split; [exact Hc | split; [exact Hm|]].
  destruct p as [st k]. unfold pstate, pmatch, pkind in *. cbn in Hsc, Hown, Hm.
  rewrite matches_eq, Hsc in E.
  destruct (run_matcher k el pth d s) as [[[r0 k0] s1]|] eqn:E1; simpl in E; [|discriminate].
  destruct (record_match st r0 el pth d s1) as [[st' s2]|] eqn:E2; simpl in E; [|discriminate].
  inversion E; subst r p' s'; clear E. cbn.
  pose proof (run_matcher_framed _ _ _ _ _ _ _ _ (KindAll_of _ k matches_framed) E1) as [_ F1].
  unfold record_match in E2.
  destruct (resp_eqb r0 Matching || resp_eqb r0 Incomplete) eqn:Hr.
  - destruct (match_ st) as [id|] eqn:Hms; simpl in E2.
    + destruct (store_push s1 id (INode pth el)) as [s3|] eqn:E3; simpl in E2; [|discriminate].
      inversion E2; subst st' s2; clear E2. cbn.
      split; [intros ->; reflexivity|]. split; [destruct (_cur_depth st) as [c|]; [|reflexivity];
        intros Hne; destruct (Z.eqb_spec c (-1)); [subst; congruence | reflexivity]|].
      split; [reflexivity|]. intros id' Hid; inversion Hid; subst id'.
      unfold store_push in E3. destruct (nth_error s1 id) as [m|] eqn:Em; simpl in E3; [|discriminate].
      inversion E3; subst s3. exists m. split.
      * rewrite <- Em. symmetry. apply F1. apply Hown. reflexivity.
      * apply nth_error_set_nth_eq. apply nth_error_Some. congruence.
    + inversion E2; subst st' s2; clear E2. cbn.
      split; [intros ->; reflexivity|]. split; [destruct (_cur_depth st) as [c|]; [|reflexivity];
        intros Hne; destruct (Z.eqb_spec c (-1)); [subst; congruence | reflexivity]|].
      split; [reflexivity|]. intros id' Hid; discriminate.
  - inversion E2; subst st' s2; clear E2.
    split; [reflexivity|]. split; [reflexivity|]. intros id Hid. apply F1, Hown, Hid.
Qed.

Lemma matches_bookkeeping_witness :
  short_circuits (pstate (fst section_config_head)) (Some 0) = false /\
  (forall id, pmatch (fst section_config_head) = Some id ->
     ~ In id (kind_ids held_ids (pkind (fst section_config_head)))) /\
  exists r p' s',
    matches (fst section_config_head) (leaf "H2") [0]%nat (Some 0) (snd section_config_head)
      = Some (r, p', s') /\
    (pcfg p' = pcfg (fst section_config_head) /\ pmatch p' = pmatch (fst section_config_head) /\
     if resp_eqb r Matching || resp_eqb r Incomplete then
       (_cur_depth (pstate (fst section_config_head)) = Some (-1) -> _cur_depth (pstate p') = Some 0) /\
       (_cur_depth (pstate (fst section_config_head)) <> Some (-1) ->
          _cur_depth (pstate p') = _cur_depth (pstate (fst section_config_head))) /\
       _applied (pstate p') = (if resp_eqb r Matching then _applied (pstate (fst section_config_head)) + 1
                               else _applied (pstate (fst section_config_head))) /\
       (forall id, pmatch (fst section_config_head) = Some id -> exists m,
          nth_error (snd section_config_head) id = Some m /\
          nth_error s' id = Some {| nodes := nodes m ++ [INode [0]%nat (leaf "H2")];
                                    complete := complete m; parent := parent m |})
     else
       _cur_depth (pstate p') = _cur_depth (pstate (fst section_config_head)) /\
       _applied (pstate p') = _applied (pstate (fst section_config_head)) /\
       (forall id, pmatch (fst section_config_head) = Some id ->
          nth_error s' id = nth_error (snd section_config_head) id)).
Proof.
  assert (Hsc : short_circuits (pstate (fst section_config_head)) (Some 0) = false)
    by (vm_compute; reflexivity).
  assert (Hown : forall id, pmatch (fst section_config_head) = Some id ->
     ~ In id (kind_ids held_ids (pkind (fst section_config_head))))
    by (vm_compute; intros id Hid; inversion Hid; subst; intros []).
  split; [exact Hsc|]. split; [exact Hown|].
  destruct (matches (fst section_config_head) (leaf "H2") [0]%nat (Some 0) (snd section_config_head))
    as [[[r p'] s']|] eqn:E.
  - exists r, p', s'. split; [reflexivity|].
    exact (matches_bookkeeping _ _ _ _ _ _ _ _ Hsc Hown E).
  - vm_compute in E. discriminate.
Defined.

(** C5 (counterexample). An [Incomplete] response also records the anchor:
    the fresh heading sequence, offered [h2] at depth 0, answers [Incomplete]
    and its anchor goes from [-1] to [0]. *)
Lemma incomplete_records_anchor :
  _cur_depth (pstate (fst section_config_head)) = Some (-1) /\
  option_map (fun x => (fst (fst x), _cur_depth (pstate (snd (fst x)))))
    (matches (fst section_config_head) (leaf "H2") [0]%nat (Some 0) (snd section_config_head))
    = Some (Incomplete, Some 0).
Proof. vm_compute. split; reflexivity. Qed.

(** C7 (amended). [Except(P).matches(node, depth)] either short-circuits on
    its own checks (depth ceiling, application cap, depth window), returning
    [Unapplied] without consulting [P], or maps [P]'s response at the same
    node and depth: [Matching]/[Completed] to [NonMatching], [NonMatching] to
    [Matching], anything else unchanged; so it reports [Matching] exactly when
    [P] reports [NonMatching]. *)
Theorem except_negation (st : PatternState) (q : Pattern) (mq : option Pattern)
    (el : Element) (pth : path) (d : option Z) (s : Store)
    (r : PatternMatchResponse) (p' : Pattern) (s' : Store) :
  matches (Pat st (ExceptK q mq)) el pth d s = Some (r, p', s') ->
  (short_circuits st d = true /\ r = Unapplied /\ p' = Pat st (ExceptK q mq) /\ s' = s) \/
  (short_circuits st d = false /\
   exists rq q' s1, matches q el pth d s = Some (rq, q', s1) /\
     ((rq = Matching \/ rq = Completed) -> r = NonMatching) /\
     (rq = NonMatching -> r = Matching) /\
     (rq <> Matching -> rq <> Completed -> rq <> NonMatching -> r = rq) /\
     (r = Matching <-> rq = NonMatching)).
Proof.
  rewrite matches_eq. destruct (short_circuits st d) eqn:Hsc.
  - intros E; inversion E; subst. left; auto.
  - intros E. right. split; [reflexivity|]. cbn [run_matcher] in E.
    destruct (matches q el pth d s) as [[[rq q'] s1]|] eqn:Eq; simpl in E; [|discriminate E].
    destruct (record_match st (match_execpt rq) el pth d s1) as [[st' s2]|];
      simpl in E; [|discriminate E].
    inversion E; subst.
    exists rq, q', s1. split; [reflexivity|].
    destruct rq; simpl; repeat split; intros; try congruence; try tauto;
      try (destruct H; discriminate).
Qed.

Lemma except_negation_witness :
  Pat except_heading_state (ExceptK except_heading_child None) = fst except_heading /\
  exists r p' s',
    matches (Pat except_heading_state (ExceptK except_heading_child None)) (leaf "P") [0]%nat
      (Some 0) (snd except_heading) = Some (r, p', s') /\
    ((short_circuits except_heading_state (Some 0) = true /\ r = Unapplied /\
      p' = Pat except_heading_state (ExceptK except_heading_child None) /\ s' = snd except_heading) \/
     (short_circuits except_heading_state (Some 0) = false /\
      exists rq q' s1,
        matches except_heading_child (leaf "P") [0]%nat (Some 0) (snd except_heading)
          = Some (rq, q', s1) /\
        ((rq = Matching \/ rq = Completed) -> r = NonMatching) /\
        (rq = NonMatching -> r = Matching) /\
        (rq <> Matching -> rq <> Completed -> rq <> NonMatching -> r = rq) /\
        (r = Matching <-> rq = NonMatching))).
Proof.
  split; [vm_compute; reflexivity|].
  destruct (matches (Pat except_heading_state (ExceptK except_heading_child None)) (leaf "P")
              [0]%nat (Some 0) (snd except_heading)) as [[[r p'] s']|] eqn:E.
  - exists r, p', s'. split; [reflexivity|].
    exact (except_negation _ _ _ _ _ _ _ _ _ _ E).
  - vm_compute in E. discriminate.
Defined.

(** C7 (counterexample). [Except(Tag(h1..h5))], anchored at depth 0 by a
    first [Matching] (its default depth window is 0), is offered a [p] at
    depth 1: it answers [Unapplied] although the wrapped pattern answers
    [NonMatching] there. *)
Lemma except_short_circuits_before_negation :
  response_of (matches (fst anchored_except) (leaf "P") [0; 0]%nat (Some 1) (snd anchored_except))
    = Some Unapplied /\
  option_map (fun q => response_of (matches q (leaf "P") [0; 0]%nat (Some 1) (snd anchored_except)))
    (musnt_of (fst anchored_except)) = Some (Some NonMatching).
Proof. vm_compute. split; reflexivity. Qed.

(** C6 (code bug). The heading sequence of C1 with [applications: 1]: its
    first match ends with [Completed] on [h3], which [Pattern.matches] does
    not count as an application (only [Matching] increments [_applied]), so
    the counter stays 0, the look-ahead retry on [h3] answers [Incomplete]
    instead of [Unapplied], and the traversal hands two matches to the
    transform. *)
Theorem capped_sequence_reapplies :
  map (fun p => applications (pcfg p)) (fst capped_section_config) = [1] /\
  option_map (fun a => (log a, map (fun p => _applied (pstate p)) (patterns a)))
    (traverse (fst capped_section_config) (snd capped_section_config) flat_root 0)
  = Some ([([0]%nat, 0%nat, Incomplete); ([1]%nat, 0%nat, Incomplete);
           ([2]%nat, 0%nat, Incomplete); ([3]%nat, 0%nat, Completed);
           ([3]%nat, 0%nat, Incomplete); ([4]%nat, 0%nat, Incomplete)], [0]) /\
  option_map invocation_paths
    (apply (fst capped_section_config) (snd capped_section_config) flat_root 0)
  = Some [[Some [0%nat]; Some [1%nat]; Some [2%nat]]; [Some [3%nat]; Some [4%nat]]].
Proof. vm_compute. repeat split. Qed.

(** *** Field comparison lemmas *)

Lemma prefix_app (c s : string) :
  String.prefix c s = true <-> exists post, s = (c ++ post)%string.
Proof.
  revert s; induction c as [|a c IH]; intros s; split.
  - intros _. exists s. reflexivity.
  - intros _. destruct s; reflexivity.
  - destruct s as [|b s]; simpl; [discriminate|].
    destruct (ascii_dec a b) as [<-|]; [|discriminate].
    intros H. apply IH in H. destruct H as [post ->]. exists post. reflexivity.
  - intros [post E]. destruct s as [|b s]; simpl in E; [discriminate|].
    injection E as Eb E. subst b. simpl. destruct (ascii_dec a a) as [_|n]; [|congruence].
    apply IH. exists post. exact E.
Qed.

Lemma contains_empty (c : string) :
  contains EmptyString c <-> String.prefix c EmptyString = true.
Proof.
  split.
  - intros [pre [post E]]. destruct pre; [|discriminate]. simpl in E.
    destruct c; [reflexivity|discriminate].
  - intros H. destruct c; [|discriminate]. exists EmptyString, EmptyString. reflexivity.
Qed.

Lemma contains_cons (a : ascii) (s c : string) :
  contains (String a s) c <-> String.prefix c (String a s) = true \/ contains s c.
Proof.
  split.
  - intros [pre [post E]]. destruct pre as [|b pre].
    + left. apply prefix_app. exists post. exact E.
    + right. simpl in E. injection E as _ E. exists pre, post. exact E.
  - intros [H | [pre [post E]]].
    + apply prefix_app in H. destruct H as [post E]. exists EmptyString, post. exact E.
    + exists (String a pre), post. simpl. rewrite E. reflexivity.
Qed.

Lemma indexOf_from_contains (s c : string) (i : Z) :
  0 <= i -> (indexOf_from s c i =? -1) = false <-> contains s c.
Proof.
  revert i; induction s as [|a s IH]; intros i Hi; cbn [indexOf_from].
  - rewrite contains_empty. destruct (String.prefix c EmptyString).
    + split; intros _; [reflexivity|]. apply Z.eqb_neq. lia.
    + split; intros H; discriminate H.
  - rewrite contains_cons. destruct (String.prefix c (String a s)).
    + split; intros _; [left; reflexivity|]. apply Z.eqb_neq. lia.
    + rewrite (IH (i + 1)) by lia. split; [intros H; right; exact H|].
      intros [H|H]; [discriminate H|exact H].
Qed.

Lemma satisfies_dec (exact : bool) (cn c : string) :
  (if exact then js_str_eq (Some cn) c else negb (indexOf cn c =? -1)) = true
  <-> satisfies exact cn c.
Proof.
  destruct exact; simpl.
  - apply String.eqb_eq.
  - unfold indexOf. rewrite <- (indexOf_from_contains cn c 0) by lia.
    destruct (indexOf_from cn c 0 =? -1); simpl; split; congruence.
Qed.

Lemma match_any_options_spec (cn : string) (opts : list string) (exact : bool) :
  (match_any_options (Some cn) opts exact = Some Matching /\ Exists (satisfies exact cn) opts) \/
  (match_any_options (Some cn) opts exact = Some NonMatching /\
   ~ Exists (satisfies exact cn) opts).
Proof.
  induction opts as [|c rest IH]; cbn [match_any_options].
  - right. split; [reflexivity|]. rewrite Exists_nil. tauto.
  - pose proof (satisfies_dec exact cn c) as D. rewrite Exists_cons.
    destruct exact; cbn [negb obind] in *.
    + destruct (js_str_eq (Some cn) c).
      * left. split; [reflexivity|]. left. apply D. reflexivity.
      * destruct IH as [[H1 H2]|[H1 H2]]; [left|right]; split; auto.
        intros [H|H]; [apply D in H; discriminate H|tauto].
    + destruct (indexOf cn c =? -1); simpl in D.
      * destruct IH as [[H1 H2]|[H1 H2]]; [left|right]; split; auto.
        intros [H|H]; [apply D in H; discriminate H|tauto].
      * left. split; [reflexivity|]. left. apply D. reflexivity.
Qed.

Lemma match_all_options_spec (cn : string) (opts : list string) (exact : bool) :
  (match_all_options (Some cn) opts exact = Some Matching /\ Forall (satisfies exact cn) opts) \/
  (match_all_options (Some cn) opts exact = Some NonMatching /\
   ~ Forall (satisfies exact cn) opts).
Proof.
  induction opts as [|c rest IH]; cbn [match_all_options].
  - left. split; [reflexivity|]. constructor.
  - pose proof (satisfies_dec exact cn c) as D. rewrite Forall_cons_iff.
    destruct exact; cbn [negb obind] in *.
    + destruct (js_str_eq (Some cn) c); simpl.
      * destruct IH as [[H1 H2]|[H1 H2]]; [left|right]; split; auto.
        -- split; auto. apply D. reflexivity.
        -- intros [_ H]. tauto.
      * right. split; [reflexivity|]. intros [H _]. apply D in H. discriminate H.
    + destruct (indexOf cn c =? -1); simpl in D.
      * right. split; [reflexivity|]. intros [H _]. apply D in H. discriminate H.
      * destruct IH as [[H1 H2]|[H1 H2]]; [left|right]; split; auto.
        -- split; auto. apply D. reflexivity.
        -- intros [_ H]. tauto.
Qed.

(** *** Resetting field patterns *)

Lemma nth_error_snoc {A : Type} (l : list A) (x : A) :
  nth_error (l ++ [x]) (List.length l) = Some x.
Proof. rewrite nth_error_app2 by lia. rewrite Nat.sub_diag. reflexivity. Qed.

Lemma reset_simple (st : PatternState) (o : list string) (n : string) (e al : bool)
    (s : Store) (id : nat) :
  match_ st = Some id ->
  reset (Pat st (SimpleK o n e al)) s =
  (Pat {| cfg := cfg st; match_ := Some (List.length s); _cur_depth := Some (-1);
          _applied := _applied st |} (SimpleK o n e al),
   s ++ [new_match (pid (cfg st)) []], Some id).
Proof. intros H. cbn [reset]. unfold base_reset. rewrite H. reflexivity. Qed.

Lemma reset_live_simple (c : PatternConfig) (o : list string) (n : string) (e al : bool)
    (p : Pattern) (s : Store) :
  live_simple c (SimpleK o n e al) p -> live_simple c (SimpleK o n e al) (fst (fst (reset p s))).
Proof.
  intros [st [-> [Hc Hm]]]. destruct (match_ st) as [id|] eqn:E; [|congruence].
  rewrite (reset_simple _ _ _ _ _ _ _ E). simpl.
  eexists; split; [reflexivity|]. split; [exact Hc|discriminate].
Qed.

Lemma reset_owner_live (c : PatternConfig) (o : list string) (n : string) (e al : bool)
    (q : nat) (ps : list Pattern) (s : Store) (ps' : list Pattern) (s' : Store) (j : nat) :
  reset_owner q ps s = Some (ps', s') ->
  (exists p, nth_error ps j = Some p /\ live_simple c (SimpleK o n e al) p) ->
  exists p, nth_error ps' j = Some p /\ live_simple c (SimpleK o n e al) p.
Proof.
  revert j ps' s'; induction ps as [|p0 ps IH]; intros j ps' s' H Hj; cbn [reset_owner] in H;
    [discriminate H|].
  destruct (Nat.eqb (pid (pcfg p0)) q).
  - destruct (reset p0 s) as [[p0' s1] old] eqn:R. injection H as <- <-.
    destruct j as [|j]; simpl in *; [|exact Hj].
    destruct Hj as [p [Ep Hp]]. injection Ep as <-. exists p0'. split; [reflexivity|].
    pose proof (reset_live_simple c o n e al p0 s Hp) as L. rewrite R in L. exact L.
  - destruct (reset_owner q ps s) as [[ps2 s2]|] eqn:R; cbn [obind] in H; [|discriminate H].
    injection H as <- <-. destruct j as [|j]; simpl in *; [exact Hj|].
    eapply IH; eauto.
Qed.

Lemma kill_following_live (c : PatternConfig) (o : list string) (n : string) (e al : bool)
    (kills : list (option nat)) (a a' : AState) (j : nat) :
  kill_following kills a = Some a' ->
  (exists p, nth_error (patterns a) j = Some p /\ live_simple c (SimpleK o n e al) p) ->
  exists p, nth_error (patterns a') j = Some p /\ live_simple c (SimpleK o n e al) p.
Proof.
  revert a; induction kills as [|km rest IH]; intros a H Hj; cbn [kill_following] in H.
  - injection H as <-. exact Hj.
  - destruct km as [id|]; cbn [obind] in H; [|discriminate H].
    destruct (nth_error (store a) id) as [m|]; cbn [obind] in H; [|discriminate H].
    destruct (reset_owner (parent m) (patterns a) (store a)) as [[ps' s']|] eqn:R;
      cbn [obind] in H; [|discriminate H].
    apply (IH _ H). simpl. eapply reset_owner_live; eauto.
Qed.

Lemma handle_reset_simple (j : nat) (pat : Pattern) (ps : list Pattern) (s : Store)
    (c : PatternConfig) (o : list string) (n : string) (e al : bool) :
  nth_error ps j = Some pat -> live_simple c (SimpleK o n e al) pat ->
  exists st' id,
    nth_error (set_nth j (fst (fst (reset pat s))) ps) j = Some (Pat st' (SimpleK o n e al)) /\
    cfg st' = c /\ match_ st' = Some id /\
    nth_error (snd (fst (reset pat s))) id = Some (new_match (pid c) []).
Proof.
  intros Hj [st [-> [Hc Hm]]]. destruct (match_ st) as [id0|] eqn:E; [|congruence].
  rewrite (reset_simple _ _ _ _ _ _ _ E). simpl.
  eexists _, (List.length s). split.
  - apply nth_error_set_nth_eq. apply nth_error_Some. congruence.
  - simpl. split; [exact Hc|split; [reflexivity|]]. rewrite nth_error_snoc, Hc. reflexivity.
Qed.

Lemma handle_match_fresh_field (r : PatternMatchResponse) (j : nat) (m : option nat) (a : AState)
    (r' : PatternMatchResponse) (bf : bool) (a' : AState)
    (c : PatternConfig) (o : list string) (n : string) (e al : bool) :
  (r = Matching \/ r = NonMatching) ->
  (exists p, nth_error (patterns a) j = Some p /\ live_simple c (SimpleK o n e al) p) ->
  _handle_match r j m a = Some (r', bf, a') ->
  exists st' id, nth_error (patterns a') j = Some (Pat st' (SimpleK o n e al)) /\
    cfg st' = c /\ match_ st' = Some id /\ nth_error (store a') id = Some (new_match (pid c) []).
Proof.
  intros Hr [p [Hp Hl]] H.
  destruct Hr as [-> | ->]; cbn [_handle_match] in H; rewrite Hp in H; cbn [obind] in H.
  - assert (K : exists a2 bf0, (exists p2, nth_error (patterns a2) j = Some p2 /\
                  live_simple c (SimpleK o n e al) p2) /\
              (let '(resp, bf') := if terminal (pcfg p) then (Break, true) else (Matching, bf0) in
               pat2 <- nth_error (patterns a2) j ;;
               let '(pat', s', _) := reset pat2 (store a2) in
               Some (resp, bf', set_patterns a2 (set_nth j pat' (patterns a2)) s'))
              = Some (r', bf, a')).
    { destruct (negb (compounds (pcfg p))); cbn [obind] in H.
      - destruct (list_index m (match_set (set_match_set a (set_add m (match_set a)))))
          as [ind|]; cbn [obind] in H; [|discriminate H].
        destruct (kill_following (skipn (S ind) (match_set (set_match_set a (set_add m (match_set a)))))
                    (set_match_set a (set_add m (match_set a)))) as [a2|] eqn:K;
          cbn [obind] in H; [|discriminate H].
        exists a2, true. split; [|exact H].
        eapply kill_following_live; [exact K|]. exists p. split; [exact Hp|exact Hl].
      - eexists _, false. split; [|exact H]. exists p. split; [exact Hp|exact Hl]. }
    clear H. destruct K as [a2 [bf0 [[p2 [Hp2 Hl2]] H]]].
    destruct (if terminal (pcfg p) then (Break, true) else (Matching, bf0)) as [resp bf1].
    rewrite Hp2 in H. cbn [obind] in H.
    destruct (handle_reset_simple j p2 (patterns a2) (store a2) c o n e al Hp2 Hl2)
      as [st' [id [E1 [E2 [E3 E4]]]]].
    destruct (reset p2 (store a2)) as [[pat' s'] old]. injection H as _ _ <-.
    exists st', id. simpl in *. auto.
  - destruct (handle_reset_simple j p (patterns a) (store a) c o n e al Hp Hl)
      as [st' [id [E1 [E2 [E3 E4]]]]].
    destruct (reset p (store a)) as [[pat' s'] old]. injection H as _ _ <-.
    exists st', id. simpl in *. auto.
Qed.

(** *** C8 *)

(** C8 (amended). (1) For a node that has the compared field (value [cn]),
    [match_field] answers [Matching] or [NonMatching], and [Matching]
    exactly when some option satisfies the comparison (substring
    containment, or equality when [exact]) under [any], resp. every option
    satisfies it under [all]. (2) [new TagPattern(["p"])] is the exact,
    [any] field pattern over [tagName] with the single option ["P"] (the
    options are upper-cased, the node's tag is not), so it reports
    [Matching] exactly for the tag ["P"] and [NonMatching] for every other
    tag, ["p"] included. (3) After the orchestrator handles [Matching] or
    [NonMatching] from a field pattern holding an accumulator, that pattern
    holds a fresh accumulator with no nodes. *)
Theorem field_pattern_quantifiers :
  (forall (el : Element) (name : string) (opts : list string) (exact all : bool) (cn : string),
     field_of el name = Some cn ->
     exists r, match_field el name opts exact all = Some r /\
       (r = Matching \/ r = NonMatching) /\
       (r = Matching <-> (if all then Forall (satisfies exact cn) opts
                          else Exists (satisfies exact cn) opts))) /\
  (exists st, fst tag_p = Pat st (SimpleK ["P"%string] "tagName" true false) /\
              match_ st <> None) /\
  (forall el : Element, match_field el "tagName" ["P"%string] true false =
     Some (if String.eqb (tagName el) "P" then Matching else NonMatching)) /\
  (forall (r : PatternMatchResponse) (j : nat) (m : option nat) (a : AState)
     (r' : PatternMatchResponse) (bf : bool) (a' : AState)
     (c : PatternConfig) (o : list string) (n : string) (e al : bool),
   (r = Matching \/ r = NonMatching) ->
   (exists p, nth_error (patterns a) j = Some p /\ live_simple c (SimpleK o n e al) p) ->
   _handle_match r j m a = Some (r', bf, a') ->
   exists st' id, nth_error (patterns a') j = Some (Pat st' (SimpleK o n e al)) /\
     cfg st' = c /\ match_ st' = Some id /\ nth_error (store a') id = Some (new_match (pid c) [])).
Proof.
  split; [|split; [|split]].
  - intros el name opts exact all cn Hf. unfold match_field. rewrite Hf.
    destruct all; cbn [negb].
    + destruct (match_all_options_spec cn opts exact) as [[H1 H2]|[H1 H2]]; rewrite H1;
        eexists; (split; [reflexivity|]).
      * split; [left; reflexivity|]. split; intros; auto.
      * split; [right; reflexivity|]. split; intros H; [discriminate H|contradiction].
    + destruct (match_any_options_spec cn opts exact) as [[H1 H2]|[H1 H2]]; rewrite H1;
        eexists; (split; [reflexivity|]).
      * split; [left; reflexivity|]. split; intros; auto.
      * split; [right; reflexivity|]. split; intros H; [discriminate H|contradiction].
  - eexists. vm_compute. split; [reflexivity|discriminate].
  - intros [t cl ch]. unfold match_field. simpl. destruct (String.eqb t "P"); reflexivity.
  - exact handle_match_fresh_field.
Qed.

Lemma field_pattern_quantifiers_witness :
  field_of (leaf "P") "tagName" = Some "P"%string /\
  (exists r, match_field (leaf "P") "tagName" ["P"%string] true false = Some r /\
     (r = Matching \/ r = NonMatching) /\
     (r = Matching <-> Exists (satisfies true "P") ["P"%string])) /\
  (exists a', _handle_match Matching 0 (pmatch (fst tag_p))
                (initial_state [fst tag_p] (snd tag_p)) = Some (Matching, false, a') /\
     exists st' id,
       nth_error (patterns a') 0 = Some (Pat st' (SimpleK ["P"%string] "tagName" true false)) /\
       cfg st' = pcfg (fst tag_p) /\ match_ st' = Some id /\
       nth_error (store a') id = Some (new_match (pid (pcfg (fst tag_p))) [])).
Proof.
  split; [reflexivity|]. split.
  - exact (proj1 field_pattern_quantifiers (leaf "P") "tagName"%string ["P"%string] true false
             "P"%string eq_refl).
  - destruct (_handle_match Matching 0 (pmatch (fst tag_p)) (initial_state [fst tag_p] (snd tag_p)))
      as [[[r' bf] a']|] eqn:E.
    + pose proof E as E'. vm_compute in E'. injection E' as <- <- _.
      exists a'. split; [reflexivity|].
      apply (proj2 (proj2 (proj2 field_pattern_quantifiers)) Matching 0%nat (pmatch (fst tag_p))
               (initial_state [fst tag_p] (snd tag_p)) Matching false a').
      * left. reflexivity.
      * exists (fst tag_p). split; [reflexivity|].
        exists (pstate (fst tag_p)). vm_compute. split; [reflexivity|split; [reflexivity|discriminate]].
      * exact E.
    + vm_compute in E. discriminate E.
Defined.

(** C8 (counterexample). [new TagPattern(["p"])] answers [NonMatching] for
    a node with the lower-case tag ["p"] and [Matching] for ["P"]. *)
Lemma tag_p_case_sensitive :
  response_of (matches (fst tag_p) (leaf "p") [0]%nat (Some 0) (snd tag_p)) = Some NonMatching /\
  response_of (matches (fst tag_p) (leaf "P") [0]%nat (Some 0) (snd tag_p)) = Some Matching.
Proof. vm_compute. split; reflexivity. Qed.

(** *** C9 *)

Lemma reset_each_ok (ps : list Pattern) (s : Store) :
  Forall reset_ok ps ->
  Forall2 same_counters ps (fst (reset_each reset ps s)) /\
  exists ext, snd (reset_each reset ps s) = s ++ ext.
Proof.
  revert s; induction ps as [|p0 ps IH]; intros s H; cbn [reset_each].
  - split; [constructor|]. exists []. rewrite app_nil_r. reflexivity.
  - inversion H as [|x l H0 H1]; subst.
    destruct (H0 s) as [_ [C0 [e0 E0]]].
    destruct (reset p0 s) as [[p0' s1] o1]. simpl in C0, E0.
    destruct (IH s1 H1) as [C1 [e1 E1]].
    destruct (reset_each reset ps s1) as [ps2 s2]. simpl in *.
    split; [constructor; auto|]. exists (e0 ++ e1). rewrite E1, E0, app_assoc. reflexivity.
Qed.

Lemma reset_ok_all (p : Pattern) : reset_ok p.
Proof.
  induction p as [st k IH] using Pattern_ind'.
  intros s. destruct k as [| c n ps reps | | | ps | |]; cbn [reset];
    try (unfold base_reset, pmatch, same_counters, pcfg, pstate; destruct (match_ st);
         simpl; (split; [reflexivity|]); (split; [split; reflexivity|]);
         first [exists [new_match (pid (cfg st)) []]; reflexivity
               | exists []; rewrite app_nil_r; reflexivity]).
  cbn [KindAll] in IH. destruct (reset_each_ok ps s IH) as [_ [e E]].
  destruct (reset_each reset ps s) as [ps' s1]. simpl in E |- *.
  split; [reflexivity|]. split; [split; reflexivity|].
  exists (e ++ [new_match (pid (cfg st)) (map (fun q => IMatch (pmatch q)) ps')]).
  rewrite E, app_assoc. reflexivity.
Qed.

(** C9 (code bug). [Pattern.reset] clears the anchor depth, and so does
    [SequencePattern.reset] through [super.reset()]; [AnyPattern.reset]
    does not call [super.reset()], so an [AnyPattern] keeps the anchor
    depth of its first match after every reset.  With the default depth
    window 0, an [AnyPattern([TagPattern(["p"])])] that matched a [p] at
    depth 0 answers [Unapplied] to a [p] nested one level deeper, and only
    one match is transformed, where the bare [TagPattern(["p"])] (whose
    reset clears the anchor) transforms both. *)
Theorem any_reset_keeps_anchor :
  (forall st k s, _cur_depth (pstate (fst (fst (reset (Pat st k) s)))) =
                  match k with AnyK _ => _cur_depth st | _ => Some (-1) end) /\
  (option_map (fun a => (log a, map (fun p => _cur_depth (pstate p)) (patterns a)))
    (traverse (fst any_p_config) (snd any_p_config) nested_p_root 0)
  = Some ([([0]%nat, 0%nat, Matching); ([1]%nat, 0%nat, NonMatching);
           ([1; 0]%nat, 0%nat, Unapplied)], [Some 0])) /\
  (option_map invocation_paths (apply (fst any_p_config) (snd any_p_config) nested_p_root 0)
   = Some [[None; Some [0%nat]]]) /\
  (option_map log (traverse (fst tag_p_config) (snd tag_p_config) nested_p_root 0)
   = Some [([0]%nat, 0%nat, Matching); ([1]%nat, 0%nat, NonMatching);
           ([1; 0]%nat, 0%nat, Matching)]) /\
  (option_map invocation_paths (apply (fst tag_p_config) (snd tag_p_config) nested_p_root 0)
   = Some [[Some [0%nat]]; [Some [1; 0]%nat]]).
Proof.
  split.
  - intros st k s. destruct k as [| c n ps reps | | | ps | |]; cbn [reset];
      try (unfold base_reset; destruct (match_ st); reflexivity).
    destruct (reset_each reset ps s) as [ps' s1]. reflexivity.
  - vm_compute. repeat split.
Qed.

(** *** Orchestrator lemmas *)

Lemma all_incomplete_snoc (s : Store) (m : PatternMatch) :
  all_incomplete s -> complete m = false -> all_incomplete (s ++ [m]).
Proof.
  intros H Hm id m' E. destruct (Nat.lt_ge_cases id (List.length s)) as [L|L].
  - rewrite nth_error_app1 in E by exact L. eapply H; eauto.
  - rewrite nth_error_app2 in E by exact L. destruct (id - List.length s)%nat as [|k].
    + simpl in E. injection E as <-. exact Hm.
    + destruct k; discriminate E.
Qed.

Lemma all_incomplete_grows (s s' : Store) : grows s s' -> all_incomplete s -> all_incomplete s'.
Proof.
  intros [L G] H id m' E.
  assert (Hl : (id < List.length s)%nat) by (rewrite <- L; apply nth_error_Some; congruence).
  destruct (nth_error s id) as [m|] eqn:E0; [|apply nth_error_None in E0; lia].
  destruct (G _ _ E0) as [ns E1]. rewrite E1 in E. injection E as <-. simpl. eapply H; eauto.
Qed.

Lemma matches_incomplete (p : Pattern) (el : Element) (pth : path) (d : option Z) (s : Store)
    (r : PatternMatchResponse) (p' : Pattern) (s' : Store) :
  matches p el pth d s = Some (r, p', s') -> all_incomplete s -> all_incomplete s'.
Proof. intros E. apply all_incomplete_grows. eapply matches_framed; eauto. Qed.

Lemma reset_incomplete (p : Pattern) : forall s, all_incomplete s ->
  all_incomplete (snd (fst (reset p s))).
Proof.
  induction p as [st k IH] using Pattern_ind'. intros s H.
  destruct k as [| c n ps reps | | | ps | |]; cbn [reset];
    try (unfold base_reset; destruct (match_ st); simpl;
         [apply all_incomplete_snoc; [exact H|reflexivity] | exact H]).
  cbn [KindAll] in IH.
  assert (R : all_incomplete (snd (reset_each reset ps s))).
  { clear st. revert s H; induction IH as [|q ps Hq Hps IHps]; intros s H; cbn [reset_each].
    - exact H.
    - specialize (Hq s H). destruct (reset q s) as [[q' s1] o1]. simpl in Hq.
      specialize (IHps s1 Hq). destruct (reset_each reset ps s1) as [ps2 s2]. exact IHps. }
  destruct (reset_each reset ps s) as [ps' s1]. simpl in R |- *.
  apply all_incomplete_snoc; [exact R|reflexivity].
Qed.

Lemma reset_cfg (p : Pattern) (s : Store) : pcfg (fst (fst (reset p s))) = pcfg p.
Proof. destruct (reset_ok_all p s) as [_ [[C _] _]]. exact C. Qed.

Lemma reset_store_prefix (p : Pattern) (s : Store) :
  exists ext, snd (fst (reset p s)) = s ++ ext.
Proof. destruct (reset_ok_all p s) as [_ [_ E]]. exact E. Qed.

Lemma set_nth_map_same {A B : Type} (f : A -> B) (j : nat) (x y : A) (l : list A) :
  nth_error l j = Some y -> f x = f y -> map f (set_nth j x l) = map f l.
Proof.
  revert j; induction l as [|z l IH]; intros [|j] E F; simpl in *; try discriminate.
  - injection E as ->. rewrite F. reflexivity.
  - rewrite (IH j E F). reflexivity.
Qed.

Lemma reset_owner_spec (q : nat) (ps : list Pattern) (s : Store) (ps' : list Pattern) (s' : Store) :
  reset_owner q ps s = Some (ps', s') ->
  map pcfg ps' = map pcfg ps /\ (exists ext, s' = s ++ ext) /\
  (all_incomplete s -> all_incomplete s') /\ owner_reset q ps' /\
  (forall q', q' <> q -> owner_reset q' ps -> owner_reset q' ps').
Proof.
  unfold owner_reset. revert ps' s'; induction ps as [|p0 ps IH]; intros ps' s' H; cbn [reset_owner] in H;
    [discriminate H|].
  destruct (Nat.eqb (pid (pcfg p0)) q) eqn:Q.
  - pose proof (reset_cfg p0 s) as C. pose proof (reset_store_prefix p0 s) as P.
    pose proof (reset_incomplete p0 s) as I.
    destruct (reset p0 s) as [[p0' s1] o1] eqn:R. injection H as <- <-. simpl in C, P, I.
    split; [simpl; rewrite C; reflexivity|]. split; [exact P|]. split; [exact I|].
    split.
    + exists p0'. simpl. rewrite C, Q. split; [reflexivity|]. exists p0, s. rewrite R. reflexivity.
    + intros q' Hne [p [Ef Hr]]. exists p. simpl in Ef |- *. rewrite C.
      apply Nat.eqb_eq in Q. destruct (Nat.eqb_spec (pid (pcfg p0)) q'); [congruence|].
      split; [exact Ef|exact Hr].
  - destruct (reset_owner q ps s) as [[ps2 s2]|] eqn:R; cbn [obind] in H; [|discriminate H].
    injection H as <- <-. destruct (IH _ _ eq_refl) as [C [P [I [O F]]]].
    split; [simpl; rewrite C; reflexivity|]. split; [exact P|]. split; [exact I|].
    split.
    + destruct O as [p [Ef Hr]]. exists p. simpl. rewrite Q. split; [exact Ef|exact Hr].
    + intros q' Hne [p [Ef Hr]]. simpl in Ef |- *.
      destruct (Nat.eqb (pid (pcfg p0)) q').
      * exists p. split; [exact Ef|exact Hr].
      * destruct (F q' Hne) as [p2 [Ef2 Hr2]]; [exists p; split; [exact Ef|exact Hr]|].
        exists p2. split; [exact Ef2|exact Hr2].
Qed.

Lemma opt_eqb_spec (x y : option nat) : opt_eqb x y = true <-> x = y.
Proof.
  destruct x as [x|], y as [y|]; simpl; try (split; congruence).
  rewrite Nat.eqb_eq. split; congruence.
Qed.

Lemma opt_eqb_sym (x y : option nat) : opt_eqb x y = opt_eqb y x.
Proof. destruct x, y; simpl; auto using Nat.eqb_sym. Qed.

Lemma kill_following_spec (kills : list (option nat)) (a a' : AState) :
  kill_following kills a = Some a' ->
  oframe a a' /\ log a' = log a /\ (exists ext, store a' = store a ++ ext) /\
  match_set a' = filter (fun y => negb (existsb (opt_eqb y) kills)) (match_set a) /\
  (forall q, owner_reset q (patterns a) -> owner_reset q (patterns a')) /\
  (forall id mm, In (Some id) kills -> nth_error (store a) id = Some mm ->
     owner_reset (parent mm) (patterns a')).
Proof.
  revert a; induction kills as [|km rest IH]; intros a H; cbn [kill_following] in H.
  - injection H as <-. split; [split; auto|]. split; [reflexivity|].
    split; [exists []; rewrite app_nil_r; reflexivity|].
    split; [|split; [auto|intros ? ? []]].
    clear. induction (match_set a) as [|y l IHl]; simpl; [reflexivity|f_equal; exact IHl].
  - destruct km as [id|]; cbn [obind] in H; [|discriminate H].
    destruct (nth_error (store a) id) as [m|] eqn:Em; cbn [obind] in H; [|discriminate H].
    destruct (reset_owner (parent m) (patterns a) (store a)) as [[ps' s']|] eqn:R;
      cbn [obind] in H; [|discriminate H].
    destruct (reset_owner_spec _ _ _ _ _ R) as [C [[e P] [I [O F]]]].
    destruct (IH _ H) as [[C2 I2] [L2 [[e2 P2] [M2 [Q2 K2]]]]]. simpl in *.
    split; [split; [rewrite C2, C; reflexivity | auto]|].
    split; [exact L2|]. split; [exists (e ++ e2); rewrite P2, P, app_assoc; reflexivity|].
    split; [|split].
    + rewrite M2. unfold set_delete. clear. induction (match_set a) as [|y l IHl]; [reflexivity|].
      cbn [filter existsb]. rewrite (opt_eqb_sym (Some id) y).
      destruct (opt_eqb y (Some id)); cbn [negb orb]; [exact IHl|].
      cbn [filter]. destruct (negb (existsb (opt_eqb y) rest)); rewrite IHl; reflexivity.
    + intros q Hq. apply Q2. destruct (Nat.eq_dec q (parent m)) as [->|Hne]; [exact O|].
      apply F; [exact Hne|exact Hq].
    + intros id' mm [Hk|Hk] Emm.
      * injection Hk as <-. rewrite Em in Emm. injection Emm as <-. apply Q2. exact O.
      * apply (K2 id' mm Hk). rewrite P. rewrite nth_error_app1; [exact Emm|].
        apply nth_error_Some. congruence.
Qed.

Lemma oframe_refl (a : AState) : oframe a a.
Proof. split; auto. Qed.

Lemma oframe_trans (a1 a2 a3 : AState) : oframe a1 a2 -> oframe a2 a3 -> oframe a1 a3.
Proof. intros [C1 I1] [C2 I2]. split; [congruence|auto]. Qed.

Lemma oframe_set_match_set (a : AState) (ws : list (option nat)) : oframe a (set_match_set a ws).
Proof. split; simpl; auto. Qed.

(** the end of the [Matching]/[Completed] case: [pat.reset()] on
    [this.patterns[j]] *)
Lemma handle_tail_frame (a2 : AState) (j : nat) (resp : PatternMatchResponse) (bf1 : bool)
    (r' : PatternMatchResponse) (bf : bool) (a' : AState) :
  (pat2 <- nth_error (patterns a2) j ;;
   let '(pat', s', _) := reset pat2 (store a2) in
   Some (resp, bf1, set_patterns a2 (set_nth j pat' (patterns a2)) s')) = Some (r', bf, a') ->
  oframe a2 a' /\ log a' = log a2 /\ match_set a' = match_set a2 /\ r' = resp /\ bf = bf1 /\
  exists pat2, nth_error (patterns a2) j = Some pat2 /\
    nth_error (patterns a') j = Some (fst (fst (reset pat2 (store a2)))) /\
    (forall k, k <> j -> nth_error (patterns a') k = nth_error (patterns a2) k).
Proof.
  destruct (nth_error (patterns a2) j) as [pat2|] eqn:Ep; cbn [obind]; [|discriminate].
  pose proof (reset_cfg pat2 (store a2)) as C. pose proof (reset_incomplete pat2 (store a2)) as I.
  destruct (reset pat2 (store a2)) as [[pat' s'] o] eqn:R. intros H. injection H as <- <- <-.
  simpl in C, I. split; [split|]; simpl.
  - eapply set_nth_map_same; eauto.
  - exact I.
  - split; [reflexivity|]. split; [reflexivity|]. split; [reflexivity|]. split; [reflexivity|].
    exists pat2. split; [reflexivity|]. split.
    + rewrite R. apply nth_error_set_nth_eq. apply nth_error_Some. congruence.
    + intros k Hk. apply nth_error_set_nth_neq. congruence.
Qed.

(** the [Matching]/[Completed] case of [_handle_match] *)
Lemma handle_mc_spec (core : PatternMatchResponse) (j : nat) (m : option nat) (a : AState)
    (pat : Pattern) (r' : PatternMatchResponse) (bf : bool) (a' : AState) :
  nth_error (patterns a) j = Some pat ->
  (let a1 := set_match_set a (set_add m (match_set a)) in
   '(a2, bf) <-
     (if negb (compounds (pcfg pat)) then
        ind <- list_index m (match_set a1) ;;
        a2 <- kill_following (skipn (S ind) (match_set a1)) a1 ;;
        Some (a2, true)
      else Some (a1, false)) ;;
   let '(resp, bf') := if terminal (pcfg pat) then (Break, true) else (core, bf) in
   pat2 <- nth_error (patterns a2) j ;;
   let '(pat', s', _) := reset pat2 (store a2) in
   Some (resp, bf', set_patterns a2 (set_nth j pat' (patterns a2)) s')) = Some (r', bf, a') ->
  oframe a a' /\ log a' = log a /\
  (r' = if terminal (pcfg pat) then Break else core) /\
  (compounds (pcfg pat) = false ->
     bf = true /\
     exists ind a2, list_index m (set_add m (match_set a)) = Some ind /\
       kill_following (skipn (S ind) (set_add m (match_set a)))
         (set_match_set a (set_add m (match_set a))) = Some a2 /\
       match_set a' = match_set a2 /\
       (exists pat2, nth_error (patterns a2) j = Some pat2 /\
         nth_error (patterns a') j = Some (fst (fst (reset pat2 (store a2)))) /\
         (forall k, k <> j -> nth_error (patterns a') k = nth_error (patterns a2) k))).
Proof.
  intros Ep H. cbv zeta in H.
  destruct (compounds (pcfg pat)) eqn:Hc; cbn [negb obind] in H.
  - destruct (terminal (pcfg pat)); cbn beta iota in H;
      destruct (handle_tail_frame _ _ _ _ _ _ _ H) as [F [L [_ [-> [-> _]]]]];
      (split; [eapply oframe_trans; [apply oframe_set_match_set|exact F]|]);
      (split; [exact L|]); (split; [reflexivity|]); intros; discriminate.
  - destruct (list_index m (match_set (set_match_set a (set_add m (match_set a))))) as [ind|] eqn:Ei;
      cbn [obind] in H; [|discriminate H].
    destruct (kill_following (skipn (S ind) (match_set (set_match_set a (set_add m (match_set a)))))
                (set_match_set a (set_add m (match_set a)))) as [a2|] eqn:K;
      cbn [obind] in H; [|discriminate H].
    pose proof (kill_following_spec _ _ _ K) as [F2 [L2 _]].
    destruct (terminal (pcfg pat)); cbn beta iota in H;
      destruct (handle_tail_frame _ _ _ _ _ _ _ H) as [F [L [M [-> [-> T]]]]];
      (split; [eapply oframe_trans; [eapply oframe_trans; [apply oframe_set_match_set|exact F2]|exact F]|]);
      (split; [rewrite L, L2; reflexivity|]); (split; [reflexivity|]); intros _;
      (split; [reflexivity|]); exists ind, a2;
      (split; [exact Ei|]); (split; [exact K|]);
      (split; [exact M|exact T]).
Qed.

Lemma handle_match_frame (r : PatternMatchResponse) (j : nat) (m : option nat) (a : AState)
    (r' : PatternMatchResponse) (bf : bool) (a' : AState) :
  _handle_match r j m a = Some (r', bf, a') ->
  oframe a a' /\ log a' = log a /\ (r = Break -> r' = Break /\ bf = true) /\
  (r' = Completed -> r = Completed) /\
  ((r = Matching \/ r = Completed) -> forall pat, nth_error (patterns a) j = Some pat ->
     compounds (pcfg pat) = false -> bf = true).
Proof.
  intros H. destruct r; cbn [_handle_match] in H.
  - destruct (nth_error (patterns a) j) as [pat|] eqn:Ep; cbn [obind] in H; [|discriminate H].
    destruct (handle_mc_spec _ _ _ _ _ _ _ _ Ep H) as [F [L [Er Hnc]]].
    split; [exact F|]. split; [exact L|]. split; [discriminate|].
    split; [intros ->; destruct (terminal (pcfg pat)); discriminate Er|].
    intros _ pat' Ep' Hc. try rewrite Ep in Ep'. injection Ep' as <-. apply Hnc; exact Hc.
  - destruct (nth_error (patterns a) j) as [pat|] eqn:Ep; cbn [obind] in H; [|discriminate H].
    pose proof (reset_cfg pat (store a)) as C. pose proof (reset_incomplete pat (store a)) as I.
    destruct (reset pat (store a)) as [[pat' s'] o]. injection H as <- <- <-. simpl in C, I.
    split; [split; simpl; [eapply set_nth_map_same; eauto|exact I]|].
    split; [reflexivity|]. split; [discriminate|]. split; [discriminate|].
    intros [E|E]; discriminate E.
  - injection H as <- <- <-. split; [apply oframe_set_match_set|].
    split; [reflexivity|]. split; [discriminate|]. split; [discriminate|].
    intros [E|E]; discriminate E.
  - destruct (nth_error (patterns a) j) as [pat|] eqn:Ep; cbn [obind] in H; [|discriminate H].
    destruct (handle_mc_spec _ _ _ _ _ _ _ _ Ep H) as [F [L [Er Hnc]]].
    split; [exact F|]. split; [exact L|]. split; [discriminate|].
    split; [intros _; reflexivity|].
    intros _ pat' Ep' Hc. try rewrite Ep in Ep'. injection Ep' as <-. apply Hnc; exact Hc.
  - injection H as <- <- <-. split; [apply oframe_refl|]. split; [reflexivity|].
    split; [auto|]. split; [discriminate|]. intros [E|E]; discriminate E.
  - injection H as <- <- <-. split; [apply oframe_refl|]. split; [reflexivity|].
    split; [discriminate|]. split; [discriminate|]. intros [E|E]; discriminate E.
Qed.

Lemma offer_spec (j : nat) (node : Element) (pth : path) (d : Z) (a : AState)
    (r : PatternMatchResponse) (a1 : AState) :
  offer j node pth d a = Some (r, a1) ->
  log a1 = log a ++ [(pth, j, r)] /\ oframe a a1 /\ match_set a1 = match_set a /\
  forall pat, nth_error (patterns a) j = Some pat ->
    exists pat', nth_error (patterns a1) j = Some pat' /\ pcfg pat' = pcfg pat.
Proof.
  unfold offer. destruct (nth_error (patterns a) j) as [pat|] eqn:Ep; cbn [obind]; [|discriminate].
  destruct (matches pat node pth (Some d) (store a)) as [[[r0 pat'] s']|] eqn:Em;
    cbn [obind]; [|discriminate].
  intros H. injection H as <- <-. destruct (matches_cfg _ _ _ _ _ _ _ _ Em) as [C _].
  split; [reflexivity|]. split; [split; simpl|split; [reflexivity|]].
  - eapply set_nth_map_same; eauto.
  - eapply matches_incomplete; eauto.
  - intros pat0 E0. injection E0 as <-. exists pat'. split; [|exact C]. simpl.
    apply nth_error_set_nth_eq. apply nth_error_Some. congruence.
Qed.

Lemma match_step_spec (j : nat) (node : Element) (pth : path) (d : Z) (a : AState)
    (resp : PatternMatchResponse) (bf : bool) (a' : AState) :
  match_step j node pth d a = Some (resp, bf, a') ->
  exists N, log a' = log a ++ N /\ Forall (fun e => fst e = (pth, j)) N /\ oframe a a' /\
    (forall e, In e N -> snd e = Break -> resp = Break /\ bf = true) /\
    (forall e, In e N -> (snd e = Matching \/ snd e = Completed) ->
       forall pat, nth_error (patterns a) j = Some pat -> compounds (pcfg pat) = false ->
       bf = true).
Proof.
  unfold match_step.
  destruct (offer j node pth d a) as [[r1 a1]|] eqn:O1; cbn [obind]; [|discriminate].
  destruct (offer_spec _ _ _ _ _ _ _ O1) as [L1 [F1 [_ P1]]].
  destruct (nth_error (patterns a1) j) as [m1|] eqn:Em1; cbn [obind]; [|discriminate].
  destruct (_handle_match r1 j (pmatch m1) a1) as [[[h1 b1] a2]|] eqn:H1; cbn [obind];
    [|discriminate].
  destruct (handle_match_frame _ _ _ _ _ _ _ H1) as [F2 [L2 [B2 [C2 N2]]]].
  assert (NC1 : (r1 = Matching \/ r1 = Completed) -> forall pat,
            nth_error (patterns a) j = Some pat -> compounds (pcfg pat) = false -> b1 = true).
  { intros Hr pat Ep Hc. destruct (P1 pat Ep) as [pat' [Ep' Cp]].
    apply (N2 Hr pat'); [rewrite Em1; exact Ep'|rewrite Cp; exact Hc]. }
  destruct (resp_eqb h1 Completed) eqn:Hh.
  - unfold resp_eqb in Hh. destruct (resp_eq_dec h1 Completed) as [Eh|]; [|discriminate Hh].
    specialize (C2 Eh). subst r1.
    destruct (offer j node pth d a2) as [[r2 a3]|] eqn:O2; cbn [obind]; [|discriminate].
    destruct (offer_spec _ _ _ _ _ _ _ O2) as [L3 [F3 _]].
    destruct (nth_error (patterns a3) j) as [m2|] eqn:Em2; cbn [obind]; [|discriminate].
    destruct (_handle_match r2 j (pmatch m2) a3) as [[[h2 b2] a4]|] eqn:H2; cbn [obind];
      [|discriminate].
    destruct (handle_match_frame _ _ _ _ _ _ _ H2) as [F4 [L4 [B4 _]]].
    intros H. injection H as <- <- <-.
    exists [(pth, j, Completed); (pth, j, r2)].
    split; [rewrite L4, L3, L2, L1, <- app_assoc; reflexivity|].
    split; [repeat constructor|].
    split; [eapply oframe_trans; [exact F1|eapply oframe_trans; [exact F2|
              eapply oframe_trans; [exact F3|exact F4]]]|].
    split.
    + intros e [<-|[<-|[]]]; simpl; intros E; [discriminate E|].
      destruct (B4 E) as [-> ->]. split; [exact E|apply orb_true_r].
    + intros e _ _ pat Ep Hc. rewrite (NC1 (or_intror eq_refl) pat Ep Hc). reflexivity.
  - intros H. injection H as <- <- <-. exists [(pth, j, r1)].
    split; [rewrite L2, L1; reflexivity|]. split; [repeat constructor|].
    split; [eapply oframe_trans; [exact F1|exact F2]|]. split.
    + intros e [<-|[]]; simpl; intros E. split; [exact E|]. apply (B2 E).
    + intros e [<-|[]]; simpl; intros E. exact (NC1 E).
Qed.

Lemma nth_error_map_eq {A B : Type} (f : A -> B) (l l' : list A) (j : nat) (x : A) :
  map f l' = map f l -> nth_error l j = Some x -> exists y, nth_error l' j = Some y /\ f y = f x.
Proof.
  intros E H. assert (H' : nth_error (map f l') j = Some (f x)) by (rewrite E, nth_error_map, H; reflexivity).
  rewrite nth_error_map in H'. destruct (nth_error l' j) as [y|]; [|discriminate H'].
  exists y. injection H' as <-. split; reflexivity.
Qed.

Lemma match_loop_spec (n k : nat) (node : Element) (pth : path) (d : Z)
    (resp0 : PatternMatchResponse) (a : AState) (resp : PatternMatchResponse) (a' : AState) :
  match_loop (seq k n) node pth d resp0 a = Some (resp, a') ->
  exists N, log a' = log a ++ N /\
    Forall (fun e => fst (fst e) = pth /\ (k <= snd (fst e))%nat) N /\ oframe a a' /\
    (forall e, In e N -> snd e = Break -> resp = Break) /\
    (forall e, In e N -> (snd e = Matching \/ snd e = Completed) ->
       forall pat, nth_error (patterns a) (snd (fst e)) = Some pat ->
       compounds (pcfg pat) = false ->
       forall e', In e' N -> (snd (fst e') <= snd (fst e))%nat).
Proof.
  revert k resp0 a; induction n as [|n IH]; intros k resp0 a H; cbn [seq match_loop] in H.
  - injection H as <- <-. exists []. rewrite app_nil_r.
    split; [reflexivity|]. split; [constructor|]. split; [apply oframe_refl|].
    split; intros e [].
  - destruct (match_step k node pth d a) as [[[r1 b1] a1]|] eqn:S1; cbn [obind] in H;
      [|discriminate H].
    destruct (match_step_spec _ _ _ _ _ _ _ _ S1) as [N1 [L1 [P1 [F1 [B1 M1]]]]].
    assert (P1' : Forall (fun e => fst (fst e) = pth /\ (k <= snd (fst e))%nat) N1).
    { eapply Forall_impl; [|exact P1]. intros [[pt jj] r] E. simpl in E |- *.
      injection E as -> ->. split; [reflexivity|lia]. }
    destruct b1.
    + injection H as <- <-. exists N1. split; [exact L1|]. split; [exact P1'|].
      split; [exact F1|]. split.
      * intros e He Eb. apply (B1 e He Eb).
      * intros e He _ _ _ _ e' He'.
        rewrite Forall_forall in P1. rewrite (P1 e He), (P1 e' He'). simpl. lia.
    + destruct (IH (S k) r1 a1 H) as [N2 [L2 [P2 [F2 [B2 M2]]]]].
      exists (N1 ++ N2). split; [rewrite L2, L1, app_assoc; reflexivity|].
      split.
      * apply Forall_app. split; [exact P1'|]. eapply Forall_impl; [|exact P2].
        intros e [E1 E2]. split; [exact E1|lia].
      * split; [eapply oframe_trans; eauto|]. split.
        -- intros e He Eb. apply in_app_or in He as [He|He].
           ++ destruct (B1 e He Eb) as [_ Hf]. discriminate Hf.
           ++ apply (B2 e He Eb).
        -- intros e He Hr pat Ep Hc e' He'. apply in_app_or in He as [He|He].
           ++ specialize (M1 e He Hr). rewrite Forall_forall in P1. rewrite (P1 e He) in Ep.
              simpl in Ep. specialize (M1 pat Ep Hc). discriminate M1.
           ++ destruct F1 as [C1 _].
              destruct (nth_error_map_eq pcfg _ _ _ _ C1 Ep) as [pat1 [Ep1 Cp1]].
              rewrite Forall_forall in P2. destruct (P2 e He) as [_ Ke].
              apply in_app_or in He' as [He'|He'].
              ** rewrite Forall_forall in P1. rewrite (P1 e' He'). simpl. lia.
              ** apply (M2 e He Hr pat1 Ep1); [rewrite Cp1; exact Hc|exact He'].
Qed.

(** *** Working-set lemmas *)

Lemma existsb_opt_eqb (y : option nat) (l : list (option nat)) :
  existsb (opt_eqb y) l = true <-> In y l.
Proof.
  rewrite existsb_exists. split.
  - intros [x [Hx E]]. apply opt_eqb_spec in E. subst. exact Hx.
  - intros H. exists y. split; [exact H|]. apply opt_eqb_spec. reflexivity.
Qed.

Lemma NoDup_app_disjoint {A : Type} (l1 l2 : list A) :
  NoDup (l1 ++ l2) -> forall y, In y l1 -> ~ In y l2.
Proof.
  induction l1 as [|x l1 IH]; simpl; intros H y Hy; [contradiction|].
  inversion H as [|x0 l0 Hn Hd]; subst. destruct Hy as [<-|Hy].
  - intros H2. apply Hn. apply in_or_app. right. exact H2.
  - apply IH; assumption.
Qed.

Lemma filter_keep_prefix (l1 l2 : list (option nat)) :
  NoDup (l1 ++ l2) ->
  filter (fun y => negb (existsb (opt_eqb y) l2)) (l1 ++ l2) = l1.
Proof.
  intros H. rewrite filter_app.
  assert (E1 : filter (fun y => negb (existsb (opt_eqb y) l2)) l1 = l1).
  { pose proof (NoDup_app_disjoint l1 l2 H) as D. clear H. induction l1 as [|x l1 IH]; [reflexivity|].
    simpl. destruct (existsb (opt_eqb x) l2) eqn:E.
    - apply existsb_opt_eqb in E. exfalso. apply (D x); [left; reflexivity|exact E].
    - simpl. rewrite IH; [reflexivity|]. intros y Hy. apply D. right. exact Hy. }
  assert (E2 : forall l, incl l l2 -> filter (fun y => negb (existsb (opt_eqb y) l2)) l = []).
  { induction l as [|x l IH]; intros Hs; [reflexivity|]. simpl.
    assert (Hx : existsb (opt_eqb x) l2 = true) by (apply existsb_opt_eqb, Hs; left; reflexivity).
    rewrite Hx. simpl. apply IH. intros y Hy. apply Hs. right. exact Hy. }
  rewrite E1, (E2 l2 (incl_refl _)), app_nil_r. reflexivity.
Qed.

Lemma set_add_NoDup (x : option nat) (l : list (option nat)) :
  NoDup l -> NoDup (set_add x l).
Proof.
  intros H. unfold set_add. destruct (existsb (opt_eqb x) l) eqn:E; [exact H|].
  apply NoDup_app; [exact H|repeat constructor; auto|].
  intros y Hy [Exy|[]]. apply (proj2 (existsb_opt_eqb y l)) in Hy. subst y. congruence.
Qed.

Lemma list_index_spec (x : option nat) (l : list (option nat)) (i : nat) :
  list_index x l = Some i -> nth_error l i = Some x.
Proof.
  revert i; induction l as [|y l IH]; intros i H; simpl in H; [discriminate H|].
  destruct (opt_eqb x y) eqn:E.
  - injection H as <-. apply opt_eqb_spec in E. subst. reflexivity.
  - destruct (list_index x l) as [i'|]; cbn [obind] in H; [|discriminate H].
    injection H as <-. apply IH. reflexivity.
Qed.

Lemma owner_reset_set_nth (q j : nat) (ps : list Pattern) (x y : Pattern) :
  owner_reset q ps -> nth_error ps j = Some y -> pid (pcfg x) = pid (pcfg y) -> reset_out x ->
  owner_reset q (set_nth j x ps).
Proof.
  unfold owner_reset. revert j; induction ps as [|p0 ps IH]; intros j [p [Ef Hr]] Ej Hxy Hx;
    [destruct j; discriminate Ej|].
  destruct j as [|j]; simpl in *.
  - injection Ej as ->. rewrite Hxy. destruct (Nat.eqb (pid (pcfg y)) q).
    + exists x. split; [reflexivity|exact Hx].
    + exists p. split; [exact Ef|exact Hr].
  - destruct (Nat.eqb (pid (pcfg p0)) q).
    + exists p. split; [exact Ef|exact Hr].
    + apply IH; [exists p; split; [exact Ef|exact Hr]|exact Ej|exact Hxy|exact Hx].
Qed.

Lemma patterns_update (ps ps' : list Pattern) (j : nat) (y x : Pattern) :
  nth_error ps j = Some y -> nth_error ps' j = Some x ->
  (forall k, k <> j -> nth_error ps' k = nth_error ps k) -> ps' = set_nth j x ps.
Proof.
  intros Ey Ex Eo. apply nth_error_ext. intros k. destruct (Nat.eq_dec k j) as [->|Hne].
  - rewrite Ex, nth_error_set_nth_eq; [reflexivity|]. apply nth_error_Some. congruence.
  - rewrite Eo, nth_error_set_nth_neq; auto.
Qed.

(** *** C2 *)

(** C2. (1) When [_handle_match] handles [Matching] or [Completed] from the
    pattern [this.patterns[j]] whose [compounds] flag is false (the working
    set having no duplicates, as a [Set]), the break flag is set; with [ind]
    the position of the pattern's accumulator in the working set after it
    was added, the working set keeps exactly the entries up to [ind], and
    the owner of every accumulator after [ind] has been reset. (2) In a node
    pass ([_match_node]), once such a response is logged for pattern [j], no
    pattern with a larger index is offered the node. *)
Theorem noncompounding_winner :
  (forall (r : PatternMatchResponse) (j : nat) (m : option nat) (a : AState) (pat : Pattern)
     (r' : PatternMatchResponse) (bf : bool) (a' : AState),
   (r = Matching \/ r = Completed) ->
   nth_error (patterns a) j = Some pat -> compounds (pcfg pat) = false ->
   NoDup (match_set a) ->
   _handle_match r j m a = Some (r', bf, a') ->
   bf = true /\
   exists ind, nth_error (set_add m (match_set a)) ind = Some m /\
     match_set a' = firstn (S ind) (set_add m (match_set a)) /\
     forall id mm, In (Some id) (skipn (S ind) (set_add m (match_set a))) ->
       nth_error (store a) id = Some mm -> owner_reset (parent mm) (patterns a')) /\
  (forall (node : Element) (pth : path) (d : Z) (a : AState) (resp : PatternMatchResponse)
     (a' : AState),
   _match_node node pth d a = Some (resp, a') ->
   exists N, log a' = log a ++ N /\ Forall (fun e => fst (fst e) = pth) N /\
     forall e, In e N -> (snd e = Matching \/ snd e = Completed) ->
       forall pat, nth_error (patterns a) (snd (fst e)) = Some pat ->
       compounds (pcfg pat) = false ->
       forall e', In e' N -> (snd (fst e') <= snd (fst e))%nat).
Proof.
  split.
  - intros r j m a pat r' bf a' Hr Ep Hc Hnd H.
    destruct Hr as [-> | ->]; cbn [_handle_match] in H; rewrite Ep in H; cbn [obind] in H;
      destruct (handle_mc_spec _ _ _ _ _ _ _ _ Ep H) as [_ [_ [_ Hnc]]];
      destruct (Hnc Hc) as [Hbf [ind [a2 [Ei [K [Ms [pat2 [E2 [E2' E2o]]]]]]]]];
      (split; [exact Hbf|]); exists ind;
      (split; [exact (list_index_spec _ _ _ Ei)|]);
      destruct (kill_following_spec _ _ _ K) as [_ [_ [_ [M2 [_ K2]]]]]; simpl in M2, K2;
      (split;
       [ rewrite Ms, M2;
         pose proof (filter_keep_prefix (firstn (S ind) (set_add m (match_set a)))
                       (skipn (S ind) (set_add m (match_set a)))) as FK;
         rewrite firstn_skipn in FK; apply FK; apply set_add_NoDup; exact Hnd
       | ]);
      intros id mm Hin Emm;
      rewrite (patterns_update _ _ _ _ _ E2 E2' E2o);
      (apply owner_reset_set_nth with (y := pat2);
       [ apply (K2 id mm Hin Emm)
       | exact E2
       | rewrite reset_cfg; reflexivity
       | exists pat2, (store a2); reflexivity ]).
  - intros node pth d a resp a' H. unfold _match_node in H.
    destruct (match_loop_spec _ _ _ _ _ _ _ _ _ H) as [N [L [P [_ [_ M]]]]].
    exists N. split; [exact L|]. split; [|exact M].
    eapply Forall_impl; [|exact P]. intros e [E _]. exact E.
Qed.

Lemma noncompounding_winner_witness :
  (exists r' bf a', _handle_match Matching 0 (Some 0%nat) kill_demo = Some (r', bf, a') /\
     bf = true /\ match_set a' = [Some 0%nat] /\ owner_reset 1 (patterns a')) /\
  (exists resp a', _match_node (leaf "H2") [0]%nat 0 kill_demo = Some (resp, a') /\
     Forall (fun e => fst (fst e) = [0]%nat) (log a')).
Proof.
  split.
  - destruct (_handle_match Matching 0 (Some 0%nat) kill_demo) as [[[r' bf] a']|] eqn:E;
      [|vm_compute in E; discriminate E].
    edestruct (proj1 noncompounding_winner Matching 0%nat (Some 0%nat) kill_demo
                 (hd (fst tag_p) (patterns kill_demo)) r' bf a')
      as [Hbf [ind [Hn [Hm Ho]]]];
      [left; reflexivity | reflexivity | reflexivity
      | vm_compute; apply NoDup_cons;
        [simpl; intros [H|H]; [discriminate H|exact H]|apply NoDup_cons; [simpl; tauto|constructor]]
      | exact E |].
    exists r', bf, a'. split; [reflexivity|]. split; [exact Hbf|].
    destruct ind as [|[|ind]];
      [| vm_compute in Hn; discriminate Hn | vm_compute in Hn; destruct ind; discriminate Hn].
    split; [rewrite Hm; reflexivity|].
    exact (Ho 1%nat (new_match 1%nat []) (or_introl eq_refl) eq_refl).
  - destruct (_match_node (leaf "H2") [0]%nat 0 kill_demo) as [[resp a']|] eqn:E;
      [|vm_compute in E; discriminate E].
    destruct (proj2 noncompounding_winner _ _ _ _ _ _ E) as [N [L [P _]]].
    exists resp, a'. split; [reflexivity|]. rewrite L. exact P.
Defined.

(** *** Traversal lemmas *)

Lemma match_node_spec (node : Element) (pth : path) (d : Z) (a : AState)
    (resp : PatternMatchResponse) (a' : AState) :
  _match_node node pth d a = Some (resp, a') ->
  exists N, log a' = log a ++ N /\ Forall (fun e => fst (fst e) = pth) N /\ oframe a a' /\
    (forall e, In e N -> snd e = Break -> resp = Break).
Proof.
  unfold _match_node. intros H.
  destruct (match_loop_spec _ _ _ _ _ _ _ _ _ H) as [N [L [P [F [B _]]]]].
  exists N. split; [exact L|]. split; [|split; [exact F|exact B]].
  eapply Forall_impl; [|exact P]. intros e [E _]. exact E.
Qed.

Lemma extends_length (q e : path) : extends q e -> (List.length q < List.length e)%nat.
Proof. intros [x [rest ->]]. rewrite length_app. simpl. lia. Qed.

Lemma extends_same_index (pth r1 r2 : path) (x y : nat) :
  extends (pth ++ x :: r1) (pth ++ y :: r2) -> x = y.
Proof.
  intros [z [rest E]]. rewrite <- app_assoc in E. apply app_inv_head in E.
  injection E as E _. symmetry. exact E.
Qed.

(** where the logged offers of the loop over the children from index [i]
    go *)
Lemma apply_children_spec (rec : Element -> path -> AState -> option AState)
    (pth : path) (cd : Z) (ns : list Element) :
  Forall (fun node => forall p a a', rec node p a = Some a' ->
            exists N, log a' = log a ++ N /\ Forall (fun e => extends p (fst (fst e))) N /\
                      no_desc N /\ oframe a a') ns ->
  forall i a a', apply_children rec pth cd i ns a = Some a' ->
  exists N, log a' = log a ++ N /\ Forall (below pth i) N /\ no_desc N /\ oframe a a'.
Proof.
  induction 1 as [|node ns Hn Hns IH]; intros i a a' H; cbn [apply_children] in H.
  - injection H as <-. exists []. rewrite app_nil_r. split; [reflexivity|].
    split; [constructor|]. split; [intros e1 e2 []|apply oframe_refl].
  - destruct (_match_node node (pth ++ [i]) cd a) as [[resp a1]|] eqn:M; cbn [obind] in H;
      [|discriminate H].
    destruct (match_node_spec _ _ _ _ _ _ M) as [N1 [L1 [P1 [F1 B1]]]].
    assert (R : exists N2, log (match (if resp_eqb resp Break then Some a1
                                       else rec node (pth ++ [i]) a1) with
                                | Some a2 => a2 | None => a1 end) = log a1 ++ N2 /\
                (resp = Break -> N2 = []) /\
                Forall (fun e => extends (pth ++ [i]) (fst (fst e))) N2 /\ no_desc N2 /\
                oframe a1 (match (if resp_eqb resp Break then Some a1
                                   else rec node (pth ++ [i]) a1) with
                            | Some a2 => a2 | None => a1 end)).
    { unfold resp_eqb. destruct (resp_eq_dec resp Break) as [Eb|Nb].
      - exists []. rewrite app_nil_r. split; [reflexivity|]. split; [auto|].
        split; [constructor|]. split; [intros e1 e2 []|apply oframe_refl].
      - destruct (rec node (pth ++ [i]) a1) as [a2|] eqn:Er.
        + destruct (Hn _ _ _ Er) as [N2 [L2 [P2 [D2 F2]]]]. exists N2.
          split; [exact L2|]. split; [intros E; contradiction|]. auto.
        + exists []. rewrite app_nil_r. split; [reflexivity|]. split; [auto|].
          split; [constructor|]. split; [intros e1 e2 []|apply oframe_refl]. }
    destruct (if resp_eqb resp Break then Some a1 else rec node (pth ++ [i]) a1) as [a2|] eqn:E2;
      cbn [obind] in H; [|discriminate H].
    destruct R as [N2 [L2 [Z2 [P2 [D2 F2]]]]].
    destruct (IH (S i) a2 a' H) as [N3 [L3 [P3 [D3 F3]]]].
    exists (N1 ++ N2 ++ N3).
    split; [rewrite L3, L2, L1, !app_assoc; reflexivity|].
    rewrite Forall_forall in P1, P2, P3.
    split; [|split; [|eapply oframe_trans; [exact F1|eapply oframe_trans; [exact F2|exact F3]]]].
    + apply Forall_forall. intros e He. apply in_app_or in He as [He|He];
        [|apply in_app_or in He as [He|He]].
      * exists i, []. split; [rewrite (P1 e He); reflexivity|lia].
      * destruct (P2 e He) as [z [rest Ez]]. exists i, (z :: rest).
        rewrite Ez, <- app_assoc. split; [reflexivity|lia].
      * destruct (P3 e He) as [x [rest [Ex Hx]]]. exists x, rest. split; [exact Ex|lia].
    + intros e1 e2 He1 He2 Eb Hx.
      apply in_app_or in He1 as [He1|He1]; [|apply in_app_or in He1 as [He1|He1]];
      apply in_app_or in He2 as [He2|He2]; try apply in_app_or in He2 as [He2|He2].
      * rewrite (P1 e1 He1), (P1 e2 He2) in Hx. apply extends_length in Hx. lia.
      * rewrite (Z2 (B1 e1 He1 Eb)) in He2. destruct He2.
      * rewrite (P1 e1 He1) in Hx. destruct (P3 e2 He2) as [x [rest [Ex Hle]]].
        rewrite Ex in Hx. apply extends_same_index in Hx. lia.
      * apply extends_length in Hx. destruct (P2 e1 He1) as [z [rest Ez]].
        rewrite (P1 e2 He2), Ez in Hx. rewrite !length_app in Hx. simpl in Hx. lia.
      * exact (D2 e1 e2 He1 He2 Eb Hx).
      * destruct (P2 e1 He1) as [z [rest Ez]]. destruct (P3 e2 He2) as [x [rest' [Ex Hle]]].
        rewrite Ez, Ex, <- app_assoc in Hx. apply extends_same_index in Hx. lia.
      * destruct (P3 e1 He1) as [x [rest [Ex Hle]]]. rewrite Ex, (P1 e2 He2) in Hx.
        apply extends_same_index in Hx. lia.
      * destruct (P3 e1 He1) as [x [rest [Ex Hle]]]. destruct (P2 e2 He2) as [z [rest' Ez]].
        rewrite Ex, Ez, <- app_assoc in Hx. apply extends_same_index in Hx. lia.
      * exact (D3 e1 e2 He1 He2 Eb Hx).
Qed.

Lemma apply_rec_spec (root : Element) : forall pth md cd a a',
  _apply_rec root pth md cd a = Some a' ->
  exists N, log a' = log a ++ N /\ Forall (fun e => extends pth (fst (fst e))) N /\
    no_desc N /\ oframe a a'.
Proof.
  induction root as [t c ns IH] using Element_ind'. intros pth md cd a a' H.
  cbn [_apply_rec] in H. destruct ((md <=? 0) || (cd <=? md)).
  - edestruct (apply_children_spec (fun node p a1 => _apply_rec node p md (cd + 1) a1) pth cd ns)
      as [N [L [P [D F]]]]; [| exact H |].
    + eapply Forall_impl; [|exact IH]. intros node Hn p a1 a1' E. exact (Hn _ _ _ _ _ E).
    + exists N. split; [exact L|]. split; [|split; [exact D|exact F]].
      eapply Forall_impl; [|exact P]. intros e [x [rest [E _]]]. exists x, rest. exact E.
  - injection H as <-. exists []. rewrite app_nil_r. split; [reflexivity|].
    split; [constructor|]. split; [intros e1 e2 []|apply oframe_refl].
Qed.

Lemma match_loop_break (n k : nat) (node : Element) (pth : path) (d : Z)
    (resp0 : PatternMatchResponse) (a : AState) (resp : PatternMatchResponse) (a' : AState) :
  match_loop (seq k n) node pth d resp0 a = Some (resp, a') ->
  exists N, log a' = log a ++ N /\
    forall e, In e N -> snd e = Break -> forall e', In e' N -> (snd (fst e') <= snd (fst e))%nat.
Proof.
  revert k resp0 a; induction n as [|n IH]; intros k resp0 a H; cbn [seq match_loop] in H.
  - injection H as <- <-. exists []. rewrite app_nil_r. split; [reflexivity|]. intros e [].
  - destruct (match_step k node pth d a) as [[[r1 b1] a1]|] eqn:S1; cbn [obind] in H;
      [|discriminate H].
    destruct (match_step_spec _ _ _ _ _ _ _ _ S1) as [N1 [L1 [P1 [_ [B1 _]]]]].
    rewrite Forall_forall in P1.
    destruct b1.
    + injection H as <- <-. exists N1. split; [exact L1|].
      intros e He _ e' He'. rewrite (P1 e He), (P1 e' He'). simpl. lia.
    + destruct (match_loop_spec _ _ _ _ _ _ _ _ _ H) as [N2' [L2' [P2 _]]].
      destruct (IH (S k) r1 a1 H) as [N2 [L2 M2]].
      rewrite L2 in L2'. apply app_inv_head in L2'. subst N2'.
      exists (N1 ++ N2). split; [rewrite L2, L1, app_assoc; reflexivity|].
      rewrite Forall_forall in P2.
      intros e He Eb e' He'. apply in_app_or in He as [He|He].
      * destruct (B1 e He Eb) as [_ Hf]. discriminate Hf.
      * destruct (P2 e He) as [_ Ke]. apply in_app_or in He' as [He'|He'].
        -- rewrite (P1 e' He'). simpl. lia.
        -- exact (M2 e He Eb e' He').
Qed.

(** *** C3 *)

(** C3. The subtree-exclusion pattern ([IgnoredPattern]), past its own
    short-circuit checks, offers the node to its child with no depth and
    maps the child's [Incomplete], [Matching] and [Break] to [Break] (and
    only those); in a node pass, once a [Break] is logged no pattern with a
    larger index is offered the node and the pass answers [Break]; and in a
    whole traversal, no strict descendant of a node for which any pattern
    (in particular an [IgnoredPattern] wrapping [TagPattern(["pre"])])
    answered [Break] is offered to any pattern. *)
Theorem ignored_prunes_subtree :
  (forall r : PatternMatchResponse,
     (r = Incomplete \/ r = Matching \/ r = Break) <-> match_ignore r = Break) /\
  (forall r : PatternMatchResponse,
     r <> Incomplete -> r <> Matching -> r <> Break -> match_ignore r = r) /\
  (forall (st : PatternState) (q : Pattern) (el : Element) (pth : path) (d : option Z)
     (s : Store) (r : PatternMatchResponse) (p' : Pattern) (s' : Store),
   short_circuits st d = false ->
   matches (Pat st (IgnoredK q)) el pth d s = Some (r, p', s') ->
   exists rq q' s1, matches q el pth None s = Some (rq, q', s1) /\ r = match_ignore rq) /\
  (forall (node : Element) (pth : path) (d : Z) (a : AState) (resp : PatternMatchResponse)
     (a' : AState),
   _match_node node pth d a = Some (resp, a') ->
   exists N, log a' = log a ++ N /\
     forall e, In e N -> snd e = Break ->
       resp = Break /\ forall e', In e' N -> (snd (fst e') <= snd (fst e))%nat) /\
  (forall (ps : list Pattern) (s : Store) (root : Element) (md : Z) (a : AState),
   traverse ps s root md = Some a ->
   forall e1 e2, In e1 (log a) -> In e2 (log a) -> snd e1 = Break ->
     ~ extends (fst (fst e1)) (fst (fst e2))).
Proof.
  split; [|split; [|split; [|split]]].
  - intros r. destruct r; simpl; split; intros H;
      try reflexivity; try discriminate H; try (destruct H as [H|[H|H]]; discriminate H); auto.
  - intros r H1 H2 H3. destruct r; simpl; congruence.
  - intros st q el pth d s r p' s' Hsc. rewrite matches_eq, Hsc. cbn [run_matcher].
    destruct (matches q el pth None s) as [[[rq q'] s1]|]; cbn [obind]; [|discriminate].
    destruct (record_match st (match_ignore rq) el pth d s1) as [[st' s2]|]; cbn [obind];
      [|discriminate].
    intros H. injection H as <- _ _. exists rq, q', s1. split; reflexivity.
  - intros node pth d a resp a' H.
    destruct (match_node_spec _ _ _ _ _ _ H) as [N [L [_ [_ B]]]].
    unfold _match_node in H. destruct (match_loop_break _ _ _ _ _ _ _ _ _ H) as [N' [L' M]].
    rewrite L in L'. apply app_inv_head in L'. subst N'.
    exists N. split; [exact L|]. intros e He Eb. split; [exact (B e He Eb)|exact (M e He Eb)].
  - intros ps s root md a H. unfold traverse in H.
    destruct (apply_rec_spec _ _ _ _ _ _ H) as [N [L [_ [D _]]]].
    simpl in L. rewrite L. exact D.
Qed.

Lemma ignored_prunes_subtree_witness :
  exists a, traverse (fst pre_config) (snd pre_config) pre_root 0 = Some a /\
    In ([0]%nat, 0%nat, Break) (log a) /\
    forall e2, In e2 (log a) -> ~ extends [0]%nat (fst (fst e2)).
Proof.
  destruct (traverse (fst pre_config) (snd pre_config) pre_root 0) as [a|] eqn:E;
    [|vm_compute in E; discriminate E].
  exists a. split; [reflexivity|].
  assert (Hin : In ([0]%nat, 0%nat, Break) (log a)).
  { vm_compute in E. injection E as <-. simpl. left. reflexivity. }
  split; [exact Hin|]. intros e2 He2.
  exact (proj2 (proj2 (proj2 (proj2 ignored_prunes_subtree))) _ _ _ _ a E
           ([0]%nat, 0%nat, Break) e2 Hin He2 eq_refl).
Defined.

(** *** C10 *)

Lemma apply_matches_spec (a : AState) : forall ws invs,
  apply_matches ws a = Some invs ->
  (forall i, In i invs -> exists id, In (Some id) ws /\ nth_error (store a) id = Some (inv_value i)) /\
  (forall id m par t, In (Some id) ws -> nth_error (store a) id = Some m ->
     find_pattern (parent m) (patterns a) = Some par -> transform (pcfg par) = Some t ->
     In {| inv_transform := t; inv_match := id; inv_value := m |} invs).
Proof.
  induction ws as [|e ws IH]; intros invs H; cbn [apply_matches] in H.
  - injection H as <-. split; [intros i []|intros id m par t []].
  - destruct e as [id0|]; cbn [obind] in H; [|discriminate H].
    destruct (nth_error (store a) id0) as [m0|] eqn:Em0; cbn [obind] in H; [|discriminate H].
    destruct (find_pattern (parent m0) (patterns a)) as [par0|] eqn:Ep0; cbn [obind] in H;
      [|discriminate H].
    destruct (apply_matches ws a) as [rest|] eqn:Er; cbn [obind] in H; [|discriminate H].
    destruct (IH rest eq_refl) as [V C].
    destruct (transform (pcfg par0)) as [t0|] eqn:Et0; injection H as <-.
    + split.
      * intros i [<-|Hi]; [exists id0; split; [left; reflexivity|exact Em0]|].
        destruct (V i Hi) as [id [Hid Hs]]. exists id. split; [right; exact Hid|exact Hs].
      * intros id m par t [Hid|Hid] Hm Hp Ht.
        -- injection Hid as <-. rewrite Em0 in Hm. injection Hm as <-.
           rewrite Ep0 in Hp. injection Hp as <-. rewrite Et0 in Ht. injection Ht as <-.
           left. reflexivity.
        -- right. exact (C id m par t Hid Hm Hp Ht).
    + split.
      * intros i Hi. destruct (V i Hi) as [id [Hid Hs]]. exists id. split; [right; exact Hid|exact Hs].
      * intros id m par t [Hid|Hid] Hm Hp Ht.
        -- injection Hid as <-. rewrite Em0 in Hm. injection Hm as <-.
           rewrite Ep0 in Hp. injection Hp as <-. rewrite Et0 in Ht. discriminate Ht.
        -- exact (C id m par t Hid Hm Hp Ht).
Qed.

Lemma all_incomplete_forallb (s : Store) :
  forallb (fun m => negb (complete m)) s = true -> all_incomplete s.
Proof.
  intros H id m Hm. rewrite forallb_forall in H.
  apply nth_error_In in Hm. specialize (H m Hm). destruct (complete m); [discriminate H|reflexivity].
Qed.

(** C10. No step of the traversal sets an accumulator's [complete] flag:
    starting from a store of incomplete accumulators, every accumulator in
    the store after the traversal is still incomplete; the transforms
    invoked afterwards receive only incomplete accumulators; and every
    working-set entry whose pattern has a transform is passed to it,
    whatever response registered it (also a match cut short by the end of
    the tree after [Incomplete] responses only). *)
Theorem transforms_see_incomplete (ps : list Pattern) (s : Store) (root : Element) (md : Z)
    (a : AState) (invs : list Invocation) :
  all_incomplete s ->
  traverse ps s root md = Some a ->
  apply_matches (match_set a) a = Some invs ->
  all_incomplete (store a) /\
  Forall (fun i => complete (inv_value i) = false) invs /\
  (forall id m par t, In (Some id) (match_set a) -> nth_error (store a) id = Some m ->
     find_pattern (parent m) (patterns a) = Some par -> transform (pcfg par) = Some t ->
     In {| inv_transform := t; inv_match := id; inv_value := m |} invs).
Proof.
  intros Hs Ht Hi. unfold traverse in Ht.
  destruct (apply_rec_spec _ _ _ _ _ _ Ht) as [_ [_ [_ [_ [_ Hinc]]]]].
  assert (Ha : all_incomplete (store a)) by (apply Hinc; exact Hs).
  destruct (apply_matches_spec _ _ _ Hi) as [V C].
  split; [exact Ha|split; [|exact C]].
  rewrite Forall_forall. intros i Hin. destruct (V i Hin) as [id [_ Hid]]. exact (Ha id _ Hid).
Qed.

Lemma transforms_see_incomplete_witness :
  exists a invs,
    traverse (fst section_config) (snd section_config) flat_root 0 = Some a /\
    apply_matches (match_set a) a = Some invs /\
    invocation_paths invs = [[Some [0%nat]; Some [1%nat]; Some [2%nat]]; [Some [3%nat]; Some [4%nat]]] /\
    map snd (filter (fun e => match fst (fst e) with [3%nat] | [4%nat] => true | _ => false end)
                   (log a)) = [Completed; Incomplete; Incomplete] /\
    Forall (fun i => complete (inv_value i) = false) invs.
Proof.
  destruct (traverse (fst section_config) (snd section_config) flat_root 0) as [a|] eqn:E;
    [|vm_compute in E; discriminate E].
  destruct (apply_matches (match_set a) a) as [invs|] eqn:Ei;
    [|vm_compute in E; injection E as <-; vm_compute in Ei; discriminate Ei].
  exists a, invs.
  assert (Hs : all_incomplete (snd section_config)) by (apply all_incomplete_forallb; vm_compute; reflexivity).
  destruct (transforms_see_incomplete _ _ _ _ a invs Hs E Ei) as [_ [Hf _]].
  split; [reflexivity|split; [exact Ei|split; [|split; [|exact Hf]]]];
    vm_compute in E; injection E as <-; vm_compute in Ei; injection Ei as <-; vm_compute; reflexivity.
Defined.

(** ** Further properties of the source *)

(** *** PatternMatch.slice *)

Lemma js_rel_index_range (len x : Z) : 0 <= len -> 0 <= js_rel_index len x <= len.
Proof. intros H. unfold js_rel_index. destruct (x <? 0) eqn:E; [apply Z.ltb_lt in E|apply Z.ltb_ge in E]; lia. Qed.

(** [m.slice(0, k)] and [m.slice(k)] are new accumulators with the parent
    and the flag of [m] whose node lists, put together, are the nodes of
    [m], for every integer [k] (negative ones counting from the end); the
    accumulators already in the store are left as they were. *)
Theorem slice_split (s : Store) (id : nat) (m : PatternMatch) (k : Z) :
  nth_error s id = Some m ->
  exists s1 s2 m1 m2,
    slice s id 0 (Some k) = Some (List.length s, s1) /\
    slice s1 id k None = Some (List.length s1, s2) /\
    firstn (List.length s) s2 = s /\
    nth_error s2 (List.length s) = Some m1 /\ nth_error s2 (List.length s1) = Some m2 /\
    nodes m1 ++ nodes m2 = nodes m /\
    parent m1 = parent m /\ parent m2 = parent m /\
    complete m1 = complete m /\ complete m2 = complete m.
Proof.
  intros H.
  assert (Hlt : (id < List.length s)%nat) by (apply nth_error_Some; congruence).
  set (len := Z.of_nat (List.length (nodes m))).
  set (r := js_rel_index len k).
  assert (Hr : 0 <= r <= len) by (apply js_rel_index_range; lia).
  set (m1 := {| nodes := firstn (Z.to_nat r) (nodes m); complete := complete m; parent := parent m |}).
  set (m2 := {| nodes := skipn (Z.to_nat r) (nodes m); complete := complete m; parent := parent m |}).
  exists (s ++ [m1]), ((s ++ [m1]) ++ [m2]), m1, m2.
  assert (E1 : js_slice (nodes m) 0 (Some k) = nodes m1).
  { unfold js_slice. fold len. fold r.
    assert (Z0 : js_rel_index len 0 = 0) by (unfold js_rel_index; simpl; lia).
    rewrite Z0, Z.sub_0_r. reflexivity. }
  assert (E2 : js_slice (nodes m) k None = nodes m2).
  { unfold js_slice. fold len. fold r. simpl.
    rewrite firstn_all2; [reflexivity|]. rewrite length_skipn. unfold len in *. lia. }
  split; [unfold slice; rewrite H; cbn [obind]; unfold alloc; rewrite E1; reflexivity|].
  split.
  { unfold slice. rewrite nth_error_app1 by exact Hlt. rewrite H. cbn [obind]. unfold alloc.
    rewrite E2. reflexivity. }
  split; [rewrite <- app_assoc, firstn_app, firstn_all, Nat.sub_diag, firstn_O, app_nil_r; reflexivity|].
  split; [rewrite nth_error_app1 by (rewrite length_app; simpl; lia); apply nth_error_snoc|].
  split; [apply nth_error_snoc|].
  split; [simpl; apply firstn_skipn|].
  repeat split; reflexivity.
Qed.

Lemma slice_split_witness :
  exists s1 s2 m1 m2,
    slice [new_match 0 [INode [0%nat] (leaf "P"); INode [1%nat] (leaf "P")]] 0 0 (Some (-1)) = Some (1%nat, s1) /\
    slice s1 0 (-1) None = Some (List.length s1, s2) /\
    firstn 1 s2 = [new_match 0 [INode [0%nat] (leaf "P"); INode [1%nat] (leaf "P")]] /\
    nth_error s2 1 = Some m1 /\ nth_error s2 (List.length s1) = Some m2 /\
    nodes m1 ++ nodes m2 = [INode [0%nat] (leaf "P"); INode [1%nat] (leaf "P")] /\
    parent m1 = 0%nat /\ parent m2 = 0%nat /\ complete m1 = false /\ complete m2 = false.
Proof.
  exact (slice_split [new_match 0 [INode [0%nat] (leaf "P"); INode [1%nat] (leaf "P")]] 0
           (new_match 0 [INode [0%nat] (leaf "P"); INode [1%nat] (leaf "P")]) (-1) eq_refl).
Defined.

(** *** SequencePattern.match_seq: the cursor *)

Lemma seq_go_cursor (m : Pattern -> Store -> option (PatternMatchResponse * Pattern * Store))
    (total : nat) (reps : list (list Z)) :
  forall ps i cur cnt s r ps' cur' cnt' s',
  total = (i + List.length ps)%nat -> (i <= cur)%nat -> (cur < total)%nat ->
  seq_go m total reps i ps cur cnt s = Some (r, ps', cur', cnt', s') ->
  (cur <= cur' <= total)%nat /\ List.length ps' = List.length ps /\
  (is_match_or_completed r = true <-> cur' = total).
Proof.
  induction ps as [|p0 ps IH]; intros i cur cnt s r ps' cur' cnt' s' Ht Hi Hc E;
    cbn [seq_go] in E; [discriminate E|].
  cbn [List.length] in Ht.
  destruct (i <? cur)%nat eqn:Eic.
  - apply Nat.ltb_lt in Eic.
    destruct (seq_go m total reps (S i) ps cur cnt s) as [[[[[r2 ps2] cur2] cnt2] s2]|] eqn:E2;
      cbn [obind] in E; [|discriminate E].
    injection E as <- <- <- <- <-.
    destruct (IH (S i) cur cnt s r2 ps2 cur2 cnt2 s2 ltac:(lia) ltac:(lia) Hc E2) as [H1 [H2 H3]].
    split; [exact H1|split; [simpl; rewrite H2; reflexivity|exact H3]].
  - apply Nat.ltb_ge in Eic.
    destruct (m p0 s) as [[[resp p0'] s1]|] eqn:Em; cbn [obind] in E; [|discriminate E].
    destruct (seq_bounds reps cur) as [[minc maxc]|]; cbn [obind] in E; [|discriminate E].
    destruct (resp_eqb resp NonMatching && js_ge cnt minc).
    + destruct (total <=? S cur)%nat eqn:Et.
      * injection E as <- <- <- <- <-. apply Nat.leb_le in Et.
        split; [lia|split; [reflexivity|]]. split; [intros _; lia|intros _; reflexivity].
      * apply Nat.leb_gt in Et.
        destruct (seq_go m total reps (S i) ps (S cur) 0 s1) as [[[[[r2 ps2] cur2] cnt2] s2]|] eqn:E2;
          cbn [obind] in E; [|discriminate E].
        injection E as <- <- <- <- <-.
        destruct (IH (S i) (S cur) 0 s1 r2 ps2 cur2 cnt2 s2 ltac:(lia) ltac:(lia) Et E2) as [H1 [H2 H3]].
        split; [lia|split; [simpl; rewrite H2; reflexivity|exact H3]].
    + destruct (is_match_or_completed resp) eqn:Emc.
      * destruct (js_pos maxc && js_ge (cnt + 1) maxc);
          [destruct (total <=? S cur)%nat eqn:Et|destruct (total <=? cur)%nat eqn:Et];
          injection E as <- <- <- <- <-;
          [apply Nat.leb_le in Et|apply Nat.leb_gt in Et|apply Nat.leb_le in Et|apply Nat.leb_gt in Et];
          (split; [lia|split; [reflexivity|]]); simpl;
          (split; [intros H; try discriminate H; lia|intros H; try reflexivity; lia]).
      * injection E as <- <- <- <- <-.
        split; [lia|split; [reflexivity|]]. rewrite Emc. split; [intros H; discriminate H|lia].
Qed.

(** A [SequencePattern] whose cursor is on one of its children keeps it on
    a child or moves it to the end, never backwards, and keeps its children
    list; it answers [Matching] or [Completed] exactly when the call left it
    exhausted ([cur] equal to the number of children). *)
Theorem sequence_cursor (st : PatternState) (cur : nat) (cnt : Z) (ps : list Pattern)
    (reps : list (list Z)) (el : Element) (pth : path) (d : option Z) (s : Store)
    (r : PatternMatchResponse) (p' : Pattern) (s' : Store) :
  (cur < List.length ps)%nat ->
  matches (Pat st (SequenceK cur cnt ps reps)) el pth d s = Some (r, p', s') ->
  exists cur' cnt' ps', pkind p' = SequenceK cur' cnt' ps' reps /\
    (cur <= cur' <= List.length ps)%nat /\ List.length ps' = List.length ps /\
    ((r = Matching \/ r = Completed) <-> cur' = List.length ps).
Proof.
  intros Hc E. rewrite matches_eq in E. destruct (short_circuits st d).
  - injection E as <- <- _. exists cur, cnt, ps. split; [reflexivity|].
    split; [lia|split; [reflexivity|]]. split; [intros [H|H]; discriminate H|lia].
  - cbn [run_matcher] in E.
    destruct (seq_go (fun q => matches q el pth d) (List.length ps) reps 0 ps cur cnt s)
      as [[[[[r1 ps1] cur1] cnt1] s1]|] eqn:Es; cbn [obind] in E; [|discriminate E].
    destruct (record_match st r1 el pth d s1) as [[st2 s2]|]; cbn [obind] in E; [|discriminate E].
    injection E as <- <- _.
    destruct (seq_go_cursor _ _ _ ps 0 cur cnt s r1 ps1 cur1 cnt1 s1 eq_refl ltac:(lia) Hc Es) as [H1 [H2 H3]].
    exists cur1, cnt1, ps1. split; [reflexivity|]. split; [exact H1|split; [exact H2|]].
    rewrite <- H3. unfold is_match_or_completed.
    destruct r1; simpl; split; intros H; try reflexivity; try discriminate H;
      try (destruct H as [H|H]; discriminate H); auto.
Qed.

Lemma sequence_cursor_witness :
  exists r p' s',
    (0 < List.length [fst tag_p])%nat /\
    matches (Pat (pstate (fst section_config_head)) (SequenceK 0 0 [fst tag_p] [[1]]))
      (leaf "P") [0%nat] (Some 0) (snd section_config_head) = Some (r, p', s') /\
    r = Matching /\ seq_cursor p' = Some 1%nat.
Proof.
  destruct (matches (Pat (pstate (fst section_config_head)) (SequenceK 0 0 [fst tag_p] [[1]]))
      (leaf "P") [0%nat] (Some 0) (snd section_config_head)) as [[[r p'] s']|] eqn:E;
    [|vm_compute in E; discriminate E].
  exists r, p', s'.
  destruct (sequence_cursor _ 0 0 [fst tag_p] [[1]] _ _ _ _ r p' s' ltac:(simpl; lia) E)
    as [cur' [cnt' [ps' [K _]]]].
  split; [simpl; lia|split; [reflexivity|]].
  vm_compute in E. injection E as <- <- _. split; reflexivity.
Defined.

Lemma seq_go_past (m : Pattern -> Store -> option (PatternMatchResponse * Pattern * Store))
    (total : nat) (reps : list (list Z)) :
  forall ps i cur cnt s, (i + List.length ps <= cur)%nat ->
  seq_go m total reps i ps cur cnt s = None.
Proof.
  induction ps as [|p0 ps IH]; intros i cur cnt s H; cbn [seq_go]; [reflexivity|].
  cbn [List.length] in H.
  replace (i <? cur)%nat with true by (symmetry; apply Nat.ltb_lt; lia).
  rewrite (IH (S i) cur cnt s) by lia. reflexivity.
Qed.

(** An exhausted [SequencePattern] (its cursor at or past the number of
    its children) that passes its short-circuit checks throws on any node
    it is offered: [this.patterns[this.cur]] is [undefined]. *)
Theorem exhausted_sequence_throws (st : PatternState) (cur : nat) (cnt : Z)
    (ps : list Pattern) (reps : list (list Z)) (el : Element) (pth : path) (d : option Z)
    (s : Store) :
  (List.length ps <= cur)%nat -> short_circuits st d = false ->
  matches (Pat st (SequenceK cur cnt ps reps)) el pth d s = None.
Proof.
  intros Hc Hs. rewrite matches_eq, Hs. cbn [run_matcher].
  rewrite seq_go_past by (simpl; exact Hc). reflexivity.
Qed.

Lemma exhausted_sequence_throws_witness :
  exists a st cur cnt ps reps,
    traverse (fst nested_sequence_config) (snd nested_sequence_config) one_p_root 0 = Some a /\
    patterns a = [Pat (pstate (hd (fst tag_p) (patterns a)))
                      (AllK [Pat st (SequenceK cur cnt ps reps)])] /\
    (List.length ps <= cur)%nat /\ short_circuits st (Some 0) = false /\
    matches (Pat st (SequenceK cur cnt ps reps)) (leaf "P") [1%nat] (Some 0) (store a) = None /\
    traverse (fst nested_sequence_config) (snd nested_sequence_config) two_p_root 0 = None.
Proof.
  destruct (traverse (fst nested_sequence_config) (snd nested_sequence_config) one_p_root 0)
    as [a|] eqn:E; [|vm_compute in E; discriminate E].
  exists a. pose proof E as E'. vm_compute in E'. injection E' as Ea. subst a.
  do 5 eexists. split; [exact E|]. split; [reflexivity|].
  split; [simpl; lia|]. split; [vm_compute; reflexivity|].
  split; [apply exhausted_sequence_throws; [simpl; lia|vm_compute; reflexivity]|].
  vm_compute. reflexivity.
Defined.

(** *** AllPattern.match_all and AnyPattern.match_any *)

Lemma all_go_spec (m : Pattern -> Store -> option (PatternMatchResponse * Pattern * Store)) :
  forall ps r0 s r ps' s', all_go m ps r0 s = Some (r, ps', s') ->
  (ps = [] /\ ps' = [] /\ r = r0 /\ s' = s) \/
  exists pre pre' q q' post s1,
    ps = pre ++ q :: post /\ offered_all m (fun r => r = Matching) pre pre' s s1 /\
    m q s1 = Some (r, q', s') /\
    ((r <> Matching /\ ps' = pre' ++ q' :: post) \/ (r = Matching /\ post = [] /\ ps' = pre' ++ [q'])).
Proof.
  induction ps as [|q ps IH]; intros r0 s r ps' s' E; cbn [all_go] in E.
  - injection E as <- <- <-. left. auto.
  - right. destruct (m q s) as [[[r1 q1] s1]|] eqn:E1; cbn [obind] in E; [|discriminate E].
    destruct (resp_eqb r1 Matching) eqn:Er.
    + destruct (all_go m ps r1 s1) as [[[r2 ps2] s2]|] eqn:E2; cbn [obind] in E; [|discriminate E].
      injection E as <- <- <-. unfold resp_eqb in Er.
      destruct (resp_eq_dec r1 Matching) as [->|]; [|discriminate Er].
      destruct (IH _ _ _ _ _ E2) as [[-> [-> [-> ->]]]|[pre [pre' [q0 [q0' [post [s0 [Hp [Ho [Hm Hc]]]]]]]]]].
      * exists [], [], q, q1, [], s. split; [reflexivity|]. split; [constructor|].
        split; [exact E1|]. right. auto.
      * exists (q :: pre), (q1 :: pre'), q0, q0', post, s0.
        split; [rewrite Hp; reflexivity|]. split; [econstructor; [exact E1|reflexivity|exact Ho]|].
        split; [exact Hm|]. destruct Hc as [[Hn ->]|[Hr [-> ->]]]; [left|right]; auto.
    + cbn [negb] in E. injection E as <- <- <-.
      exists [], [], q, q1, ps, s. split; [reflexivity|]. split; [constructor|].
      split; [exact E1|]. left. split; [|reflexivity].
      intros ->. discriminate Er.
Qed.

Lemma any_stop_cases (r : PatternMatchResponse) :
  (negb (resp_eqb r NonMatching) && negb (resp_eqb r Unapplied) = true /\
   r <> NonMatching /\ r <> Unapplied) \/
  (negb (resp_eqb r NonMatching) && negb (resp_eqb r Unapplied) = false /\
   (r = NonMatching \/ r = Unapplied)).
Proof.
  destruct r; [left|right|left|left|left|right]; (split; [reflexivity|]);
    first [split; discriminate | left; reflexivity | right; reflexivity].
Qed.

Lemma any_go_spec (m : Pattern -> Store -> option (PatternMatchResponse * Pattern * Store)) :
  forall ps r0 s r ps' s', any_go m ps r0 s = Some (r, ps', s') ->
  (ps = [] /\ ps' = [] /\ r = r0 /\ s' = s) \/
  exists pre pre' q q' post s1,
    ps = pre ++ q :: post /\
    offered_all m (fun r => r = NonMatching \/ r = Unapplied) pre pre' s s1 /\
    m q s1 = Some (r, q', s') /\
    ((r <> NonMatching /\ r <> Unapplied /\ ps' = pre' ++ q' :: post) \/
     ((r = NonMatching \/ r = Unapplied) /\ post = [] /\ ps' = pre' ++ [q'])).
Proof.
  induction ps as [|q ps IH]; intros r0 s r ps' s' E; cbn [any_go] in E.
  - injection E as <- <- <-. left. auto.
  - right. destruct (m q s) as [[[r1 q1] s1]|] eqn:E1; cbn [obind] in E; [|discriminate E].
    destruct (any_stop_cases r1) as [[Es [Hn1 Hn2]]|[Es HR]]; rewrite Es in E.
    + injection E as <- <- <-.
      exists [], [], q, q1, ps, s. split; [reflexivity|]. split; [constructor|].
      split; [exact E1|]. left. auto.
    + destruct (any_go m ps r1 s1) as [[[r2 ps2] s2]|] eqn:E2; cbn [obind] in E; [|discriminate E].
      injection E as <- <- <-.
      destruct (IH _ _ _ _ _ E2) as [[-> [-> [-> ->]]]|[pre [pre' [q0 [q0' [post [s0 [Hp [Ho [Hm Hc]]]]]]]]]].
      * exists [], [], q, q1, [], s. split; [reflexivity|]. split; [constructor|].
        split; [exact E1|]. right. auto.
      * exists (q :: pre), (q1 :: pre'), q0, q0', post, s0.
        split; [rewrite Hp; reflexivity|]. split; [econstructor; [exact E1|exact HR|exact Ho]|].
        split; [exact Hm|]. destruct Hc as [[Hn1 [Hn2 ->]]|[Hr [-> ->]]]; [left|right]; auto.
Qed.

(** An [AllPattern] that passes its own checks offers the node to its
    children in order while they answer [Matching]; it stops at the first
    child answering anything else, answers that response and leaves the
    later children as they were; it answers [Matching] only when every child
    did, and always when it has no children.  The bookkeeping of its own
    [matches] then runs on that response. *)
Theorem all_pattern_spec (st : PatternState) (ps : list Pattern) (el : Element) (pth : path)
    (d : option Z) (s : Store) (r : PatternMatchResponse) (p' : Pattern) (s' : Store) :
  short_circuits st d = false ->
  matches (Pat st (AllK ps)) el pth d s = Some (r, p', s') ->
  exists ps' s1, pkind p' = AllK ps' /\ record_match st r el pth d s1 = Some (pstate p', s') /\
  ((ps = [] /\ ps' = [] /\ r = Matching /\ s1 = s) \/
   exists pre pre' q q' post s0,
     ps = pre ++ q :: post /\
     offered_all (fun q => matches q el pth d) (fun r => r = Matching) pre pre' s s0 /\
     matches q el pth d s0 = Some (r, q', s1) /\
     ((r <> Matching /\ ps' = pre' ++ q' :: post) \/ (r = Matching /\ post = [] /\ ps' = pre' ++ [q']))).
Proof.
  intros Hs E. rewrite matches_eq, Hs in E. cbn [run_matcher] in E.
  destruct (all_go (fun q => matches q el pth d) ps Matching s) as [[[r1 ps1] s1]|] eqn:Ea;
    cbn [obind] in E; [|discriminate E].
  destruct (record_match st r1 el pth d s1) as [[st2 s2]|] eqn:Er; cbn [obind] in E; [|discriminate E].
  injection E as <- <- <-.
  exists ps1, s1. split; [reflexivity|]. split; [exact Er|].
  exact (all_go_spec _ _ _ _ _ _ _ Ea).
Qed.

Lemma all_pattern_spec_witness :
  exists r p' s',
    short_circuits (pstate (hd (fst tag_p) (fst nested_sequence_config))) (Some 0) = false /\
    matches (hd (fst tag_p) (fst nested_sequence_config)) (leaf "P") [0%nat] (Some 0)
      (snd nested_sequence_config) = Some (r, p', s') /\ r = Matching.
Proof.
  destruct (matches (hd (fst tag_p) (fst nested_sequence_config)) (leaf "P") [0%nat] (Some 0)
      (snd nested_sequence_config)) as [[[r p'] s']|] eqn:E; [|vm_compute in E; discriminate E].
  exists r, p', s'.
  assert (Hs : short_circuits (pstate (hd (fst tag_p) (fst nested_sequence_config))) (Some 0) = false)
    by (vm_compute; reflexivity).
  assert (HP : hd (fst tag_p) (fst nested_sequence_config) =
               Pat (pstate (hd (fst tag_p) (fst nested_sequence_config)))
                   (match pkind (hd (fst tag_p) (fst nested_sequence_config)) with AllK ps => AllK ps | k => k end))
    by (vm_compute; reflexivity).
  pose proof E as E0. rewrite HP in E0. cbn -[matches] in E0.
  destruct (all_pattern_spec _ _ _ _ _ _ r p' s' Hs E0) as [ps' [s1 [K _]]].
  split; [exact Hs|split; [reflexivity|]].
  vm_compute in E. injection E as <- _ _. reflexivity.
Defined.

Lemma any_pattern_spec_aux (st : PatternState) (ps : list Pattern) (el : Element) (pth : path)
    (d : option Z) (s : Store) (r : PatternMatchResponse) (p' : Pattern) (s' : Store) :
  short_circuits st d = false ->
  matches (Pat st (AnyK ps)) el pth d s = Some (r, p', s') ->
  exists ps' s1, pkind p' = AnyK ps' /\ record_match st r el pth d s1 = Some (pstate p', s') /\
  ((ps = [] /\ ps' = [] /\ r = Matching /\ s1 = s) \/
   exists pre pre' q q' post s0,
     ps = pre ++ q :: post /\
     offered_all (fun q => matches q el pth d) (fun r => r = NonMatching \/ r = Unapplied)
       pre pre' s s0 /\
     matches q el pth d s0 = Some (r, q', s1) /\
     ((r <> NonMatching /\ r <> Unapplied /\ ps' = pre' ++ q' :: post) \/
      ((r = NonMatching \/ r = Unapplied) /\ post = [] /\ ps' = pre' ++ [q']))).
Proof.
  intros Hs E. rewrite matches_eq, Hs in E. cbn [run_matcher] in E.
  destruct (any_go (fun q => matches q el pth d) ps Matching s) as [[[r1 ps1] s1]|] eqn:Ea;
    cbn [obind] in E; [|discriminate E].
  destruct (record_match st r1 el pth d s1) as [[st2 s2]|] eqn:Er; cbn [obind] in E; [|discriminate E].
  injection E as <- <- <-.
  exists ps1, s1. split; [reflexivity|]. split; [exact Er|].
  exact (any_go_spec _ _ _ _ _ _ _ Ea).
Qed.

(** An [AnyPattern] that passes its own checks offers the node to its
    children in order while they answer [NonMatching] or [Unapplied]; the
    first child answering anything else ([Matching], [Incomplete],
    [Completed] or [Break]) decides its response and the later children are
    left as they were; when no child does, it answers the last child's
    response, and it answers [Matching] when it has no children. *)
Theorem any_pattern_spec (st : PatternState) (ps : list Pattern) (el : Element) (pth : path)
    (d : option Z) (s : Store) (r : PatternMatchResponse) (p' : Pattern) (s' : Store) :
  short_circuits st d = false ->
  matches (Pat st (AnyK ps)) el pth d s = Some (r, p', s') ->
  exists ps' s1, pkind p' = AnyK ps' /\ record_match st r el pth d s1 = Some (pstate p', s') /\
  ((ps = [] /\ ps' = [] /\ r = Matching /\ s1 = s) \/
   exists pre pre' q q' post s0,
     ps = pre ++ q :: post /\
     offered_all (fun q => matches q el pth d) (fun r => r = NonMatching \/ r = Unapplied)
       pre pre' s s0 /\
     matches q el pth d s0 = Some (r, q', s1) /\
     ((r <> NonMatching /\ r <> Unapplied /\ ps' = pre' ++ q' :: post) \/
      ((r = NonMatching \/ r = Unapplied) /\ post = [] /\ ps' = pre' ++ [q']))).
Proof. intros; eapply any_pattern_spec_aux; eassumption. Qed.

Lemma any_pattern_spec_witness :
  exists st q r p' s',
    fst any_tag_p = Pat st (AnyK [q]) /\ short_circuits st (Some 0) = false /\
    matches (Pat st (AnyK [q])) (leaf "P") [0%nat] (Some 0) (snd any_tag_p) = Some (r, p', s') /\
    r = Matching /\
    exists q' s1, matches q (leaf "P") [0%nat] (Some 0) (snd any_tag_p) = Some (Matching, q', s1) /\
      pkind p' = AnyK [q'].
Proof.
  destruct (fst any_tag_p) as [st k] eqn:Ep.
  pose proof Ep as Ep'. vm_compute in Ep'. injection Ep' as Est Ek.
  rewrite <- Ek in Ep |- *. clear Ek.
  match type of Ep with _ = Pat _ (AnyK [?c]) => set (q := c) in Ep |- * end.
  destruct (matches (Pat st (AnyK [q])) (leaf "P") [0%nat] (Some 0) (snd any_tag_p))
    as [[[r p'] s']|] eqn:E; [|rewrite <- Est in E; vm_compute in E; discriminate E].
  assert (Hs : short_circuits st (Some 0) = false) by (rewrite <- Est; vm_compute; reflexivity).
  assert (Hr : r = Matching) by (rewrite <- Est in E; vm_compute in E; injection E as <- _ _; reflexivity).
  exists st, q, r, p', s'. split; [reflexivity|]. split; [exact Hs|]. split; [exact E|].
  split; [exact Hr|].
  destruct (any_pattern_spec st [q] _ _ _ _ r p' s' Hs E)
    as [ps' [s1 [Hk [_ [[Hn _]|[pre [pre' [q0 [q' [post [s0 [Hp [Ho [Hq Hc]]]]]]]]]]]]]];
    [discriminate Hn|].
  destruct pre as [|x pre]; [|destruct pre; discriminate Hp].
  injection Hp as <- <-. inversion Ho; subst.
  exists q', s1. split; [exact Hq|].
  destruct Hc as [[_ [_ ->]]|[[Hc|Hc] _]]; [exact Hk|discriminate Hc|discriminate Hc].
Defined.

(** *** ExceptPattern and PatternTest *)

Lemma fresh_no_short_circuit (c : PatternConfig) (m : option nat) (d : option Z) :
  absolute_depth c < 0 -> applications c <> 0 ->
  short_circuits {| cfg := c; match_ := m; _cur_depth := Some (-1); _applied := 0 |} d = false.
Proof.
  intros Ha Hp. unfold short_circuits, abs_depth_exceeded, applications_exhausted,
    depth_window_exceeded; cbn [cfg _applied _cur_depth].
  replace (0 <=? absolute_depth c) with false by (symmetry; apply Z.leb_gt; lia).
  replace ((0 <=? applications c) && (applications c <=? 0)) with false
    by (destruct (0 <=? applications c) eqn:E1; [apply Z.leb_le in E1|reflexivity];
        symmetry; apply Z.leb_gt; lia).
  destruct d; reflexivity.
Qed.

Lemma record_match_no_match (st : PatternState) (r : PatternMatchResponse) (el : Element)
    (pth : path) (d : option Z) (s : Store) :
  match_ st = None -> exists st', record_match st r el pth d s = Some (st', s).
Proof.
  intros H. unfold record_match. rewrite H.
  destruct (resp_eqb r Matching || resp_eqb r Incomplete); cbn [obind]; eexists; reflexivity.
Qed.

(** [new PatternTest(pattern, test)] with a [Pattern] argument stores a
    [null] [must_match], as does an array of fewer than two patterns, and
    such a pattern throws on every node it does not skip; with an array
    [[P0, Q, ...]] it answers [Q]'s response, turned into [NonMatching] when
    [Q] answers [Matching] or [Completed] and [test] rejects the node;
    [P0] is never used. *)
Theorem pattern_test_arguments (test : Element -> bool) (o : Options) (h : Heap)
    (el : Element) (pth : path) (d : option Z) (s : Store) :
  o_applications o <> 0 ->
  (forall p, matches (fst (PatternTest (PSingle p) test o h)) el pth d s = None) /\
  (forall ps, (List.length ps < 2)%nat ->
     matches (fst (PatternTest (PArray ps) test o h)) el pth d s = None) /\
  (forall p0 q rest,
     response_of (matches (fst (PatternTest (PArray (p0 :: q :: rest)) test o h)) el pth d s) =
     option_map (fun x => match_test (fst (fst x)) (test el)) (matches (disable_handling q) el pth d s)).
Proof.
  intros Ho.
  assert (Hs : forall k, matches (fst (PatternTest k test o h)) el pth d s =
    '(matched, k', s1) <- run_matcher (pkind (fst (PatternTest k test o h))) el pth d s ;;
    '(st', s2) <- record_match (pstate (fst (PatternTest k test o h))) matched el pth d s1 ;;
    Some (matched, Pat st' k', s2)).
  { intros k. unfold PatternTest, new_pattern. cbn beta iota zeta delta [fst pstate pkind]. rewrite matches_eq.
    rewrite fresh_no_short_circuit; [reflexivity|unfold DefaultAbsDepth; simpl; lia|exact Ho]. }
  split; [|split].
  - intros p. rewrite Hs. reflexivity.
  - intros ps Hl. rewrite Hs. unfold PatternTest, new_pattern. cbn [fst pkind].
    replace (nth_error ps 1) with (@None Pattern) by (symmetry; apply nth_error_None; lia).
    reflexivity.
  - intros p0 q rest. rewrite Hs. unfold PatternTest, new_pattern. cbn [fst pkind pstate nth_error option_map].
    cbn [run_matcher].
    destruct (matches (disable_handling q) el pth d s) as [[[rq q'] s1]|]; cbn [obind]; [|reflexivity].
    match goal with |- context [record_match ?st0 ?r0 el pth d s1] =>
      destruct (record_match_no_match st0 r0 el pth d s1 eq_refl) as [st' Er]; rewrite Er
    end.
    reflexivity.
Qed.

Lemma pattern_test_arguments_witness :
  o_applications composite_defaults <> 0 /\
  matches (fst (PatternTest (PSingle (fst tag_p)) (fun _ => true) composite_defaults empty_heap))
    (leaf "P") [0%nat] (Some 0) [] = None.
Proof.
  split; [unfold composite_defaults, mk_options, DefaultApplications; simpl; lia|].
  apply (pattern_test_arguments (fun _ => true) composite_defaults empty_heap (leaf "P") [0%nat]
           (Some 0) [] ltac:(unfold composite_defaults, mk_options, DefaultApplications; simpl; lia)).
Defined.

(** *** ClassPattern *)

(** A fresh [ClassPattern(classes)] (non-exact, [all], with its own
    accumulator, no absolute depth, no cap reached) answers [Matching] to a
    node exactly when every class is a substring of the node's [className]
    (not necessarily a whole class token), and [NonMatching] otherwise; it
    matches every node when [classes] is empty. *)
Theorem class_pattern_substrings (cls : list string) (o : Options) (h : Heap) (el : Element)
    (pth : path) (d : option Z) :
  o_exact o = false -> o_all o = true -> o_manage_match o = true ->
  o_absolute_depth o < 0 -> o_applications o <> 0 ->
  exists r p' s',
    matches (fst (ClassPattern cls o h)) el pth d (heap_store (snd (ClassPattern cls o h))) =
      Some (r, p', s') /\
    ((r = Matching /\ Forall (contains (className el)) cls) \/
     (r = NonMatching /\ ~ Forall (contains (className el)) cls)).
Proof.
  intros He Hal Hm Had Hap.
  unfold ClassPattern, SimplePattern, new_pattern, alloc. rewrite He, Hal, Hm.
  cbn beta iota zeta delta [fst snd heap_store]. rewrite matches_eq, fresh_no_short_circuit by (simpl; lia).
  cbn [run_matcher]. unfold match_field. cbn [negb].
  assert (Hf : field_of el "className" = Some (className el)) by (destruct el; reflexivity).
  rewrite Hf.
  assert (Hpush : forall r, exists st' s', record_match
      {| cfg := {| pid := next_pid h; priority := o_priority o; compounds := o_compounds o;
                   terminal := o_terminal o; open_ended := o_open_ended o; depth := o_depth o;
                   absolute_depth := o_absolute_depth o; transform := o_transform o;
                   applications := o_applications o |};
         match_ := Some (List.length (heap_store h)); _cur_depth := Some (-1); _applied := 0 |}
      r el pth d (heap_store h ++ [new_match (next_pid h) []]) = Some (st', s')).
  { intros r. unfold record_match. destruct (resp_eqb r Matching || resp_eqb r Incomplete);
      [|do 2 eexists; reflexivity].
    unfold store_push. cbn [match_]. rewrite nth_error_snoc. cbn [obind]. do 2 eexists. reflexivity. }
  destruct (match_all_options_spec (className el) cls false) as [[E F]|[E F]]; rewrite E; cbn [obind].
  - destruct (Hpush Matching) as [st' [s' Er]]. rewrite Er. cbn [obind].
    do 3 eexists. split; [reflexivity|]. left. split; [reflexivity|exact F].
  - destruct (Hpush NonMatching) as [st' [s' Er]]. rewrite Er. cbn [obind].
    do 3 eexists. split; [reflexivity|]. right. split; [reflexivity|exact F].
Qed.

Lemma class_pattern_substrings_witness :
  exists r p' s',
    matches (fst (ClassPattern ["btn"%string] class_defaults empty_heap)) (Elem "DIV" "btn-primary" [])
      [0%nat] (Some 0) (heap_store (snd (ClassPattern ["btn"%string] class_defaults empty_heap))) =
      Some (r, p', s') /\
    ((r = Matching /\ Forall (contains (className (Elem "DIV" "btn-primary" []))) ["btn"%string]) \/
     (r = NonMatching /\ ~ Forall (contains (className (Elem "DIV" "btn-primary" []))) ["btn"%string])) /\
    r = Matching.
Proof.
  destruct (class_pattern_substrings ["btn"%string] class_defaults empty_heap (Elem "DIV" "btn-primary" [])
              [0%nat] (Some 0) eq_refl eq_refl eq_refl
              ltac:(unfold class_defaults, mk_options, DefaultAbsDepth; simpl; lia)
              ltac:(unfold class_defaults, mk_options, DefaultApplications; simpl; lia))
    as [r [p' [s' [E H]]]].
  exists r, p', s'. split; [exact E|split; [exact H|]].
  vm_compute in E. injection E as <- _ _. reflexivity.
Defined.

(** *** Annotator._match_node: the response it returns *)

Lemma match_step_last (j : nat) (node : Element) (pth : path) (d : Z) (a : AState)
    (resp : PatternMatchResponse) (bf : bool) (a' : AState) :
  match_step j node pth d a = Some (resp, bf, a') ->
  exists N, log a' = log a ++ N ++ [(pth, j, resp)].
Proof.
  unfold match_step.
  destruct (offer j node pth d a) as [[r1 a1]|] eqn:E1; cbn [obind]; [|discriminate].
  destruct (offer_spec _ _ _ _ _ _ _ E1) as [L1 _].
  destruct (nth_error (patterns a1) j) as [m1|]; cbn [obind]; [|discriminate].
  destruct (_handle_match r1 j (pmatch m1) a1) as [[[h1 b1] a2]|] eqn:H1; cbn [obind]; [|discriminate].
  destruct (handle_match_frame _ _ _ _ _ _ _ H1) as [_ [L2 _]].
  destruct (resp_eqb h1 Completed).
  - destruct (offer j node pth d a2) as [[r3 a3]|] eqn:E3; cbn [obind]; [|discriminate].
    destruct (offer_spec _ _ _ _ _ _ _ E3) as [L3 _].
    destruct (nth_error (patterns a3) j) as [m3|]; cbn [obind]; [|discriminate].
    destruct (_handle_match r3 j (pmatch m3) a3) as [[[h3 b3] a4]|] eqn:H3; cbn [obind]; [|discriminate].
    destruct (handle_match_frame _ _ _ _ _ _ _ H3) as [_ [L4 _]].
    intros E. injection E as <- _ <-. exists [(pth, j, r1)].
    rewrite L4, L3, L2, L1, <- app_assoc. reflexivity.
  - intros E. injection E as <- _ <-. exists []. rewrite L2, L1. reflexivity.
Qed.

Lemma match_loop_last (node : Element) (pth : path) (d : Z) :
  forall js resp0 a resp a', match_loop js node pth d resp0 a = Some (resp, a') ->
  (js = [] /\ resp = resp0 /\ a' = a) \/ exists N j, log a' = log a ++ N ++ [(pth, j, resp)].
Proof.
  induction js as [|j js IH]; intros resp0 a resp a' E; cbn [match_loop] in E.
  - injection E as <- <-. left. auto.
  - right. destruct (match_step j node pth d a) as [[[r1 b1] a1]|] eqn:S1; cbn [obind] in E;
      [|discriminate E].
    destruct (match_step_last _ _ _ _ _ _ _ _ S1) as [N1 L1].
    destruct b1.
    + injection E as <- <-. exists N1, j. exact L1.
    + destruct (IH _ _ _ _ E) as [[_ [-> ->]]|[N2 [j2 L2]]].
      * exists N1, j. exact L1.
      * exists (N1 ++ (pth, j, r1) :: N2), j2. rewrite L2, L1, <- !app_assoc. reflexivity.
Qed.

Lemma match_node_last_response_aux (node : Element) (pth : path) (d : Z) (a : AState)
    (resp : PatternMatchResponse) (a' : AState) :
  _match_node node pth d a = Some (resp, a') ->
  (patterns a = [] /\ resp = Matching /\ a' = a) \/
  exists N j, log a' = log a ++ N ++ [(pth, j, resp)].
Proof.
  unfold _match_node. intros E.
  destruct (match_loop_last _ _ _ _ _ _ _ _ E) as [[Hs [-> ->]]|H]; [|right; exact H].
  left. split; [|auto]. destruct (patterns a); [reflexivity|discriminate Hs].
Qed.

(** The response [_match_node] returns, which alone decides whether
    [_apply_rec] descends into the node's children, is the raw response of
    the last [pat.matches(node, depth)] call made on the node ([Matching]
    when there are no patterns), not the handled one: a terminal pattern,
    whose handled response is [Break], stops the later patterns on the node
    but not the descent; only a pattern answering [Break] itself does. *)
Theorem match_node_last_response (node : Element) (pth : path) (d : Z) (a : AState)
    (resp : PatternMatchResponse) (a' : AState) :
  _match_node node pth d a = Some (resp, a') ->
  (patterns a = [] /\ resp = Matching /\ a' = a) \/
  exists N j, log a' = log a ++ N ++ [(pth, j, resp)].
Proof. intros; eapply match_node_last_response_aux; eassumption. Qed.

Lemma match_node_last_response_witness :
  exists resp a' a,
    _match_node (Elem "PRE" "" [leaf "P"]) [0%nat] 0
      (initial_state (fst script_annotator) (snd script_annotator)) = Some (resp, a') /\
    ((patterns (initial_state (fst script_annotator) (snd script_annotator)) = [] /\
      resp = Matching /\ a' = initial_state (fst script_annotator) (snd script_annotator)) \/
     exists N j, log a' = log (initial_state (fst script_annotator) (snd script_annotator)) ++
                          N ++ [([0%nat], j, resp)]) /\
    resp = Matching /\ log a' = [([0%nat], 0%nat, NonMatching); ([0%nat], 1%nat, Matching)] /\
    map (fun p => terminal (pcfg p)) (fst script_annotator) = [false; true; false; false; false] /\
    traverse (fst script_annotator) (snd script_annotator) script_root 0 = Some a /\
    In ([0%nat; 0%nat], 0%nat, NonMatching) (log a) /\
    In ([0%nat; 0%nat], 2%nat, Matching) (log a).
Proof.
  destruct (_match_node (Elem "PRE" "" [leaf "P"]) [0%nat] 0
      (initial_state (fst script_annotator) (snd script_annotator))) as [[resp a']|] eqn:E;
    [|vm_compute in E; discriminate E].
  destruct (traverse (fst script_annotator) (snd script_annotator) script_root 0) as [a|] eqn:Et;
    [|vm_compute in Et; discriminate Et].
  exists resp, a', a. split; [reflexivity|]. split; [exact (match_node_last_response _ _ _ _ _ _ E)|].
  vm_compute in E. injection E as <- <-. vm_compute in Et. injection Et as <-.
  split; [reflexivity|]. split; [reflexivity|]. split; [reflexivity|]. split; [reflexivity|].
  split; simpl; tauto.
Defined.

(** *** Annotator._handle_match: the working set it leaves *)

Lemma filter_no_kills (l : list (option nat)) :
  filter (fun y => negb (existsb (opt_eqb y) [])) l = l.
Proof. induction l as [|y l IH]; simpl in *; congruence. Qed.

Lemma set_add_In (x : option nat) (l : list (option nat)) : In x (set_add x l).
Proof.
  unfold set_add. destruct (existsb (opt_eqb x) l) eqn:E.
  - apply existsb_opt_eqb. exact E.
  - apply in_or_app. right. left. reflexivity.
Qed.

Lemma set_add_incl (x : option nat) (l : list (option nat)) : incl l (set_add x l).
Proof.
  unfold set_add. intros y Hy. destruct (existsb (opt_eqb x) l); [exact Hy|].
  apply in_or_app. left. exact Hy.
Qed.

Lemma NoDup_nth_skipn (l : list (option nat)) (ind : nat) (x : option nat) :
  NoDup l -> nth_error l ind = Some x -> ~ In x (skipn (S ind) l).
Proof.
  intros Hd He. destruct (nth_error_split l ind He) as [l1 [l2 [-> Hl]]].
  replace (skipn (S ind) (l1 ++ x :: l2)) with l2.
  - apply NoDup_remove_2 in Hd. intros Hx. apply Hd. apply in_or_app. right. exact Hx.
  - rewrite skipn_app. subst ind. rewrite skipn_all2 by lia.
    replace (S (List.length l1) - List.length l1)%nat with 1%nat by lia. reflexivity.
Qed.

Lemma handle_ws (r : PatternMatchResponse) (j : nat) (m : option nat) (a : AState)
    (r' : PatternMatchResponse) (bf : bool) (a' : AState) :
  _handle_match r j m a = Some (r', bf, a') ->
  (r = NonMatching /\ match_set a' = set_delete m (match_set a)) \/
  ((r = Incomplete \/ r = Matching \/ r = Completed) /\
   exists kills,
     match_set a' = filter (fun y => negb (existsb (opt_eqb y) kills)) (set_add m (match_set a)) /\
     (kills = [] \/ exists ind, nth_error (set_add m (match_set a)) ind = Some m /\
                                kills = skipn (S ind) (set_add m (match_set a)))) \/
  ((r = Break \/ r = Unapplied) /\ match_set a' = match_set a).
Proof.
  intros H.
  assert (MC : forall core, (core = Matching \/ core = Completed) ->
     _handle_match core j m a = Some (r', bf, a') ->
     exists kills,
       match_set a' = filter (fun y => negb (existsb (opt_eqb y) kills)) (set_add m (match_set a)) /\
       (kills = [] \/ exists ind, nth_error (set_add m (match_set a)) ind = Some m /\
                                  kills = skipn (S ind) (set_add m (match_set a)))).
  { intros core Hc Hh.
    assert (Hh' : (pat <- nth_error (patterns a) j ;;
      let a1 := set_match_set a (set_add m (match_set a)) in
      '(a2, bf) <-
        if negb (compounds (pcfg pat)) then
          ind <- list_index m (match_set a1) ;;
          a2 <- kill_following (skipn (S ind) (match_set a1)) a1 ;;
          Some (a2, true)
        else Some (a1, false) ;;
      let '(resp, bf') := if terminal (pcfg pat) then (Break, true) else (core, bf) in
      pat2 <- nth_error (patterns a2) j ;;
      let '(pat', s', _) := reset pat2 (store a2) in
      Some (resp, bf', set_patterns a2 (set_nth j pat' (patterns a2)) s')) = Some (r', bf, a'))
      by (destruct Hc as [->| ->]; exact Hh).
    clear Hh. destruct (nth_error (patterns a) j) as [pat|] eqn:Ep; cbn [obind] in Hh';
      [|discriminate Hh'].
    cbv zeta in Hh'. destruct (compounds (pcfg pat)) eqn:Hcp; cbn [negb obind] in Hh'.
    - exists []. split; [|left; reflexivity]. rewrite filter_no_kills.
      destruct (terminal (pcfg pat)); cbn beta iota in Hh';
        destruct (handle_tail_frame _ _ _ _ _ _ _ Hh') as [_ [_ [Ews _]]]; exact Ews.
    - simpl match_set in Hh'.
      destruct (list_index m (set_add m (match_set a))) as [ind|] eqn:Ei; cbn [obind] in Hh';
        [|discriminate Hh'].
      destruct (kill_following (skipn (S ind) (set_add m (match_set a)))
                  (set_match_set a (set_add m (match_set a)))) as [a2|] eqn:Ek;
        cbn [obind] in Hh'; [|discriminate Hh'].
      destruct (kill_following_spec _ _ _ Ek) as [_ [_ [_ [Mk _]]]].
      exists (skipn (S ind) (set_add m (match_set a))). split.
      + destruct (terminal (pcfg pat)); cbn beta iota in Hh';
          destruct (handle_tail_frame _ _ _ _ _ _ _ Hh') as [_ [_ [Ews _]]];
          rewrite Ews, Mk; reflexivity.
      + right. exists ind. split; [apply list_index_spec; exact Ei|reflexivity]. }
  destruct r.
  - right. left. split; [auto|]. exact (MC Matching (or_introl eq_refl) H).
  - left. split; [reflexivity|]. cbn [_handle_match] in H.
    destruct (nth_error (patterns a) j) as [pat|]; cbn [obind] in H; [|discriminate H].
    destruct (reset pat (store a)) as [[pat' s'] o]. injection H as _ _ <-. reflexivity.
  - right. left. split; [auto|]. cbn [_handle_match] in H. injection H as _ _ <-.
    exists []. split; [rewrite filter_no_kills; reflexivity|left; reflexivity].
  - right. left. split; [auto|]. exact (MC Completed (or_intror eq_refl) H).
  - right. right. split; [auto|]. cbn [_handle_match] in H. injection H as _ _ <-. reflexivity.
  - right. right. split; [auto|]. cbn [_handle_match] in H. injection H as _ _ <-. reflexivity.
Qed.

Lemma handle_nodup (r : PatternMatchResponse) (j : nat) (m : option nat) (a : AState)
    (r' : PatternMatchResponse) (bf : bool) (a' : AState) :
  _handle_match r j m a = Some (r', bf, a') -> NoDup (match_set a) -> NoDup (match_set a').
Proof.
  intros H Hd. destruct (handle_ws _ _ _ _ _ _ _ H) as [[_ ->]|[[_ [k [-> _]]]|[_ ->]]].
  - apply NoDup_filter. exact Hd.
  - apply NoDup_filter. apply set_add_NoDup. exact Hd.
  - exact Hd.
Qed.

Lemma handle_keeps (r : PatternMatchResponse) (j : nat) (m : option nat) (a : AState)
    (r' : PatternMatchResponse) (bf : bool) (a' : AState) :
  _handle_match r j m a = Some (r', bf, a') -> NoDup (match_set a) ->
  (r = Incomplete \/ r = Matching \/ r = Completed) -> In m (match_set a').
Proof.
  intros H Hd Hr. destruct (handle_ws _ _ _ _ _ _ _ H) as [[-> _]|[[_ [k [E Hk]]]|[Hb _]]].
  - destruct Hr as [Hr|[Hr|Hr]]; discriminate Hr.
  - rewrite E. apply filter_In. split; [apply set_add_In|].
    destruct (existsb (opt_eqb m) k) eqn:Ek; [|reflexivity]. exfalso.
    apply existsb_opt_eqb in Ek. destruct Hk as [->|[ind [Hn ->]]]; [exact Ek|].
    exact (NoDup_nth_skipn _ _ _ (set_add_NoDup _ _ Hd) Hn Ek).
  - destruct Hb as [-> | ->]; destruct Hr as [Hr|[Hr|Hr]]; discriminate Hr.
Qed.

Lemma apply_matches_null (ws : list (option nat)) (a : AState) :
  In None ws -> apply_matches ws a = None.
Proof.
  induction ws as [|e ws IH]; intros Hn; [destruct Hn|].
  destruct Hn as [->|Hn]; [reflexivity|]. cbn [apply_matches].
  destruct e as [id|]; cbn [obind]; [|reflexivity].
  destruct (nth_error (store a) id); cbn [obind]; [|reflexivity].
  destruct (find_pattern _ (patterns a)); cbn [obind]; [|reflexivity].
  rewrite (IH Hn). reflexivity.
Qed.

(** A pattern whose accumulator is [null] (an [ExceptPattern] or a
    [PatternTest] with a [Matching] response, which pass [null] on as
    their match) is put into the working set by [_handle_match] on an
    [Incomplete], [Matching] or [Completed] response, and survives even its
    own kill loop; once a [null] is in the working set after the
    traversal, [apply] throws ([null.apply()]): the result is [None]. *)
Theorem null_match_spoils_apply :
  (forall (r : PatternMatchResponse) (j : nat) (a : AState)
      (r' : PatternMatchResponse) (bf : bool) (a' : AState),
     (r = Incomplete \/ r = Matching \/ r = Completed) -> NoDup (match_set a) ->
     _handle_match r j None a = Some (r', bf, a') -> In None (match_set a')) /\
  (forall (ps : list Pattern) (s : Store) (root : Element) (md : Z) (a : AState),
     traverse ps s root md = Some a -> In None (match_set a) -> apply ps s root md = None).
Proof.
  split.
  - intros r j a r' bf a' Hr Hd H. exact (handle_keeps _ _ _ _ _ _ _ H Hd Hr).
  - intros ps s root md a Ht Hn. unfold apply. rewrite Ht. cbn [obind].
    apply apply_matches_null. exact Hn.
Qed.

Lemma null_match_spoils_apply_witness :
  exists a1 r' bf a',
    _handle_match Matching 0 None (initial_state (fst except_top_config) (snd except_top_config))
      = Some (r', bf, a') /\ In None (match_set a') /\
    traverse (fst except_top_config) (snd except_top_config) one_p_root 0 = Some a1 /\
    In None (match_set a1) /\
    apply (fst except_top_config) (snd except_top_config) one_p_root 0 = None.
Proof.
  destruct (_handle_match Matching 0 None
     (initial_state (fst except_top_config) (snd except_top_config))) as [[[r' bf] a']|] eqn:Eh;
    [|vm_compute in Eh; discriminate Eh].
  destruct (traverse (fst except_top_config) (snd except_top_config) one_p_root 0) as [a1|] eqn:Et;
    [|vm_compute in Et; discriminate Et].
  assert (Hn : In None (match_set a1)) by (vm_compute in Et; injection Et as <-; simpl; auto).
  exists a1, r', bf, a'. split; [reflexivity|].
  split; [apply (proj1 null_match_spoils_apply Matching 0%nat (initial_state (fst except_top_config) (snd except_top_config)) r' bf a'); [auto|constructor|exact Eh]|].
  split; [reflexivity|]. split; [exact Hn|].
  exact (proj2 null_match_spoils_apply _ _ _ _ a1 Et Hn).
Defined.

(** *** The working set during a traversal *)

Lemma keeps_refl (s : Store) : keeps s s.
Proof. intros id m H. exists m. auto. Qed.

Lemma keeps_trans (s1 s2 s3 : Store) : keeps s1 s2 -> keeps s2 s3 -> keeps s1 s3.
Proof.
  intros K1 K2 id m H. destruct (K1 id m H) as [m2 [H2 P2]].
  destruct (K2 id m2 H2) as [m3 [H3 P3]]. exists m3. split; [exact H3|congruence].
Qed.

Lemma keeps_app (s ext : Store) : keeps s (s ++ ext).
Proof.
  intros id m H. exists m. split; [|reflexivity]. rewrite nth_error_app1; [exact H|].
  apply nth_error_Some. congruence.
Qed.

Lemma keeps_grows (s s' : Store) : grows s s' -> keeps s s'.
Proof.
  intros [_ G] id m H. destruct (G id m H) as [ns E]. eexists. split; [exact E|reflexivity].
Qed.

Lemma pat_ok_keeps (s s' : Store) (p : Pattern) : keeps s s' -> pat_ok s p -> pat_ok s' p.
Proof.
  intros K H id Hid. destruct (H id Hid) as [m [Hm Pm]]. destruct (K id m Hm) as [m' [Hm' P']].
  exists m'. split; [exact Hm'|congruence].
Qed.

Lemma top_ok_keeps (s s' : Store) (ps : list Pattern) : keeps s s' -> top_ok ps s -> top_ok ps s'.
Proof. intros K H. eapply Forall_impl; [|exact H]. intros p. apply pat_ok_keeps. exact K. Qed.

Lemma ws_ok_keeps (cs : list PatternConfig) (s s' : Store) (ws : list (option nat)) :
  keeps s s' -> ws_ok cs s ws -> ws_ok cs s' ws.
Proof.
  intros K H id Hid. destruct (H id Hid) as [m [c [Hm [Hc Pc]]]].
  destruct (K id m Hm) as [m' [Hm' P']]. exists m', c. split; [exact Hm'|]. split; [exact Hc|congruence].
Qed.

Lemma ws_ok_incl (cs : list PatternConfig) (s : Store) (ws ws' : list (option nat)) :
  incl ws' ws -> ws_ok cs s ws -> ws_ok cs s ws'.
Proof. intros I H id Hid. apply H. apply I. exact Hid. Qed.

Lemma Forall_set_nth {A : Type} (P : A -> Prop) (n : nat) (x : A) (l : list A) :
  Forall P l -> P x -> Forall P (set_nth n x l).
Proof.
  revert n; induction l as [|y l IH]; intros [|n] H Hx; simpl; auto.
  - inversion H; subst. constructor; assumption.
  - inversion H; subst. constructor; [assumption|apply IH; assumption].
Qed.

Lemma top_okb_spec (ps : list Pattern) (s : Store) : top_okb ps s = true -> top_ok ps s.
Proof.
  unfold top_okb, top_ok. intros H. apply Forall_forall. intros p Hp id Hid.
  rewrite forallb_forall in H. specialize (H p Hp). rewrite Hid in H.
  destruct (nth_error s id) as [m|]; [|discriminate H].
  exists m. split; [reflexivity|]. apply Nat.eqb_eq. exact H.
Qed.

(** [reset()] leaves a live accumulator owned by the pattern *)
Lemma reset_shape (p : Pattern) (s : Store) :
  let '(p', s', old) := reset p s in
  old = pmatch p /\ pcfg p' = pcfg p /\ _applied (pstate p') = _applied (pstate p) /\
  applications_exhausted (pstate p') = applications_exhausted (pstate p) /\
  (exists ext, s' = s ++ ext) /\
  match pkind p with
  | AnyK ps =>
      exists ps' w, pkind p' = AnyK ps' /\ Forall2 same_counters ps ps' /\
        _cur_depth (pstate p') = _cur_depth (pstate p) /\
        pmatch p' = Some w /\
        nth_error s' w = Some (new_match (pid (pcfg p)) (map (fun q => IMatch (pmatch q)) ps'))
  | k =>
      _cur_depth (pstate p') = Some (-1) /\
      pkind p' = match k with SequenceK _ _ ps reps => SequenceK 0 0 ps reps | _ => k end /\
      (pmatch p = None -> pmatch p' = None) /\
      (pmatch p <> None -> pmatch p' = Some (List.length s) /\
         nth_error s' (List.length s) = Some (new_match (pid (pcfg p)) []))
  end.
Proof.
  pose proof (reset_ok_all p s) as [Ho [[Hc Ha] He]].
  destruct (reset p s) as [[p' s'] old] eqn:R. simpl in Ho, Hc, Ha, He.
  split; [exact Ho|]. split; [exact Hc|]. split; [exact Ha|].
  split; [unfold applications_exhausted; unfold pcfg in Hc; rewrite Hc, Ha; reflexivity|].
  split; [exact He|].
  destruct p as [st k]. unfold pmatch, pcfg; simpl.
  destruct k as [| c n ps reps | | | ps | |]; cbn [reset] in R;
    try (unfold base_reset in R; destruct (match_ st) as [id|];
         injection R as <- <- <-; simpl;
         (split; [reflexivity|]); (split; [reflexivity|]);
         (split; [congruence|]);
         first [ intros _; split; [reflexivity | apply nth_error_snoc]
               | intros H; exfalso; apply H; reflexivity ]).
  destruct (reset_each_ok ps s (KindAll_of reset_ok (AnyK ps) reset_ok_all))
    as [C _].
  destruct (reset_each reset ps s) as [ps' s1].
  injection R as <- <- <-. simpl in C |- *.
  exists ps', (List.length s1). split; [reflexivity|]. split; [exact C|].
  split; [reflexivity|]. split; [reflexivity|]. apply nth_error_snoc.
Qed.

Lemma reset_pat_ok (p : Pattern) (s : Store) :
  pat_ok (snd (fst (reset p s))) (fst (fst (reset p s))).
Proof.
  pose proof (reset_shape p s) as H. destruct (reset p s) as [[p' s'] old].
  destruct H as [_ [Hc [_ [_ [_ Hk]]]]]. simpl. intros id Hid. rewrite Hc.
  destruct p as [st k]. unfold pkind, pmatch in *. cbn [pstate] in *.
  destruct k; cbn iota in Hk;
    try (destruct Hk as [_ [_ [Hn Hs]]]; destruct (match_ st) as [x|] eqn:Ep;
         [ destruct (Hs ltac:(discriminate)) as [E1 E2]; rewrite E1 in Hid;
           injection Hid as <-; eexists; split; [exact E2|reflexivity]
         | rewrite (Hn eq_refl) in Hid; discriminate Hid ]).
  destruct Hk as [ps' [w [_ [_ [_ [Hw Hs]]]]]]. rewrite Hw in Hid. injection Hid as <-.
  eexists. split; [exact Hs|reflexivity].
Qed.

Lemma reset_owner_ok (q : nat) (ps : list Pattern) (s : Store) (ps' : list Pattern) (s' : Store) :
  reset_owner q ps s = Some (ps', s') -> top_ok ps s -> top_ok ps' s'.
Proof.
  revert ps' s'; induction ps as [|p0 ps IH]; intros ps' s' H Hok; cbn [reset_owner] in H;
    [discriminate H|].
  inversion Hok as [|x l H0 Hps]; subst.
  destruct (Nat.eqb (pid (pcfg p0)) q).
  - pose proof (reset_pat_ok p0 s) as R0. destruct (reset_store_prefix p0 s) as [ext E].
    destruct (reset p0 s) as [[p0' s1] o1]. injection H as <- <-. simpl in R0, E.
    constructor; [exact R0|]. subst s1. eapply top_ok_keeps; [apply keeps_app|exact Hps].
  - destruct (reset_owner q ps s) as [[ps2 s2]|] eqn:R; cbn [obind] in H; [|discriminate H].
    injection H as <- <-. destruct (reset_owner_spec _ _ _ _ _ R) as [_ [[ext E] _]].
    constructor; [|exact (IH _ _ eq_refl Hps)]. subst s2. eapply pat_ok_keeps; [apply keeps_app|exact H0].
Qed.

Lemma kill_following_ok (kills : list (option nat)) (a a' : AState) :
  kill_following kills a = Some a' -> top_ok (patterns a) (store a) -> top_ok (patterns a') (store a').
Proof.
  revert a; induction kills as [|km rest IH]; intros a H Hok; cbn [kill_following] in H.
  - injection H as <-. exact Hok.
  - destruct km as [id|]; cbn [obind] in H; [|discriminate H].
    destruct (nth_error (store a) id) as [m|]; cbn [obind] in H; [|discriminate H].
    destruct (reset_owner (parent m) (patterns a) (store a)) as [[ps' s']|] eqn:R;
      cbn [obind] in H; [|discriminate H].
    apply (IH _ H). exact (reset_owner_ok _ _ _ _ _ R Hok).
Qed.

(** the final [pat.reset()] of the [Matching]/[Completed] case *)
Lemma handle_tail_ok (a2 : AState) (j : nat) (resp : PatternMatchResponse) (bf1 : bool)
    (r' : PatternMatchResponse) (bf : bool) (a' : AState) :
  (pat2 <- nth_error (patterns a2) j ;;
   let '(pat', s', _) := reset pat2 (store a2) in
   Some (resp, bf1, set_patterns a2 (set_nth j pat' (patterns a2)) s')) = Some (r', bf, a') ->
  top_ok (patterns a2) (store a2) ->
  (exists ext, store a' = store a2 ++ ext) /\ top_ok (patterns a') (store a').
Proof.
  destruct (nth_error (patterns a2) j) as [pat2|]; cbn [obind]; [|discriminate].
  pose proof (reset_pat_ok pat2 (store a2)) as R0. destruct (reset_store_prefix pat2 (store a2)) as [ext E].
  destruct (reset pat2 (store a2)) as [[pat' s'] o]. intros H Hok. injection H as <- <- <-.
  simpl in R0, E |- *. subst s'. split; [exists ext; reflexivity|].
  apply Forall_set_nth; [|exact R0]. eapply top_ok_keeps; [apply keeps_app|exact Hok].
Qed.

Lemma kill_following_store (kills : list (option nat)) (a a' : AState) :
  kill_following kills a = Some a' -> exists ext, store a' = store a ++ ext.
Proof. intros H. destruct (kill_following_spec _ _ _ H) as [_ [_ [E _]]]. exact E. Qed.

Lemma handle_store_ok (r : PatternMatchResponse) (j : nat) (m : option nat) (a : AState)
    (r' : PatternMatchResponse) (bf : bool) (a' : AState) :
  _handle_match r j m a = Some (r', bf, a') -> top_ok (patterns a) (store a) ->
  keeps (store a) (store a') /\ top_ok (patterns a') (store a').
Proof.
  intros H Hok.
  assert (MC : forall core, (core = Matching \/ core = Completed) ->
     _handle_match core j m a = Some (r', bf, a') ->
     keeps (store a) (store a') /\ top_ok (patterns a') (store a')).
  { intros core Hc Hh.
    assert (Hh' : (pat <- nth_error (patterns a) j ;;
      let a1 := set_match_set a (set_add m (match_set a)) in
      '(a2, bf) <-
        if negb (compounds (pcfg pat)) then
          ind <- list_index m (match_set a1) ;;
          a2 <- kill_following (skipn (S ind) (match_set a1)) a1 ;;
          Some (a2, true)
        else Some (a1, false) ;;
      let '(resp, bf') := if terminal (pcfg pat) then (Break, true) else (core, bf) in
      pat2 <- nth_error (patterns a2) j ;;
      let '(pat', s', _) := reset pat2 (store a2) in
      Some (resp, bf', set_patterns a2 (set_nth j pat' (patterns a2)) s')) = Some (r', bf, a'))
      by (destruct Hc as [->| ->]; exact Hh).
    clear Hh. destruct (nth_error (patterns a) j) as [pat|]; cbn [obind] in Hh';
      [|discriminate Hh'].
    cbv zeta in Hh'. destruct (compounds (pcfg pat)); cbn [negb obind] in Hh'.
    - destruct (terminal (pcfg pat)); cbn beta iota in Hh';
        destruct (handle_tail_ok _ _ _ _ _ _ _ Hh' Hok) as [[ext E] T];
        (split; [rewrite E; apply keeps_app|exact T]).
    - destruct (list_index m (match_set (set_match_set a (set_add m (match_set a))))) as [ind|];
        cbn [obind] in Hh'; [|discriminate Hh'].
      destruct (kill_following (skipn (S ind) (match_set (set_match_set a (set_add m (match_set a)))))
                  (set_match_set a (set_add m (match_set a)))) as [a2|] eqn:Ek;
        cbn [obind] in Hh'; [|discriminate Hh'].
      destruct (kill_following_store _ _ _ Ek) as [e2 E2].
      pose proof (kill_following_ok _ _ _ Ek Hok) as T2.
      destruct (terminal (pcfg pat)); cbn beta iota in Hh';
        destruct (handle_tail_ok _ _ _ _ _ _ _ Hh' T2) as [[ext E] T];
        (split; [rewrite E, E2, <- app_assoc; apply keeps_app|exact T]). }
  destruct r.
  - exact (MC Matching (or_introl eq_refl) H).
  - cbn [_handle_match] in H.
    destruct (nth_error (patterns a) j) as [pat|]; cbn [obind] in H; [|discriminate H].
    pose proof (reset_pat_ok pat (store a)) as R0. destruct (reset_store_prefix pat (store a)) as [ext E].
    destruct (reset pat (store a)) as [[pat' s'] o]. injection H as _ _ <-. simpl in R0, E |- *.
    subst s'. split; [apply keeps_app|]. apply Forall_set_nth; [|exact R0].
    eapply top_ok_keeps; [apply keeps_app|exact Hok].
  - cbn [_handle_match] in H. injection H as _ _ <-. split; [apply keeps_refl|exact Hok].
  - exact (MC Completed (or_intror eq_refl) H).
  - cbn [_handle_match] in H. injection H as _ _ <-. split; [apply keeps_refl|exact Hok].
  - cbn [_handle_match] in H. injection H as _ _ <-. split; [apply keeps_refl|exact Hok].
Qed.

Lemma handle_ws_incl (r : PatternMatchResponse) (j : nat) (m : option nat) (a : AState)
    (r' : PatternMatchResponse) (bf : bool) (a' : AState) :
  _handle_match r j m a = Some (r', bf, a') -> incl (match_set a') (set_add m (match_set a)).
Proof.
  intros H. destruct (handle_ws _ _ _ _ _ _ _ H) as [[_ ->]|[[_ [k [-> _]]]|[_ ->]]];
    intros y Hy.
  - apply set_add_incl. unfold set_delete in Hy. apply filter_In in Hy. apply Hy.
  - apply filter_In in Hy. apply Hy.
  - apply set_add_incl. exact Hy.
Qed.

Lemma handle_inv (r : PatternMatchResponse) (j : nat) (pat : Pattern) (a : AState)
    (r' : PatternMatchResponse) (bf : bool) (a' : AState) :
  nth_error (patterns a) j = Some pat -> inv_ok a ->
  _handle_match r j (pmatch pat) a = Some (r', bf, a') -> inv_ok a'.
Proof.
  intros Ep [D [T W]] H. destruct (handle_store_ok _ _ _ _ _ _ _ H T) as [K T'].
  destruct (handle_match_frame _ _ _ _ _ _ _ H) as [[C _] _].
  split; [exact (handle_nodup _ _ _ _ _ _ _ H D)|]. split; [exact T'|].
  rewrite C. eapply ws_ok_keeps; [exact K|]. eapply ws_ok_incl; [apply (handle_ws_incl _ _ _ _ _ _ _ H)|].
  intros id Hid. unfold set_add in Hid. destruct (existsb (opt_eqb (pmatch pat)) (match_set a));
    [exact (W id Hid)|].
  apply in_app_or in Hid as [Hid|[Hid|[]]]; [exact (W id Hid)|].
  unfold top_ok in T. rewrite Forall_forall in T.
  destruct (T pat (nth_error_In _ _ Ep) id Hid) as [m [Hm Pm]].
  exists m, (pcfg pat). split; [exact Hm|]. split; [apply in_map; apply (nth_error_In _ _ Ep)|congruence].
Qed.

Lemma offer_inv (j : nat) (node : Element) (pth : path) (d : Z) (a : AState)
    (r : PatternMatchResponse) (a1 : AState) :
  offer j node pth d a = Some (r, a1) -> inv_ok a -> inv_ok a1.
Proof.
  unfold offer. destruct (nth_error (patterns a) j) as [pat|] eqn:Ep; cbn [obind]; [|discriminate].
  destruct (matches pat node pth (Some d) (store a)) as [[[r0 pat'] s']|] eqn:M; cbn [obind];
    [|discriminate].
  intros H [D [T W]]. injection H as _ <-.
  destruct (matches_cfg _ _ _ _ _ _ _ _ M) as [Cc Cm].
  pose proof (keeps_grows _ _ (proj1 (matches_framed pat _ _ _ _ _ _ _ M))) as K.
  split; [exact D|]. cbn [patterns store match_set]. split.
  - apply Forall_set_nth; [eapply top_ok_keeps; [exact K|exact T]|].
    unfold top_ok in T. rewrite Forall_forall in T. intros id Hid. rewrite Cc.
    rewrite Cm in Hid. exact (pat_ok_keeps _ _ _ K (T pat (nth_error_In _ _ Ep)) id Hid).
  - rewrite (set_nth_map_same pcfg j pat' pat (patterns a) Ep Cc).
    eapply ws_ok_keeps; [exact K|exact W].
Qed.

Lemma match_step_inv (j : nat) (node : Element) (pth : path) (d : Z) (a : AState)
    (resp : PatternMatchResponse) (bf : bool) (a' : AState) :
  match_step j node pth d a = Some (resp, bf, a') -> inv_ok a -> inv_ok a'.
Proof.
  unfold match_step.
  destruct (offer j node pth d a) as [[r1 a1]|] eqn:E1; cbn [obind]; [|discriminate].
  destruct (nth_error (patterns a1) j) as [m1|] eqn:Em1; cbn [obind]; [|discriminate].
  destruct (_handle_match r1 j (pmatch m1) a1) as [[[h1 b1] a2]|] eqn:H1; cbn [obind]; [|discriminate].
  intros H I. pose proof (handle_inv _ _ _ _ _ _ _ Em1 (offer_inv _ _ _ _ _ _ _ E1 I) H1) as I2.
  destruct (resp_eqb h1 Completed).
  - destruct (offer j node pth d a2) as [[r3 a3]|] eqn:E3; cbn [obind] in H; [|discriminate].
    destruct (nth_error (patterns a3) j) as [m3|] eqn:Em3; cbn [obind] in H; [|discriminate].
    destruct (_handle_match r3 j (pmatch m3) a3) as [[[h3 b3] a4]|] eqn:H3; cbn [obind] in H;
      [|discriminate].
    injection H as _ _ <-. exact (handle_inv _ _ _ _ _ _ _ Em3 (offer_inv _ _ _ _ _ _ _ E3 I2) H3).
  - injection H as _ _ <-. exact I2.
Qed.

Lemma match_loop_inv (node : Element) (pth : path) (d : Z) :
  forall js resp0 a resp a', match_loop js node pth d resp0 a = Some (resp, a') ->
  inv_ok a -> inv_ok a'.
Proof.
  induction js as [|j js IH]; intros resp0 a resp a' E I; cbn [match_loop] in E.
  - injection E as _ <-. exact I.
  - destruct (match_step j node pth d a) as [[[r1 b1] a1]|] eqn:S1; cbn [obind] in E;
      [|discriminate E].
    pose proof (match_step_inv _ _ _ _ _ _ _ _ S1 I) as I1.
    destruct b1; [injection E as _ <-; exact I1|exact (IH _ _ _ _ E I1)].
Qed.

(** an invariant kept by [_match_node] is kept by the whole traversal *)
Section TraversalInvariant.
Variable Inv : AState -> Prop.
Hypothesis node_inv : forall node pth d a resp a',
  _match_node node pth d a = Some (resp, a') -> Inv a -> Inv a'.

Lemma apply_children_inv (rec : Element -> path -> AState -> option AState)
    (pth : path) (cd : Z) (ns : list Element) :
  Forall (fun node => forall p a a', rec node p a = Some a' -> Inv a -> Inv a') ns ->
  forall i a a', apply_children rec pth cd i ns a = Some a' -> Inv a -> Inv a'.
Proof.
  induction 1 as [|node ns Hn Hns IH]; intros i a a' H I; cbn [apply_children] in H.
  - injection H as <-. exact I.
  - destruct (_match_node node (pth ++ [i]) cd a) as [[resp a1]|] eqn:M; cbn [obind] in H;
      [|discriminate H].
    pose proof (node_inv _ _ _ _ _ _ M I) as I1.
    destruct (if resp_eqb resp Break then Some a1 else rec node (pth ++ [i]) a1) as [a2|] eqn:E2;
      cbn [obind] in H; [|discriminate H].
    apply (IH (S i) a2 a' H).
    destruct (resp_eqb resp Break); [injection E2 as <-; exact I1|exact (Hn _ _ _ E2 I1)].
Qed.

Lemma apply_rec_inv (root : Element) : forall pth md cd a a',
  _apply_rec root pth md cd a = Some a' -> Inv a -> Inv a'.
Proof.
  induction root as [t c ns IH] using Element_ind'. intros pth md cd a a' H I.
  cbn [_apply_rec] in H. destruct ((md <=? 0) || (cd <=? md)).
  - eapply (apply_children_inv (fun node p a1 => _apply_rec node p md (cd + 1) a1) pth cd ns);
      [| exact H | exact I].
    eapply Forall_impl; [|exact IH]. intros node Hn p a1 a1' E. exact (Hn _ _ _ _ _ E).
  - injection H as <-. exact I.
Qed.

End TraversalInvariant.

Lemma find_pattern_some (c : PatternConfig) (ps : list Pattern) :
  In c (map pcfg ps) -> exists p, find_pattern (pid c) ps = Some p.
Proof.
  induction ps as [|p0 ps IH]; simpl; intros Hc; [destruct Hc|].
  destruct (Nat.eqb (pid (pcfg p0)) (pid c)) eqn:E; [exists p0; reflexivity|].
  destruct Hc as [<-|Hc]; [rewrite Nat.eqb_refl in E; discriminate E|exact (IH Hc)].
Qed.

Lemma apply_matches_ids (a : AState) : forall ws invs,
  apply_matches ws a = Some invs -> forall i, In i (map inv_match invs) -> In (Some i) ws.
Proof.
  induction ws as [|e ws IH]; intros invs H i Hi; cbn [apply_matches] in H.
  - injection H as <-. destruct Hi.
  - destruct e as [id|]; cbn [obind] in H; [|discriminate H].
    destruct (nth_error (store a) id) as [m|]; cbn [obind] in H; [|discriminate H].
    destruct (find_pattern (parent m) (patterns a)) as [par|]; cbn [obind] in H; [|discriminate H].
    destruct (apply_matches ws a) as [rest|] eqn:R; cbn [obind] in H; [|discriminate H].
    destruct (transform (pcfg par)); injection H as <-.
    + destruct Hi as [<-|Hi]; [left; reflexivity|right; exact (IH _ eq_refl i Hi)].
    + right. exact (IH _ eq_refl i Hi).
Qed.

Lemma apply_matches_ok (a : AState) : forall ws,
  ~ In None ws -> NoDup ws -> ws_ok (map pcfg (patterns a)) (store a) ws ->
  exists invs, apply_matches ws a = Some invs /\ NoDup (map inv_match invs).
Proof.
  induction ws as [|e ws IH]; intros Hn D W; cbn [apply_matches].
  - exists []. split; [reflexivity|constructor].
  - destruct e as [id|]; [|exfalso; apply Hn; left; reflexivity]. cbn [obind].
    inversion D as [|x l Hx D']; subst.
    destruct (W id (or_introl eq_refl)) as [m [c [Hm [Hc Pc]]]]. rewrite Hm. cbn [obind].
    destruct (find_pattern_some c (patterns a) Hc) as [par Hp]. rewrite <- Pc, Hp. cbn [obind].
    destruct (IH (fun H => Hn (or_intror H)) D' (fun i Hi => W i (or_intror Hi))) as [rest [R Dr]].
    rewrite R. cbn [obind].
    destruct (transform (pcfg par)); eexists; (split; [reflexivity|]); [|exact Dr].
    constructor; [|exact Dr]. intros Hi. exact (Hx (apply_matches_ids a _ _ R id Hi)).
Qed.

(** Starting from patterns whose live accumulators are their own (what the
    constructors build), the working set left by the traversal of
    [Annotator.apply] never holds an accumulator twice ([matches.add] is a
    [Set]); and unless it holds [null], the final loop of [apply] runs
    without throwing, each accumulator being handed to its owner's
    transform at most once. *)
Theorem apply_working_set_ok (ps : list Pattern) (s : Store) (root : Element) (md : Z)
    (a : AState) :
  top_ok ps s -> traverse ps s root md = Some a ->
  NoDup (match_set a) /\
  (~ In None (match_set a) ->
   exists invs, apply ps s root md = Some invs /\ NoDup (map inv_match invs)).
Proof.
  intros T H.
  assert (I : inv_ok a).
  { refine (apply_rec_inv inv_ok _ root [] md 0 _ a H _).
    - intros node pth d a0 resp a0' E I0. exact (match_loop_inv _ _ _ _ _ _ _ _ E I0).
    - split; [constructor|]. split; [exact T|]. intros id [].
  }
  destruct I as [D [_ W]]. split; [exact D|]. intros Hn.
  unfold apply. rewrite H. cbn [obind]. exact (apply_matches_ok a _ Hn D W).
Qed.

Lemma apply_working_set_ok_witness :
  exists a invs,
    top_ok (fst script_annotator) (snd script_annotator) /\
    traverse (fst script_annotator) (snd script_annotator) script_root 0 = Some a /\
    NoDup (match_set a) /\ ~ In None (match_set a) /\
    apply (fst script_annotator) (snd script_annotator) script_root 0 = Some invs /\
    NoDup (map inv_match invs).
Proof.
  assert (T : top_ok (fst script_annotator) (snd script_annotator))
    by (apply top_okb_spec; vm_compute; reflexivity).
  destruct (traverse (fst script_annotator) (snd script_annotator) script_root 0) as [a|] eqn:Et;
    [|vm_compute in Et; discriminate Et].
  assert (Hn : ~ In None (match_set a)) by (vm_compute in Et; injection Et as <-; simpl; intuition discriminate).
  destruct (apply_working_set_ok _ _ _ _ _ T Et) as [D Ha].
  destruct (Ha Hn) as [invs [Ea Di]].
  exists a, invs. repeat split; assumption.
Defined.

(** *** The nodes the traversal offers *)

Lemma apply_children_log (rec : Element -> path -> AState -> option AState)
    (pth : path) (cd : Z) (Q : path * nat * PatternMatchResponse -> Prop) (ns : list Element) :
  (forall i e, fst (fst e) = pth ++ [i] -> Q e) ->
  Forall (fun node => forall i a a', rec node (pth ++ [i]) a = Some a' ->
            exists N, log a' = log a ++ N /\ Forall Q N) ns ->
  forall i a a', apply_children rec pth cd i ns a = Some a' ->
  exists N, log a' = log a ++ N /\ Forall Q N.
Proof.
  intros HQ. induction 1 as [|node ns Hn Hns IH]; intros i a a' H; cbn [apply_children] in H.
  - injection H as <-. exists []. rewrite app_nil_r. split; [reflexivity|constructor].
  - destruct (_match_node node (pth ++ [i]) cd a) as [[resp a1]|] eqn:M; cbn [obind] in H;
      [|discriminate H].
    destruct (match_node_spec _ _ _ _ _ _ M) as [N1 [L1 [P1 _]]].
    destruct (if resp_eqb resp Break then Some a1 else rec node (pth ++ [i]) a1) as [a2|] eqn:E2;
      cbn [obind] in H; [|discriminate H].
    assert (R : exists N2, log a2 = log a1 ++ N2 /\ Forall Q N2).
    { destruct (resp_eqb resp Break).
      - injection E2 as <-. exists []. rewrite app_nil_r. split; [reflexivity|constructor].
      - exact (Hn _ _ _ E2). }
    destruct R as [N2 [L2 Q2]]. destruct (IH (S i) a2 a' H) as [N3 [L3 Q3]].
    exists (N1 ++ N2 ++ N3). split; [rewrite L3, L2, L1, !app_assoc; reflexivity|].
    apply Forall_app. split; [|apply Forall_app; split; assumption].
    rewrite Forall_forall in P1 |- *. intros e He. apply (HQ i). exact (P1 e He).
Qed.

Lemma apply_rec_depth (root : Element) : forall pth md cd a a',
  _apply_rec root pth md cd a = Some a' -> 0 < md -> Z.of_nat (List.length pth) = cd ->
  exists N, log a' = log a ++ N /\
    Forall (fun e => Z.of_nat (List.length (fst (fst e))) <= md + 1) N.
Proof.
  induction root as [t c ns IH] using Element_ind'. intros pth md cd a a' H Hmd Hcd.
  cbn [_apply_rec] in H. destruct ((md <=? 0) || (cd <=? md)) eqn:G.
  - assert (Hle : cd <= md).
    { apply orb_true_iff in G as [G|G]; apply Z.leb_le in G; lia. }
    refine (apply_children_log (fun node p a1 => _apply_rec node p md (cd + 1) a1) pth cd _ ns
              _ _ 0%nat a a' H).
    + intros i e E. cbv beta. rewrite E, length_app. simpl. lia.
    + eapply Forall_impl; [|exact IH]. intros node Hn i a1 a1' E.
      apply (Hn _ _ _ _ _ E Hmd). rewrite length_app. simpl. lia.
  - injection H as <-. exists []. rewrite app_nil_r. split; [reflexivity|constructor].
Qed.

(** With a positive [max_depth], every node the traversal offers to a
    pattern lies at most [max_depth + 1] levels below the root (the root
    itself, at level 0, is never offered): [_apply_rec] stops at
    [cur_depth > max_depth] and the children of a node at [cur_depth] are
    at level [cur_depth + 1]. *)
Theorem traverse_depth_bound (ps : list Pattern) (s : Store) (root : Element) (md : Z)
    (a : AState) :
  0 < md -> traverse ps s root md = Some a ->
  Forall (fun e => (1 <= List.length (fst (fst e)))%nat /\
                   Z.of_nat (List.length (fst (fst e))) <= md + 1) (log a).
Proof.
  intros Hmd H. unfold traverse in H.
  destruct (apply_rec_depth _ _ _ _ _ _ H Hmd eq_refl) as [N [L B]].
  destruct (apply_rec_spec _ _ _ _ _ _ H) as [N' [L' [P' _]]].
  simpl in L, L'. subst N N'. apply Forall_forall. intros e He.
  rewrite Forall_forall in B, P'. split; [|exact (B e He)].
  destruct (P' e He) as [x [rest E]]. unfold path in E. rewrite E. simpl. lia.
Qed.

Lemma traverse_depth_bound_witness :
  exists a, 0 < 1 /\ traverse (fst script_annotator) (snd script_annotator) script_root 1 = Some a /\
    Forall (fun e => (1 <= List.length (fst (fst e)))%nat /\
                     Z.of_nat (List.length (fst (fst e))) <= 1 + 1) (log a) /\
    In ([0%nat; 0%nat], 0%nat, NonMatching) (log a) /\
    exists b, traverse (fst script_annotator) (snd script_annotator) (Elem "DIV" "" [script_root]) 1
                = Some b /\ ~ In [0%nat; 0%nat; 0%nat] (map (fun e => fst (fst e)) (log b)).
Proof.
  destruct (traverse (fst script_annotator) (snd script_annotator) script_root 1) as [a|] eqn:Et;
    [|vm_compute in Et; discriminate Et].
  destruct (traverse (fst script_annotator) (snd script_annotator) (Elem "DIV" "" [script_root]) 1)
    as [b|] eqn:Eb; [|vm_compute in Eb; discriminate Eb].
  exists a. split; [lia|]. split; [reflexivity|].
  split; [apply (traverse_depth_bound _ _ _ 1 _ ltac:(lia) Et)|].
  split; [vm_compute in Et; injection Et as <-; simpl; tauto|].
  exists b. split; [reflexivity|]. vm_compute in Eb. injection Eb as <-. simpl. intuition discriminate.
Defined.

Lemma match_step_first (j : nat) (node : Element) (pth : path) (d : Z) (a : AState)
    (resp : PatternMatchResponse) (bf : bool) (a' : AState) :
  match_step j node pth d a = Some (resp, bf, a') ->
  exists r N, log a' = log a ++ (pth, j, r) :: N.
Proof.
  unfold match_step.
  destruct (offer j node pth d a) as [[r1 a1]|] eqn:E1; cbn [obind]; [|discriminate].
  destruct (offer_spec _ _ _ _ _ _ _ E1) as [L1 _].
  destruct (nth_error (patterns a1) j) as [m1|]; cbn [obind]; [|discriminate].
  destruct (_handle_match r1 j (pmatch m1) a1) as [[[h1 b1] a2]|] eqn:H1; cbn [obind]; [|discriminate].
  destruct (handle_match_frame _ _ _ _ _ _ _ H1) as [_ [L2 _]].
  destruct (resp_eqb h1 Completed).
  - destruct (offer j node pth d a2) as [[r3 a3]|] eqn:E3; cbn [obind]; [|discriminate].
    destruct (offer_spec _ _ _ _ _ _ _ E3) as [L3 _].
    destruct (nth_error (patterns a3) j) as [m3|]; cbn [obind]; [|discriminate].
    destruct (_handle_match r3 j (pmatch m3) a3) as [[[h3 b3] a4]|] eqn:H3; cbn [obind]; [|discriminate].
    destruct (handle_match_frame _ _ _ _ _ _ _ H3) as [_ [L4 _]].
    intros E. injection E as _ _ <-. exists r1, [(pth, j, r3)].
    rewrite L4, L3, L2, L1, <- app_assoc. reflexivity.
  - intros E. injection E as _ _ <-. exists r1, []. rewrite L2, L1. reflexivity.
Qed.

Lemma match_node_first (node : Element) (pth : path) (d : Z) (a : AState)
    (resp : PatternMatchResponse) (a' : AState) :
  _match_node node pth d a = Some (resp, a') -> patterns a <> [] ->
  exists r N, log a' = log a ++ (pth, 0%nat, r) :: N.
Proof.
  unfold _match_node. intros E Hp.
  destruct (patterns a) as [|p0 ps]; [contradiction|]. cbn [List.length seq match_loop] in E.
  destruct (match_step 0 node pth d a) as [[[r1 b1] a1]|] eqn:S1; cbn [obind] in E; [|discriminate E].
  destruct (match_step_first _ _ _ _ _ _ _ _ S1) as [r [N L1]]. exists r.
  destruct b1; [injection E as _ <-; exists N; exact L1|].
  destruct (match_loop_last _ _ _ _ _ _ _ _ E) as [[_ [_ ->]]|[N2 [j2 L2]]]; [exists N; exact L1|].
  exists (N ++ N2 ++ [(pth, j2, resp)]). rewrite L2, L1, <- app_assoc. reflexivity.
Qed.

Lemma oframe_nonempty (a a' : AState) : oframe a a' -> patterns a <> [] -> patterns a' <> [].
Proof.
  intros [C _] Hp Hn. apply Hp. rewrite Hn in C. simpl in C.
  destruct (patterns a); [reflexivity|discriminate C].
Qed.

Lemma covered_app (L N : list (path * nat * PatternMatchResponse)) (pth q : path) :
  covered L pth q -> covered (L ++ N) pth q.
Proof.
  intros [[r H]|[q0 [x [rest [j [E [Hn H]]]]]]].
  - left. exists r. apply in_or_app. left. exact H.
  - right. exists q0, x, rest, j. split; [exact E|]. split; [exact Hn|]. apply in_or_app. left. exact H.
Qed.

Lemma covered_shift (L : list (path * nat * PatternMatchResponse)) (pth : path) (i : nat) (q : path) :
  covered L (pth ++ [i]) q -> covered L pth (i :: q).
Proof.
  intros [[r H]|[q0 [x [rest [j [E [Hn H]]]]]]].
  - left. exists r. rewrite <- app_assoc in H. exact H.
  - right. exists (i :: q0), x, rest, j. split; [rewrite E; reflexivity|].
    split; [discriminate|]. rewrite <- app_assoc in H. exact H.
Qed.

Lemma apply_children_rec_log (pth : path) (md cd' cd : Z) (ns : list Element) (i : nat)
    (a a' : AState) :
  apply_children (fun node p a1 => _apply_rec node p md cd' a1) pth cd i ns a = Some a' ->
  exists N, log a' = log a ++ N /\ oframe a a'.
Proof.
  intros H.
  edestruct (apply_children_spec (fun node p a1 => _apply_rec node p md cd' a1) pth cd ns)
    as [N [L [_ [_ F]]]]; [|exact H|exists N; split; [exact L|exact F]].
  apply Forall_forall. intros node _ p a1 a1' E.
  destruct (apply_rec_spec _ _ _ _ _ _ E) as [N [L [P [D F]]]]. exists N. auto.
Qed.

Lemma apply_rec_complete (root : Element) : forall pth md cd a a',
  _apply_rec root pth md cd a = Some a' -> patterns a <> [] ->
  Z.of_nat (List.length pth) = cd ->
  forall q el, subtree_at root q = Some el -> q <> [] ->
  (md <= 0 \/ Z.of_nat (List.length pth + List.length q) <= md + 1) ->
  covered (log a') pth q.
Proof.
  induction root as [t c ns IH] using Element_ind'.
  intros pth md cd a a' H Hp Hcd q el Hq Hne Hd.
  destruct q as [|k q']; [contradiction|]. cbn [subtree_at] in Hq.
  destruct (nth_error ns k) as [node|] eqn:Ek; cbn [obind] in Hq; [|discriminate Hq].
  cbn [_apply_rec] in H.
  assert (G : ((md <=? 0) || (cd <=? md)) = true).
  { apply orb_true_iff. destruct Hd as [Hd|Hd]; [left; apply Z.leb_le; exact Hd|].
    right. apply Z.leb_le. cbn [List.length] in Hd. lia. }
  rewrite G in H.
  assert (Hc : forall ns0 i a0 a0',
    Forall (fun node => forall pth md cd a a', _apply_rec node pth md cd a = Some a' ->
              patterns a <> [] -> Z.of_nat (List.length pth) = cd ->
              forall q el, subtree_at node q = Some el -> q <> [] ->
              (md <= 0 \/ Z.of_nat (List.length pth + List.length q) <= md + 1) ->
              covered (log a') pth q) ns0 ->
    apply_children (fun node p a1 => _apply_rec node p md (cd + 1) a1) pth cd i ns0 a0 = Some a0' ->
    patterns a0 <> [] ->
    forall k0 node0 q0 el0, nth_error ns0 k0 = Some node0 -> subtree_at node0 q0 = Some el0 ->
    (md <= 0 \/ Z.of_nat (List.length pth + S (List.length q0)) <= md + 1) ->
    covered (log a0') pth ((i + k0)%nat :: q0)).
  { induction ns0 as [|node1 ns0 IHns]; intros i a0 a0' HF Ha Hp0 k0 node0 q0 el0 Hk Hs Hd0;
      [destruct k0; discriminate Hk|].
    inversion HF as [|x l Hn1 HF']; subst x l.
    cbn [apply_children] in Ha.
    destruct (_match_node node1 (pth ++ [i]) cd a0) as [[resp a1]|] eqn:M; cbn [obind] in Ha;
      [|discriminate Ha].
    destruct (match_node_spec _ _ _ _ _ _ M) as [_ [_ [_ [F1 _]]]].
    destruct (if resp_eqb resp Break then Some a1
              else _apply_rec node1 (pth ++ [i]) md (cd + 1) a1) as [a2|] eqn:E2;
      cbn [obind] in Ha; [|discriminate Ha].
    assert (F2 : oframe a1 a2 /\ exists N2, log a2 = log a1 ++ N2).
    { destruct (resp_eqb resp Break).
      - injection E2 as <-. split; [apply oframe_refl|exists []; rewrite app_nil_r; reflexivity].
      - destruct (apply_rec_spec _ _ _ _ _ _ E2) as [N2 [L2 [_ [_ F]]]]. split; [exact F|].
        exists N2. exact L2. }
    destruct F2 as [F2 [N2 L2]].
    destruct (apply_children_rec_log _ _ _ _ _ _ _ _ Ha) as [N3 [L3 F3]].
    destruct k0 as [|k1].
    - cbn [nth_error] in Hk. injection Hk as <-. rewrite Nat.add_0_r.
      destruct q0 as [|x rest].
      + destruct (match_node_first _ _ _ _ _ _ M Hp0) as [r [N1 L1]].
        left. exists r. rewrite L3, L2, L1. apply in_or_app. left. apply in_or_app.
        left. apply in_or_app. right. left. reflexivity.
      + unfold resp_eqb in E2. destruct (resp_eq_dec resp Break) as [Eb|Nb].
        * injection E2 as <-.
          destruct (match_node_last_response_aux _ _ _ _ _ _ M) as [[Hn _]|[N1 [j L1]]];
            [contradiction|].
          right. exists [i], x, rest, j. split; [reflexivity|]. split; [discriminate|].
          rewrite L3, L1, <- Eb. apply in_or_app. left. apply in_or_app. right.
          apply in_or_app. right. left. reflexivity.
        * rewrite L3. apply covered_app. apply covered_shift.
          refine (Hn1 _ _ _ _ _ E2 (oframe_nonempty _ _ F1 Hp0) _ (x :: rest) el0 Hs
                    ltac:(discriminate) _).
          -- rewrite length_app. cbn [List.length]. lia.
          -- destruct Hd0 as [Hd0|Hd0]; [left; exact Hd0|right].
             rewrite length_app. cbn [List.length] in Hd0 |- *. lia.
    - cbn [nth_error] in Hk.
      replace (i + S k1)%nat with (S i + k1)%nat by lia.
      refine (IHns (S i) a2 a0' HF' Ha _ k1 node0 q0 el0 Hk Hs Hd0).
      apply (oframe_nonempty a1 a2 F2). exact (oframe_nonempty _ _ F1 Hp0). }
  refine (Hc ns 0%nat a a' _ H Hp k node q' el Ek Hq _).
  - eapply Forall_impl; [|exact IH]. intros n0 Hn0 p0 md0 cd0 b b' E Hb Hl q0 e0 Hs0 Hne0 Hd0.
    exact (Hn0 p0 md0 cd0 b b' E Hb Hl q0 e0 Hs0 Hne0 Hd0).
  - destruct Hd as [Hd|Hd]; [left; exact Hd|right]. cbn [List.length] in Hd. lia.
Qed.

(** Conversely, every node of the tree below the root and within the
    depth bound (any depth when [max_depth <= 0]) is offered to the first
    configured pattern, unless one of its proper ancestors below the root
    got the final response [Break]: the traversal skips a subtree only on a
    [Break] or past the depth bound. *)
Theorem traverse_covers (ps : list Pattern) (s : Store) (root : Element) (md : Z) (a : AState)
    (q : path) (el : Element) :
  ps <> [] -> traverse ps s root md = Some a ->
  subtree_at root q = Some el -> q <> [] ->
  (md <= 0 \/ Z.of_nat (List.length q) <= md + 1) ->
  (exists r, In (q, 0%nat, r) (log a)) \/
  (exists q0 x rest j, q = q0 ++ x :: rest /\ q0 <> [] /\ In (q0, j, Break) (log a)).
Proof.
  intros Hp H Hs Hne Hd. unfold traverse in H.
  exact (apply_rec_complete _ _ _ _ _ _ H Hp eq_refl q el Hs Hne Hd).
Qed.

Lemma traverse_covers_witness :
  exists a,
    fst script_annotator <> [] /\
    traverse (fst script_annotator) (snd script_annotator) script_root 0 = Some a /\
    subtree_at script_root [0%nat; 0%nat] = Some (leaf "P") /\
    ((exists r, In ([0%nat; 0%nat], 0%nat, r) (log a)) \/
     (exists q0 x rest j, [0%nat; 0%nat] = q0 ++ x :: rest /\ q0 <> [] /\ In (q0, j, Break) (log a))).
Proof.
  destruct (traverse (fst script_annotator) (snd script_annotator) script_root 0) as [a|] eqn:Et;
    [|vm_compute in Et; discriminate Et].
  assert (Hp : fst script_annotator <> []) by (intros Hc; vm_compute in Hc; discriminate Hc).
  assert (Hs : subtree_at script_root [0%nat; 0%nat] = Some (leaf "P")) by (vm_compute; reflexivity).
  exists a. split; [exact Hp|]. split; [reflexivity|]. split; [exact Hs|].
  apply (traverse_covers _ _ _ _ _ _ (leaf "P") Hp Et Hs); [discriminate|left; lia].
Defined.

(** *** PatternMatch.getNodeList *)

Lemma fill_items_app (rec : nat -> option (list NodeEntry)) (recurse : bool) :
  forall l1 l2 L, fill_items rec recurse (l1 ++ l2) = Some L ->
  exists L1 L2, fill_items rec recurse l1 = Some L1 /\ fill_items rec recurse l2 = Some L2 /\
                L = L1 ++ L2.
Proof.
  induction l1 as [|it l1 IH]; intros l2 L H.
  - exists [], L. auto.
  - cbn [app] in H. destruct it as [p e|[j|]]; cbn [fill_items] in H |- *.
    + destruct (fill_items rec recurse (l1 ++ l2)) as [tl|] eqn:E; cbn [obind] in H;
        [|discriminate H].
      injection H as <-. destruct (IH _ _ E) as [L1 [L2 [E1 [E2 ->]]]].
      exists (NNode p e :: L1), L2. rewrite E1. auto.
    + destruct recurse.
      * destruct (rec j) as [hd|]; cbn [obind] in H |- *; [|discriminate H].
        destruct (fill_items rec true (l1 ++ l2)) as [tl|] eqn:E; cbn [obind] in H;
          [|discriminate H].
        injection H as <-. destruct (IH _ _ E) as [L1 [L2 [E1 [E2 ->]]]].
        exists (hd ++ L1), L2. rewrite E1. cbn [obind]. rewrite app_assoc. auto.
      * exact (IH _ _ H).
    + destruct (fill_items rec recurse (l1 ++ l2)) as [tl|] eqn:E; cbn [obind] in H;
        [|discriminate H].
      injection H as <-. destruct (IH _ _ E) as [L1 [L2 [E1 [E2 ->]]]].
      exists (NNull :: L1), L2. rewrite E1. auto.
Qed.

Lemma fill_items_match (rec : nat -> option (list NodeEntry)) (l : list Item) (j : nat)
    (L : list NodeEntry) :
  fill_items rec true l = Some L -> In (IMatch (Some j)) l ->
  exists Lj A B, rec j = Some Lj /\ L = A ++ Lj ++ B.
Proof.
  intros H Hj. destruct (in_split _ _ Hj) as [l1 [l2 ->]].
  destruct (fill_items_app _ _ _ _ _ H) as [L1 [L2 [_ [E2 ->]]]].
  cbn [fill_items] in E2. destruct (rec j) as [Lj|]; cbn [obind] in E2; [|discriminate E2].
  destruct (fill_items rec true l2) as [tl|]; cbn [obind] in E2; [|discriminate E2].
  injection E2 as <-. exists Lj, L1, tl. auto.
Qed.

Lemma fill_items_last (rec : nat -> option (list NodeEntry)) (recurse : bool) (l : list Item)
    (p : path) (e : Element) (L : list NodeEntry) :
  fill_items rec recurse (l ++ [INode p e]) = Some L -> exists L', L = L' ++ [NNode p e].
Proof.
  intros H. destruct (fill_items_app _ _ _ _ _ H) as [L1 [L2 [_ [E2 ->]]]].
  cbn [fill_items obind] in E2. injection E2 as <-. exists L1. reflexivity.
Qed.

Lemma fill_items_total (rec : nat -> option (list NodeEntry)) (recurse : bool) (l : list Item) :
  (forall j, In (IMatch (Some j)) l -> exists Lj, rec j = Some Lj) ->
  exists L, fill_items rec recurse l = Some L.
Proof.
  induction l as [|it l IH]; intros H; [exists []; reflexivity|].
  assert (H' : forall j, In (IMatch (Some j)) l -> exists Lj, rec j = Some Lj)
    by (intros j Hj; apply H; right; exact Hj).
  destruct (IH H') as [tl E]. destruct it as [p e|[j|]]; cbn [fill_items]; rewrite ?E.
  - exists (NNode p e :: tl). reflexivity.
  - destruct recurse; [|exists tl; reflexivity].
    destruct (H j (or_introl eq_refl)) as [Lj Ej]. rewrite Ej. exists (Lj ++ tl). reflexivity.
  - exists (NNull :: tl). reflexivity.
Qed.

Lemma fill_items_flat (rec : nat -> option (list NodeEntry)) (l : list Item) :
  exists L, fill_items rec false l = Some L.
Proof.
  induction l as [|it l [tl E]]; [exists []; reflexivity|].
  destruct it as [p e|[j|]]; cbn [fill_items]; rewrite ?E; eexists; reflexivity.
Qed.

Lemma fillNodeList_total (s : Store) (recurse : bool) :
  (forall i m j, nth_error s i = Some m -> In (IMatch (Some j)) (nodes m) -> (j < i)%nat) ->
  forall fuel id, (id < fuel)%nat -> (id < List.length s)%nat ->
  exists L, _fillNodeList fuel s id recurse = Some L.
Proof.
  intros Hwf. induction fuel as [|fuel IH]; intros id Hf Hl; [lia|].
  cbn [_fillNodeList]. destruct (nth_error s id) as [m|] eqn:Em;
    [|apply nth_error_None in Em; lia].
  cbn [obind]. apply fill_items_total. intros j Hj.
  pose proof (Hwf id m j Em Hj). apply IH; lia.
Qed.

(** [getNodeList] on an accumulator of the store never overflows when
    nested accumulators were created before the accumulators holding them
    (as [AnyPattern] builds its wrapper over its children's accumulators):
    it returns a list, with or without [recurse]; on an identity outside
    the store it fails ([undefined.nodes] throws). *)
Theorem getNodeList_total (s : Store) (id : nat) (recurse : bool) :
  (forall i m j, nth_error s i = Some m -> In (IMatch (Some j)) (nodes m) -> (j < i)%nat) ->
  ((id < List.length s)%nat -> exists L, getNodeList s id recurse = Some L) /\
  ((List.length s <= id)%nat -> getNodeList s id recurse = None).
Proof.
  intros Hwf. split.
  - intros Hl. unfold getNodeList. exact (fillNodeList_total s recurse Hwf _ id Hl Hl).
  - intros Hl. unfold getNodeList. destruct (List.length s) as [|n] eqn:En; [reflexivity|].
    cbn [_fillNodeList]. rewrite <- En in Hl. apply nth_error_None in Hl. rewrite Hl. reflexivity.
Qed.

Lemma getNodeList_total_witness :
  (forall i m j, nth_error (snd any_tag_p) i = Some m -> In (IMatch (Some j)) (nodes m) ->
     (j < i)%nat) /\
  getNodeList (snd any_tag_p) 1 true = Some [] /\ getNodeList (snd any_tag_p) 2 true = None.
Proof.
  assert (Hwf : forall i m j, nth_error (snd any_tag_p) i = Some m ->
                  In (IMatch (Some j)) (nodes m) -> (j < i)%nat).
  { intros i m j Hi Hj. destruct i as [|[|i]].
    - vm_compute in Hi. injection Hi as <-. destruct Hj.
    - vm_compute in Hi. injection Hi as <-. destruct Hj as [Hj|[]]. injection Hj as <-. lia.
    - destruct i; vm_compute in Hi; discriminate Hi. }
  split; [exact Hwf|].
  destruct (proj1 (getNodeList_total (snd any_tag_p) 1 true Hwf) ltac:(vm_compute; lia)) as [L E].
  split; [rewrite E; vm_compute in E; exact (eq_sym E)|].
  apply (proj2 (getNodeList_total (snd any_tag_p) 2 true Hwf)). vm_compute. lia.
Defined.

(** An accumulator that lists itself among its nodes makes the recursive
    [getNodeList] recurse forever (the call stack overflows), while the
    non-recursive one still returns. *)
Theorem getNodeList_self_nested (s : Store) (id : nat) (m : PatternMatch) :
  nth_error s id = Some m -> In (IMatch (Some id)) (nodes m) ->
  getNodeList s id true = None /\ exists L, getNodeList s id false = Some L.
Proof.
  intros Em Hin. split.
  - unfold getNodeList. generalize (List.length s) as fuel.
    induction fuel as [|fuel IH]; [reflexivity|]. cbn [_fillNodeList]. rewrite Em. cbn [obind].
    destruct (fill_items (fun j => _fillNodeList fuel s j true) true (nodes m)) as [L|] eqn:E;
      [|reflexivity].
    destruct (fill_items_match _ _ _ _ E Hin) as [Lj [A [B [Ej _]]]]. rewrite IH in Ej. discriminate Ej.
  - unfold getNodeList.
    assert (Hl : (id < List.length s)%nat) by (apply nth_error_Some; rewrite Em; discriminate).
    destruct (List.length s) as [|n]; [lia|].
    cbn [_fillNodeList]. rewrite Em. cbn [obind]. apply fill_items_flat.
Qed.

Lemma getNodeList_self_nested_witness :
  exists L,
    getNodeList [new_match 0 [INode [0%nat] (leaf "P"); IMatch (Some 0%nat)]] 0 true = None /\
    getNodeList [new_match 0 [INode [0%nat] (leaf "P"); IMatch (Some 0%nat)]] 0 false = Some L /\
    L = [NNode [0%nat] (leaf "P")].
Proof.
  destruct (getNodeList_self_nested [new_match 0 [INode [0%nat] (leaf "P"); IMatch (Some 0%nat)]] 0
              (new_match 0 [INode [0%nat] (leaf "P"); IMatch (Some 0%nat)]) eq_refl
              (or_intror (or_introl eq_refl))) as [E1 [L E2]].
  exists L. split; [exact E1|]. split; [exact E2|]. vm_compute in E2. injection E2 as <-. reflexivity.
Defined.

Lemma matching_pushes (q : Pattern) (el : Element) (pth : path) (d : option Z) (s : Store)
    (q' : Pattern) (s1 : Store) (c : nat) :
  matches q el pth d s = Some (Matching, q', s1) -> pmatch q = Some c ->
  exists m, nth_error s1 c = Some m /\ exists X, nodes m = X ++ [INode pth el].
Proof.
  destruct q as [st k]. unfold pmatch. cbn [pstate]. rewrite matches_eq.
  destruct (short_circuits st d); [intros E; discriminate E|].
  destruct (run_matcher k el pth d s) as [[[r0 k0] s0]|]; cbn [obind]; [|discriminate].
  destruct (record_match st r0 el pth d s0) as [[st2 s2]|] eqn:Er; cbn [obind]; [|discriminate].
  intros E Hc. injection E as -> _ <-. unfold record_match in Er. rewrite Hc in Er.
  cbn [resp_eqb resp_eq_dec orb] in Er. unfold store_push in Er.
  destruct (nth_error s0 c) as [m0|] eqn:Em; cbn [obind] in Er; [|discriminate Er].
  injection Er as _ <-. eexists. split.
  - apply nth_error_set_nth_eq. apply nth_error_Some. congruence.
  - exists (nodes m0). reflexivity.
Qed.

Lemma offered_all_grows (el : Element) (pth : path) (d : option Z)
    (R : PatternMatchResponse -> Prop) (ps ps' : list Pattern) (s s' : Store) :
  offered_all (fun q => matches q el pth d) R ps ps' s s' -> grows s s'.
Proof.
  induction 1 as [s|q q' r ps ps' s s1 s2 M _ _ IH]; [apply grows_refl|].
  eapply grows_trans; [exact (proj1 (matches_framed q _ _ _ _ _ _ _ M))|exact IH].
Qed.

(** An [AnyPattern] whose wrapper accumulator lists its children's
    accumulators (as its constructor and [reset()] build it) and answers
    [Matching] on a node records the node twice: the matching child pushes
    it into its own accumulator, nested in the wrapper, and
    [Pattern.matches] pushes it into the wrapper itself; so the recursive
    [getNodeList] of the wrapper, the accumulator handed to the transform,
    lists the node twice. *)
Theorem any_match_lists_node_twice (st : PatternState) (qs : list Pattern) (el : Element)
    (pth : path) (d : option Z) (s : Store) (p' : Pattern) (s' : Store) (w : nat)
    (mw : PatternMatch) (L : list NodeEntry) :
  match_ st = Some w -> nth_error s w = Some mw -> qs <> [] ->
  (forall q, In q qs -> exists c, pmatch q = Some c /\ c <> w /\ In (IMatch (Some c)) (nodes mw)) ->
  matches (Pat st (AnyK qs)) el pth d s = Some (Matching, p', s') ->
  getNodeList s' w true = Some L ->
  exists L1 L2, L = L1 ++ NNode pth el :: L2 ++ [NNode pth el].
Proof.
  intros Hw Hmw Hne Hq M G.
  destruct (short_circuits st d) eqn:Hs.
  { rewrite matches_eq, Hs in M. discriminate M. }
  destruct (any_pattern_spec_aux _ _ _ _ _ _ _ _ _ Hs M) as [ps' [s1 [_ [Er Hd]]]].
  destruct Hd as [[-> _]|[pre [pre' [q [q' [post [s0 [Eq [Ho [Mq Hr]]]]]]]]]];
    [contradiction|].
  assert (Hr' : Matching <> NonMatching /\ Matching <> Unapplied) by (split; discriminate).
  destruct (Hq q ltac:(rewrite Eq; apply in_or_app; right; left; reflexivity)) as [c [Hc [Hcw Hin]]].
  pose proof (grows_trans _ _ _ (offered_all_grows _ _ _ _ _ _ _ _ Ho)
                (proj1 (matches_framed q _ _ _ _ _ _ _ Mq))) as [_ Gr].
  destruct (Gr w mw Hmw) as [ns Emw1].
  destruct (matching_pushes _ _ _ _ _ _ _ _ Mq Hc) as [mc [Emc [X HX]]].
  unfold record_match in Er. rewrite Hw in Er. cbn [resp_eqb resp_eq_dec orb] in Er.
  unfold store_push in Er. rewrite Emw1 in Er. cbn [obind] in Er. injection Er as _ <-.
  set (mw1 := {| nodes := nodes mw ++ ns; complete := complete mw; parent := parent mw |}) in *.
  assert (Hl : (w < List.length s1)%nat) by (apply nth_error_Some; congruence).
  unfold getNodeList in G. rewrite set_nth_length in G.
  destruct (List.length s1) as [|f] eqn:Ef; [lia|]. cbn [_fillNodeList] in G.
  rewrite nth_error_set_nth_eq in G by lia. cbn [obind nodes] in G.
  destruct (fill_items_app _ _ _ _ _ G) as [L1 [L2 [E1 [E2 ->]]]].
  cbn [fill_items obind] in E2. injection E2 as <-.
  assert (Hin1 : In (IMatch (Some c)) (nodes mw ++ ns)) by (apply in_or_app; left; exact Hin).
  destruct (fill_items_match _ _ _ _ E1 Hin1) as [Lc [A [B [Ec ->]]]].
  destruct f as [|f]; [discriminate Ec|]. cbn [_fillNodeList] in Ec.
  rewrite nth_error_set_nth_neq in Ec by congruence. rewrite Emc in Ec. cbn [obind] in Ec.
  rewrite HX in Ec. destruct (fill_items_last _ _ _ _ _ _ Ec) as [Lx ->].
  exists (A ++ Lx), B. rewrite <- !app_assoc. reflexivity.
Qed.

Lemma any_match_lists_node_twice_witness :
  exists st qs p' s' w mw L,
    fst any_tag_p = Pat st (AnyK qs) /\ match_ st = Some w /\ nth_error (snd any_tag_p) w = Some mw /\
    matches (Pat st (AnyK qs)) (leaf "P") [0%nat] (Some 0) (snd any_tag_p) = Some (Matching, p', s') /\
    getNodeList s' w true = Some L /\
    (exists L1 L2, L = L1 ++ NNode [0%nat] (leaf "P") :: L2 ++ [NNode [0%nat] (leaf "P")]) /\
    L = [NNode [0%nat] (leaf "P"); NNode [0%nat] (leaf "P")].
Proof.
  destruct (fst any_tag_p) as [st k] eqn:Ep. pose proof Ep as Ep'. vm_compute in Ep'.
  injection Ep' as Est Ek. subst st k.
  destruct (matches (fst any_tag_p) (leaf "P") [0%nat] (Some 0) (snd any_tag_p))
    as [[[r p'] s']|] eqn:M; [|vm_compute in M; discriminate M].
  pose proof M as M'. vm_compute in M'. injection M' as Er _ _. subst r. rewrite Ep in M.
  destruct (getNodeList s' 1 true) as [L|] eqn:G.
  2:{ vm_compute in M. injection M as _ <-. vm_compute in G. discriminate G. }
  eexists _, _, p', s', 1%nat, _, L. split; [reflexivity|]. split; [reflexivity|].
  split; [vm_compute; reflexivity|]. split; [exact M|]. split; [exact G|].
  split.
  - refine (any_match_lists_node_twice _ _ _ _ _ _ _ _ 1%nat _ _ _ _ _ _ M G).
    + reflexivity.
    + vm_compute. reflexivity.
    + discriminate.
    + intros q [<-|[]]. exists 0%nat. split; [reflexivity|]. split; [discriminate|].
      vm_compute. left. reflexivity.
  - vm_compute in M. injection M as _ <-. vm_compute in G. injection G as <-. reflexivity.
Defined.

(** *** The kill loop of Annotator._handle_match *)

Lemma kill_following_null (kills : list (option nat)) :
  In None kills -> forall a, kill_following kills a = None.
Proof.
  induction kills as [|km rest IH]; intros Hn a; [destruct Hn|].
  cbn [kill_following]. destruct km as [id|]; cbn [obind]; [|reflexivity].
  destruct Hn as [Hn|Hn]; [discriminate Hn|].
  destruct (nth_error (store a) id); cbn [obind]; [|reflexivity].
  destruct (reset_owner _ (patterns a) (store a)) as [[ps' s']|]; cbn [obind]; [|reflexivity].
  apply IH. exact Hn.
Qed.

(** When a non-compounding pattern answers [Matching] or [Completed] and a
    [null] accumulator (registered by an [ExceptPattern] or a
    [PatternTest]) follows its own accumulator in the working set, the kill
    loop reads [null.parent] and throws. *)
Theorem kill_loop_throws_on_null (r : PatternMatchResponse) (j : nat) (pat : Pattern)
    (a : AState) (ind : nat) :
  (r = Matching \/ r = Completed) -> nth_error (patterns a) j = Some pat ->
  compounds (pcfg pat) = false ->
  list_index (pmatch pat) (set_add (pmatch pat) (match_set a)) = Some ind ->
  In None (skipn (S ind) (set_add (pmatch pat) (match_set a))) ->
  _handle_match r j (pmatch pat) a = None.
Proof.
  intros Hr Ep Hc Ei Hn.
  assert (K : kill_following (skipn (S ind) (set_add (pmatch pat) (match_set a)))
                (set_match_set a (set_add (pmatch pat) (match_set a))) = None)
    by (apply kill_following_null; exact Hn).
  destruct Hr as [-> | ->]; cbn [_handle_match]; rewrite Ep; cbn [obind]; cbv zeta;
    rewrite Hc; cbn [negb match_set set_match_set]; rewrite Ei; cbn [obind];
    rewrite K; reflexivity.
Qed.

Lemma kill_loop_throws_on_null_witness :
  exists a1 a2 pat,
    _match_node (leaf "H2") [0%nat] 0
      (initial_state (fst kill_null_config) (snd kill_null_config)) = Some (Matching, a1) /\
    match_set a1 = [Some 2%nat; None] /\
    offer 0 (leaf "P") [1%nat] 0 a1 = Some (Matching, a2) /\
    nth_error (patterns a2) 0 = Some pat /\
    _handle_match Matching 0 (pmatch pat) a2 = None /\
    traverse (fst kill_null_config) (snd kill_null_config) h2_p_root 0 = None.
Proof.
  destruct (_match_node (leaf "H2") [0%nat] 0
      (initial_state (fst kill_null_config) (snd kill_null_config))) as [[r1 a1]|] eqn:E1;
    [|vm_compute in E1; discriminate E1].
  pose proof E1 as E1'. vm_compute in E1'. injection E1' as Er1 _. subst r1.
  destruct (offer 0 (leaf "P") [1%nat] 0 a1) as [[r2 a2]|] eqn:E2.
  2:{ vm_compute in E1. injection E1 as <-. vm_compute in E2. discriminate E2. }
  assert (Hr2 : r2 = Matching) by (vm_compute in E1; injection E1 as <-; vm_compute in E2;
                                   injection E2 as <- _; reflexivity).
  subst r2.
  destruct (nth_error (patterns a2) 0) as [pat|] eqn:Ep.
  2:{ vm_compute in E1. injection E1 as <-. vm_compute in E2. injection E2 as <-.
      vm_compute in Ep. discriminate Ep. }
  assert (Ews : match_set a1 = [Some 2%nat; None])
    by (vm_compute in E1; injection E1 as <-; reflexivity).
  exists a1, a2, pat. split; [first [reflexivity|assumption]|]. split; [exact Ews|].
  split; [first [reflexivity|assumption]|]. split; [first [reflexivity|assumption]|]. split.
  - apply (kill_loop_throws_on_null Matching 0 pat a2 0); [left; reflexivity|exact Ep| | |];
      vm_compute in E1; injection E1 as <-; vm_compute in E2; injection E2 as <-;
      vm_compute in Ep; injection Ep as <-; vm_compute; [reflexivity|reflexivity|first [left; reflexivity|right; left; reflexivity]].
  - vm_compute. reflexivity.
Defined.
